(** * Transcript CSV validator: year-range parsing and per-school reconciliation

    A shallow embedding of [scripts/validateTranscriptCsv.mjs]: the range
    parser [parseType], the row classifier (the body of [rows.forEach]), the
    per-school gap/overlap sweep, and [reportAndExit].

    JavaScript strings are sequences of UTF-16 code units; they are modelled
    as [list N].  Numbers that occur in the script are small integers (years
    and line numbers), modelled as [Z]. *)

From Stdlib Require Import String Ascii DecimalString.
From Stdlib Require Import List ZArith NArith Bool Lia Sorted Permutation.
Import ListNotations.

Open Scope Z_scope.

(** ** Strings *)

Module JsString.

Definition jsstring : Type := list N.

(** String literal of the source: the code units of an ASCII literal. *)
Definition js (s : string) : jsstring :=
  List.map N_of_ascii (list_ascii_of_string s).

Fixpoint eqb (a b : jsstring) : bool :=
  match a, b with
  | [], [] => true
  | x :: a', y :: b' => N.eqb x y && eqb a' b'
  | _, _ => false
  end.

(** [WhiteSpace] and [LineTerminator] of ECMAScript: the code units that
    [String.prototype.trim] strips and that the class [\s] matches. *)
Definition isWhiteSpace (c : N) : bool :=
  ((9 <=? c) && (c <=? 13) ||
   (c =? 32) || (c =? 160) || (c =? 5760) ||
   (8192 <=? c) && (c <=? 8202) ||
   (c =? 8232) || (c =? 8233) || (c =? 8239) || (c =? 8287) ||
   (c =? 12288) || (c =? 65279))%N.

(** The class [\d]: ASCII digits only. *)
Definition isDigit (c : N) : bool := ((48 <=? c) && (c <=? 57))%N.

Fixpoint trimStart (s : jsstring) : jsstring :=
  match s with
  | c :: s' => if isWhiteSpace c then trimStart s' else s
  | [] => []
  end.

Definition trimEnd (s : jsstring) : jsstring := rev (trimStart (rev s)).

Definition trim (s : jsstring) : jsstring := trimEnd (trimStart s).

(** The [Canonicalize] step of a pattern compiled with the [i] flag (and
    without [u]): a code unit is upper-cased, except that a code unit >= 128
    is never mapped into ASCII.  Restricted to what decides a comparison
    against an ASCII pattern character, this is ASCII upper-casing. *)
Definition asciiUpper (c : N) : N :=
  if ((97 <=? c) && (c <=? 122))%N then (c - 32)%N else c.

(** Does input code unit [c] match pattern character [p] (ASCII) under [i]? *)
Definition ciEq (p c : N) : bool :=
  ((c <? 128) && (asciiUpper c =? asciiUpper p))%N.

(** Number-to-string conversion of a template literal, for integers. *)
Definition numToString (z : Z) : jsstring :=
  js (NilEmpty.string_of_int (Z.to_int z)).

(** [Number.parseInt(s, 10)]: skip leading white space, read an optional
    sign, then the longest prefix of decimal digits.  [None] stands for NaN
    (no digit read). *)
Fixpoint digitsPrefix (s : jsstring) (acc : option Z) : option Z :=
  match s with
  | c :: s' =>
      if isDigit c
      then digitsPrefix s'
             (Some (10 * match acc with Some a => a | None => 0 end
                    + (Z.of_N c - 48)))
      else acc
  | [] => acc
  end.

Definition parseInt10 (s : jsstring) : option Z :=
  match trimStart s with
  | 45%N :: r => option_map Z.opp (digitsPrefix r None)
  | 43%N :: r => digitsPrefix r None
  | r => digitsPrefix r None
  end.

End JsString.
Import JsString.

(** ** Regular expressions

    The fragment of the pattern language the script uses, with a
    backtracking matcher that tries alternatives in the order the
    ECMAScript semantics prescribes (left alternative first, longest
    repetition first). *)

Module Regex.

Inductive regex : Type :=
| Eps
| Cls (p : N -> bool)        (* one code unit of a class, or a literal *)
| Seq (r1 r2 : regex)
| Alt (r1 r2 : regex)
| Star (p : N -> bool)       (* greedy [c*] over a class *)
| Group (r : regex).         (* capturing parentheses *)

Definition Plus (p : N -> bool) : regex := Seq (Cls p) (Star p).

Fixpoint Lit (s : jsstring) : regex :=
  match s with
  | [] => Eps
  | c :: s' => Seq (Cls (ciEq c)) (Lit s')
  end.

Fixpoint Rep (n : nat) (p : N -> bool) : regex :=
  match n with
  | O => Eps
  | S n' => Seq (Cls p) (Rep n' p)
  end.

Section Matcher.
Context {A : Type}.

Fixpoint star (p : N -> bool) (s : jsstring)
         (k : jsstring -> option A) : option A :=
  match s with
  | c :: s' =>
      if p c
      then match star p s' k with
           | Some x => Some x
           | None => k s
           end
      else k s
  | [] => k []
  end.

(** [rmatch r s caps k]: match [r] at the front of [s]; on success hand
    the rest of the input and the captures so far to [k]; when [k]
    fails, backtrack. *)
Fixpoint rmatch (r : regex) (s : jsstring) (caps : list jsstring)
         (k : jsstring -> list jsstring -> option A) : option A :=
  match r with
  | Eps => k s caps
  | Cls p =>
      match s with
      | c :: s' => if p c then k s' caps else None
      | [] => None
      end
  | Seq r1 r2 => rmatch r1 s caps (fun s1 caps1 => rmatch r2 s1 caps1 k)
  | Alt r1 r2 =>
      match rmatch r1 s caps k with
      | Some x => Some x
      | None => rmatch r2 s caps k
      end
  | Star p => star p s (fun s1 => k s1 caps)
  | Group r1 =>
      rmatch r1 s caps
        (fun s1 caps1 =>
           k s1 (caps1 ++ [firstn (length s - length s1) s]))
  end.
End Matcher.

(** [s.match(/^r$/)]: without the [m] flag the anchors pin the match to the
    whole input.  The result array holds the whole match at index 0 and the
    captures after it. *)
Definition matchWhole (r : regex) (s : jsstring) : option (list jsstring) :=
  rmatch r s []
    (fun rest caps => match rest with [] => Some (s :: caps) | _ => None end).

(** [/r/.test(s)] for a pattern without anchors: a match may start at any
    index. *)
Fixpoint test (r : regex) (s : jsstring) : bool :=
  match rmatch r s [] (fun _ _ => Some tt) with
  | Some _ => true
  | None => match s with
            | [] => false
            | _ :: s' => test r s'
            end
  end.

End Regex.
Import Regex.

(** ** The range parser *)

Record YearRange : Type := mkRange { rstart : Z; rend : Z }.

(** [/^(\d{4})\s*-\s*(\d{4}|present)$/i] *)
Definition yearRangeRe : regex :=
  Seq (Group (Rep 4 isDigit))
  (Seq (Star isWhiteSpace)
  (Seq (Lit (js "-"))
  (Seq (Star isWhiteSpace)
       (Group (Alt (Rep 4 isDigit) (Lit (js "present"))))))).

(** [/present/i] *)
Definition presentRe : regex := Lit (js "present").

(** [/^In\s+School\s+Before\s+(\d{4})$/i] *)
Definition beforeRe : regex :=
  Seq (Lit (js "In"))
  (Seq (Plus isWhiteSpace)
  (Seq (Lit (js "School"))
  (Seq (Plus isWhiteSpace)
  (Seq (Lit (js "Before"))
  (Seq (Plus isWhiteSpace)
       (Group (Rep 4 isDigit))))))).

(** ** Data model *)

(** One element of [parsed.data]: an object keyed by the header names.  A
    column that is absent from a row reads as [undefined] ([None]). *)
Record Row : Type := mkRow {
  rowSchoolName : option jsstring;   (* row["School Name"] *)
  rowLink : option jsstring;         (* row["Link"] *)
  rowType : option jsstring          (* row["Type"] *)
}.

(** An element of a school's array in [rangesBySchool]. *)
Module RangeEntry.
Record t : Type := mk {
  line : Z; start : Z; end_ : Z; rawType : jsstring; link : jsstring
}.
End RangeEntry.

Module MissingSchoolName.
Record t : Type := mk { line : Z }.
End MissingSchoolName.

Module MissingLink.
Record t : Type := mk { line : Z; schoolName : jsstring; type : jsstring }.
End MissingLink.

Module MissingType.
Record t : Type := mk { line : Z; schoolName : jsstring }.
End MissingType.

Module InvalidType.
Record t : Type := mk { line : Z; schoolName : jsstring; type : jsstring }.
End InvalidType.

Module Gap.
Record t : Type := mk {
  schoolName : jsstring; fromYear : Z; toYear : Z; prevLine : Z; currLine : Z
}.
End Gap.

Module Overlap.
Record t : Type := mk {
  schoolName : jsstring; overlapStart : Z; overlapEnd : Z;
  prevLine : Z; currLine : Z
}.
End Overlap.

Record Issues : Type := mkIssues {
  missingSchoolName : list MissingSchoolName.t;
  missingLink : list MissingLink.t;
  missingType : list MissingType.t;
  invalidType : list InvalidType.t;
  gaps : list Gap.t;
  overlaps : list Overlap.t
}.

Definition noIssues : Issues := mkIssues [] [] [] [] [] [].

(** [rangesBySchool]: a [Map] iterates in the order its keys were first
    inserted, and that order fixes the order of the reported gaps and
    overlaps, so the map is an association list in insertion order. *)
Definition SchoolMap : Type := list (jsstring * list RangeEntry.t).

Fixpoint mapGet (m : SchoolMap) (key : jsstring) : option (list RangeEntry.t) :=
  match m with
  | [] => None
  | (k, v) :: m' => if JsString.eqb k key then Some v else mapGet m' key
  end.

(** [Map.prototype.set]: an existing key keeps its position. *)
Fixpoint mapSet (m : SchoolMap) (key : jsstring) (value : list RangeEntry.t)
  : SchoolMap :=
  match m with
  | [] => [(key, value)]
  | (k, v) :: m' =>
      if JsString.eqb k key then (k, value) :: m'
      else (k, v) :: mapSet m' key value
  end.

(** [String(x ?? "")] *)
Definition orEmpty (x : option jsstring) : jsstring :=
  match x with Some s => s | None => [] end.

(** Truthiness of a string: only the empty string is falsy. *)
Definition truthy (s : jsstring) : bool :=
  match s with [] => false | _ => true end.

(** The comparator [(a, b) => a.start - b.start || a.end - b.end]. *)
Definition compareRanges (a b : RangeEntry.t) : Z :=
  let d := RangeEntry.start a - RangeEntry.start b in
  if d =? 0 then RangeEntry.end_ a - RangeEntry.end_ b else d.

(** [Array.prototype.sort] is stable, and this comparator is a consistent
    one, so the result is determined: the stable sort of the array.  It is
    computed here by insertion, an element going in front of the first
    element it does not compare greater than. *)
Fixpoint insertRange (x : RangeEntry.t) (l : list RangeEntry.t)
  : list RangeEntry.t :=
  match l with
  | [] => [x]
  | y :: l' =>
      if compareRanges x y <=? 0 then x :: y :: l'
      else y :: insertRange x l'
  end.

Fixpoint sortRanges (l : list RangeEntry.t) : list RangeEntry.t :=
  match l with
  | [] => []
  | x :: l' => insertRange x (sortRanges l')
  end.

(** What the process wrote and how it ended. [exited = None]: the function
    returned without calling [process.exit]. *)
Record Report : Type := mkReport {
  stderr : list jsstring;
  stdout : list jsstring;
  exited : option Z
}.

Record ParseError : Type := mkParseError {
  errRow : option Z;
  errMessage : jsstring
}.

Definition nl : jsstring := [10%N].

Section Validator.
(** [const currentYear = new Date().getFullYear()], read once at start-up. *)
Variable currentYear : Z.

Definition parseType (rawType : jsstring) : option YearRange :=
  let trimmed := trim rawType in
  match matchWhole yearRangeRe trimmed with
  | Some yearRangeMatch =>
      let start := parseInt10 (nth 1 yearRangeMatch []) in
      let end_ :=
        if test presentRe (nth 2 yearRangeMatch [])
        then Some currentYear
        else parseInt10 (nth 2 yearRangeMatch []) in
      match start, end_ with
      | Some s, Some e =>
          if s <=? e then Some (mkRange s e) else None
      | _, _ => None
      end
  | None =>
      match matchWhole beforeRe trimmed with
      | Some beforeMatch =>
          match parseInt10 (nth 1 beforeMatch []) with
          | Some e => if 1900 <=? e then Some (mkRange 1900 e) else None
          | None => None
          end
      | None => None
      end
  end.


(** The callback of [rows.forEach((row, index) => ...)], on the pair of
    accumulators it mutates. *)
Definition classifyRow (index : nat) (row : Row)
           (acc : Issues * SchoolMap) : Issues * SchoolMap :=
  let (issues, rangesBySchool) := acc in
  let rowNumber := Z.of_nat index + 2 in
  let schoolName := trim (orEmpty (rowSchoolName row)) in
  let link := trim (orEmpty (rowLink row)) in
  let type := trim (orEmpty (rowType row)) in
  if negb (truthy schoolName) then
    (mkIssues
       (missingSchoolName issues ++ [MissingSchoolName.mk rowNumber])
       (missingLink issues) (missingType issues) (invalidType issues)
       (gaps issues) (overlaps issues),
     rangesBySchool)
  else
    let issues1 :=
      if negb (truthy link) then
        mkIssues (missingSchoolName issues)
          (missingLink issues ++ [MissingLink.mk rowNumber schoolName type])
          (missingType issues) (invalidType issues)
          (gaps issues) (overlaps issues)
      else issues in
    if negb (truthy type) then
      (mkIssues (missingSchoolName issues1) (missingLink issues1)
         (missingType issues1 ++ [MissingType.mk rowNumber schoolName])
         (invalidType issues1) (gaps issues1) (overlaps issues1),
       rangesBySchool)
    else
      match parseType type with
      | None =>
          (mkIssues (missingSchoolName issues1) (missingLink issues1)
             (missingType issues1)
             (invalidType issues1 ++ [InvalidType.mk rowNumber schoolName type])
             (gaps issues1) (overlaps issues1),
           rangesBySchool)
      | Some parsedType =>
          let existing :=
            match mapGet rangesBySchool schoolName with
            | Some e => e
            | None => []
            end in
          (issues1,
           mapSet rangesBySchool schoolName
             (existing ++
              [RangeEntry.mk rowNumber (rstart parsedType) (rend parsedType)
                 type link]))
      end.

Fixpoint forEachRow (rows : list Row) (index : nat)
         (acc : Issues * SchoolMap) : Issues * SchoolMap :=
  match rows with
  | [] => acc
  | row :: rest => forEachRow rest (S index) (classifyRow index row acc)
  end.

(** The body of the inner loop, for one adjacent pair. *)
Definition checkPair (schoolName : jsstring) (prev curr : RangeEntry.t)
           (issues : Issues) : Issues :=
  if RangeEntry.start curr >? RangeEntry.end_ prev + 1 then
    mkIssues (missingSchoolName issues) (missingLink issues)
      (missingType issues) (invalidType issues)
      (gaps issues ++
       [Gap.mk schoolName (RangeEntry.end_ prev + 1)
          (RangeEntry.start curr - 1)
          (RangeEntry.line prev) (RangeEntry.line curr)])
      (overlaps issues)
  else if RangeEntry.start curr <=? RangeEntry.end_ prev then
    mkIssues (missingSchoolName issues) (missingLink issues)
      (missingType issues) (invalidType issues)
      (gaps issues)
      (overlaps issues ++
       [Overlap.mk schoolName (RangeEntry.start curr)
          (Z.min (RangeEntry.end_ prev) (RangeEntry.end_ curr))
          (RangeEntry.line prev) (RangeEntry.line curr)])
  else issues.

(** [for (let i = 1; i < sorted.length; i += 1)] with [prev = sorted[i-1]]
    and [curr = sorted[i]]: [prev] is carried along, [rest] is what is left
    of [sorted] from index [i] on. *)
Fixpoint sweep (schoolName : jsstring) (prev : RangeEntry.t)
         (rest : list RangeEntry.t) (issues : Issues) : Issues :=
  match rest with
  | [] => issues
  | curr :: rest' =>
      sweep schoolName curr rest' (checkPair schoolName prev curr issues)
  end.

Definition sweepSchool (schoolName : jsstring) (sorted : list RangeEntry.t)
           (issues : Issues) : Issues :=
  match sorted with
  | [] => issues
  | first :: rest => sweep schoolName first rest issues
  end.

(** [for (const [schoolName, ranges] of rangesBySchool.entries())].
    [ranges.sort] sorts the array in place, so the map holds the sorted
    arrays afterwards; they are returned with the issues. *)
Fixpoint reconcile (entries : SchoolMap) (issues : Issues)
  : Issues * SchoolMap :=
  match entries with
  | [] => (issues, [])
  | (schoolName, ranges) :: rest =>
      let sorted := sortRanges ranges in
      let issues1 := sweepSchool schoolName sorted issues in
      let (issues2, rest') := reconcile rest issues1 in
      (issues2, (schoolName, sorted) :: rest')
  end.

Definition renderMissingSchoolName (item : MissingSchoolName.t) : jsstring :=
  js "  - line " ++ numToString (MissingSchoolName.line item).

Definition renderMissingLink (item : MissingLink.t) : jsstring :=
  js "  - line " ++ numToString (MissingLink.line item) ++ js ": " ++
  MissingLink.schoolName item ++ js " (" ++
  (if truthy (MissingLink.type item) then MissingLink.type item
   else js "no type") ++ js ")".

Definition renderMissingType (item : MissingType.t) : jsstring :=
  js "  - line " ++ numToString (MissingType.line item) ++ js ": " ++
  MissingType.schoolName item.

Definition renderInvalidType (item : InvalidType.t) : jsstring :=
  js "  - line " ++ numToString (InvalidType.line item) ++ js ": " ++
  InvalidType.schoolName item ++ js " (" ++ InvalidType.type item ++ js ")".

Definition renderGap (item : Gap.t) : jsstring :=
  js "  - " ++ Gap.schoolName item ++ js ": " ++
  numToString (Gap.fromYear item) ++ js "-" ++
  numToString (Gap.toYear item) ++ js " (between lines " ++
  numToString (Gap.prevLine item) ++ js " and " ++
  numToString (Gap.currLine item) ++ js ")".

Definition renderOverlap (item : Overlap.t) : jsstring :=
  js "  - " ++ Overlap.schoolName item ++ js ": " ++
  numToString (Overlap.overlapStart item) ++ js "-" ++
  numToString (Overlap.overlapEnd item) ++ js " (between lines " ++
  numToString (Overlap.prevLine item) ++ js " and " ++
  numToString (Overlap.currLine item) ++ js ")".

Definition hdrMissingSchoolName : jsstring := nl ++ js "Missing school name:".
Definition hdrMissingLink : jsstring := nl ++ js "Rows with missing links:".
Definition hdrMissingType : jsstring :=
  nl ++ js "Rows with missing year ranges (Type):".
Definition hdrInvalidType : jsstring :=
  nl ++ js "Rows with invalid year ranges:".
Definition hdrGaps : jsstring :=
  nl ++ js "Detected year gaps within the same school:".
Definition hdrOverlaps : jsstring :=
  nl ++ js "Detected overlapping year ranges within the same school:".

(** One [if (issues.X.length > 0) { ... }] block of [reportAndExit], on the
    pair ([hasIssues], lines written to [console.error] so far). *)
Definition reportCategory {T : Type} (items : list T) (header : jsstring)
           (render : T -> jsstring) (st : bool * list jsstring)
  : bool * list jsstring :=
  if (0 <? length items)%nat
  then (true, snd st ++ header :: List.map render items)
  else st.

Definition reportAndExit (issues : Issues) : Report :=
  let st := (false, []) in
  let st := reportCategory (missingSchoolName issues) hdrMissingSchoolName
              renderMissingSchoolName st in
  let st := reportCategory (missingLink issues) hdrMissingLink
              renderMissingLink st in
  let st := reportCategory (missingType issues) hdrMissingType
              renderMissingType st in
  let st := reportCategory (invalidType issues) hdrInvalidType
              renderInvalidType st in
  let st := reportCategory (gaps issues) hdrGaps renderGap st in
  let st := reportCategory (overlaps issues) hdrOverlaps renderOverlap st in
  let (hasIssues, err) := st in
  if hasIssues then mkReport err [] (Some 1)
  else
    mkReport err
      [js "CSV validation passed: no missing links, invalid ranges, gaps, or overlaps found."]
      None.

(** The accumulators after [rows.forEach]. *)
Definition classifyRows (rows : list Row) : Issues * SchoolMap :=
  forEachRow rows 0%nat (noIssues, []).

(** The issue set handed to [reportAndExit]. *)
Definition collectIssues (rows : list Row) : Issues :=
  let (issues, rangesBySchool) := classifyRows rows in
  fst (reconcile rangesBySchool issues).

(** [main], from the point where the CSV text has been fetched and given to
    [Papa.parse]: [errors] is [parsed.errors], [rows] is [parsed.data]. *)
Definition main (sourceLabel : jsstring) (errors : list ParseError)
           (rows : list Row) : Report :=
  if (0 <? length errors)%nat then
    mkReport
      (js "CSV parse errors detected:" ::
       List.map
         (fun err =>
            js "  - row " ++
            match errRow err with
            | Some n => numToString n
            | None => js "?"
            end ++ js ": " ++ errMessage err)
         errors)
      [] (Some 1)
  else if (length rows =? 0)%nat then
    mkReport [js "CSV appears empty or missing data rows."] [] (Some 1)
  else
    let r := reportAndExit (collectIssues rows) in
    mkReport (stderr r) ((js "Checked source: " ++ sourceLabel) :: stdout r)
      (exited r).

(** Exit status of the process: [process.exit(1)] was called, or [main]
    returned. *)
Definition exitStatus (r : Report) : Z :=
  match exited r with Some c => c | None => 0 end.

(** The overall-success flag: [hasIssues] stayed false. *)
Definition success (r : Report) : bool :=
  match exited r with Some _ => false | None => true end.

End Validator.

(** ** Vocabulary of the statements *)

(** [x] and [y] are neighbours in [l], [x] first: [x = l[i-1]] and
    [y = l[i]] for some index [i] of the loop. *)
Definition adjacent {T : Type} (l : list T) (x y : T) : Prop :=
  exists i : nat, nth_error l i = Some x /\ nth_error l (S i) = Some y.

(** The gap record and the overlap record of a pair, as the specification
    writes them. *)
Definition gapOf (schoolName : jsstring) (prev curr : RangeEntry.t) : Gap.t :=
  Gap.mk schoolName (RangeEntry.end_ prev + 1) (RangeEntry.start curr - 1)
    (RangeEntry.line prev) (RangeEntry.line curr).

Definition overlapOf (schoolName : jsstring) (prev curr : RangeEntry.t)
  : Overlap.t :=
  Overlap.mk schoolName (RangeEntry.start curr)
    (Z.min (RangeEntry.end_ prev) (RangeEntry.end_ curr))
    (RangeEntry.line prev) (RangeEntry.line curr).

(** [a] does not sort after [b]. *)
Definition leR (a b : RangeEntry.t) : Prop := compareRanges a b <= 0.

(** Every fact of the map is a well-ordered interval, the invariant of a
    [YearRange]. *)
Definition wellFormed (m : SchoolMap) : Prop :=
  forall schoolName ranges e,
    In (schoolName, ranges) m -> In e ranges ->
    RangeEntry.start e <= RangeEntry.end_ e.

(** The textual forms of a year range, as the specification describes
    them. *)

(** Only white space. *)
Definition allWhiteSpace (ws : jsstring) : Prop :=
  Forall (fun c => isWhiteSpace c = true) ws.

(** [s] is the ASCII word [w] up to letter case. *)
Definition sameIgnoringCase (w s : jsstring) : Prop :=
  List.map asciiUpper s = List.map asciiUpper w.

(** The number a four-digit year denotes. *)
Definition digitValue (c : N) : Z := Z.of_N c - 48.

Definition yearOf (c1 c2 c3 c4 : N) : Z :=
  1000 * digitValue c1 + 100 * digitValue c2 + 10 * digitValue c3 +
  digitValue c4.

Definition fourDigits (c1 c2 c3 c4 : N) : Prop :=
  isDigit c1 = true /\ isDigit c2 = true /\
  isDigit c3 = true /\ isDigit c4 = true.

(** The right end of a bounded range: a four-digit year, or the word
    "present", which stands for the current year. *)
Inductive rangeEnd (currentYear : Z) : jsstring -> Z -> Prop :=
| EndYear (c1 c2 c3 c4 : N) :
    fourDigits c1 c2 c3 c4 ->
    rangeEnd currentYear [c1; c2; c3; c4] (yearOf c1 c2 c3 c4)
| EndPresent (w : jsstring) :
    sameIgnoringCase (js "present") w ->
    rangeEnd currentYear w currentYear.

(** [t] is [Y1 - Y2]: a four-digit year, a hyphen with optional white space
    on either side, and a right end. *)
Definition boundedForm (currentYear : Z) (t : jsstring) (Y1 Y2 : Z) : Prop :=
  exists (c1 c2 c3 c4 : N) (ws1 ws2 tail : jsstring),
    fourDigits c1 c2 c3 c4 /\ Y1 = yearOf c1 c2 c3 c4 /\
    allWhiteSpace ws1 /\ allWhiteSpace ws2 /\
    rangeEnd currentYear tail Y2 /\
    t = [c1; c2; c3; c4] ++ ws1 ++ js "-" ++ ws2 ++ tail.

(** [t] is the words "In", "School", "Before" and a four-digit year [Y],
    in any letter case, each separated from the next by one or more
    white-space characters. *)
Definition beforeForm (t : jsstring) (Y : Z) : Prop :=
  exists (w1 w2 w3 s1 s2 s3 : jsstring) (c1 c2 c3 c4 : N),
    sameIgnoringCase (js "In") w1 /\
    sameIgnoringCase (js "School") w2 /\
    sameIgnoringCase (js "Before") w3 /\
    allWhiteSpace s1 /\ s1 <> [] /\
    allWhiteSpace s2 /\ s2 <> [] /\
    allWhiteSpace s3 /\ s3 <> [] /\
    fourDigits c1 c2 c3 c4 /\ Y = yearOf c1 c2 c3 c4 /\
    t = w1 ++ s1 ++ w2 ++ s2 ++ w3 ++ s3 ++ [c1; c2; c3; c4].

(** [t] is the phrase "In School Before YYYY" with exactly one space
    between the words, in any letter case. *)
Definition singleSpacePhrase (t : jsstring) : bool :=
  JsString.eqb (List.map asciiUpper (firstn 17 t))
               (List.map asciiUpper (js "In School Before ")) &&
  forallb isDigit (skipn 17 t) && (length (skipn 17 t) =? 4)%nat.

(** The next code unit, if any, is outside the class [p]. *)
Definition headNot (p : N -> bool) (s : jsstring) : Prop :=
  match s with [] => True | c :: _ => p c = false end.

(** ** Sample data *)

Definition lincolnGapRows : list Row :=
  [mkRow (Some (js "Lincoln")) (Some (js "https://a")) (Some (js "2000-2005"));
   mkRow (Some (js "Lincoln")) (Some (js "https://b")) (Some (js "2007-2010"))].

Definition lincolnOverlapRows : list Row :=
  [mkRow (Some (js "Lincoln")) (Some (js "https://a")) (Some (js "2000-2006"));
   mkRow (Some (js "Lincoln")) (Some (js "https://b")) (Some (js "2005-2010"))].

(** The line [,https://a,2000-2005]: no school name. *)
Definition blankNameRow : Row :=
  mkRow (Some (js "")) (Some (js "https://a")) (Some (js "2000-2005")).

Definition lincolnGapMap : SchoolMap :=
  [(js "Lincoln",
    [RangeEntry.mk 3 2007 2010 (js "2007-2010") (js "https://b");
     RangeEntry.mk 2 2000 2005 (js "2000-2005") (js "https://a")])].

Definition lincolnOverlapMap : SchoolMap :=
  [(js "Lincoln",
    [RangeEntry.mk 2 2000 2006 (js "2000-2006") (js "https://a");
     RangeEntry.mk 3 2005 2010 (js "2005-2010") (js "https://b")])].

(** ** Loading the table

    [loadCsvText] and the last lines of the script.  The awaited calls are
    taken by their outcomes. *)

(** [GOOGLE_SHEET_CSV_URL] *)
Definition GOOGLE_SHEET_CSV_URL : jsstring :=
  js "https://docs.google.com/spreadsheets/d/e/2PACX-1vQTZ5SnVlSKEzmdrP89pURZJJsm_s3y3vjr8cy3t-eR12UxiZt5pkiz8QCEoYc6mWZJtoXkyJs-vXqN/pub?output=csv".

(** How [await fetch(GOOGLE_SHEET_CSV_URL)] and [await response.text()]
    went. *)
Inductive Fetched : Type :=
| FetchRejected (message : jsstring)          (* [fetch] threw or rejected *)
| NotOk (status : Z) (statusText : jsstring)  (* [response.ok] is false *)
| TextRejected (message : jsstring)           (* [response.text()] rejected *)
| Body (text : jsstring).                     (* the text of an ok response *)

(** How [fs.readFileSync(LOCAL_CSV_PATH, "utf8")] went, if it is called. *)
Inductive LocalFile : Type :=
| Unreadable (message : jsstring)
| Contents (text : jsstring).

(** [.replace(/^\uFEFF/, ...)] with the empty string: one leading byte-order
    mark is dropped. *)
Definition stripBom (s : jsstring) : jsstring :=
  match s with
  | 65279%N :: s' => s'
  | _ => s
  end.

Record Loaded : Type := mkLoaded { sourceLabel : jsstring; text : jsstring }.

Section Loader.
(** [LOCAL_CSV_PATH = path.resolve("public/schools_and_links.csv")] depends
    on the working directory. *)
Variable LOCAL_CSV_PATH : jsstring.

(** The [catch] block: it reads the local file before it warns, so a read
    that throws leaves no warning. *)
Definition fallBack (message : jsstring) (local : LocalFile)
  : list jsstring * (Loaded + jsstring) :=
  match local with
  | Unreadable m => ([], inr m)
  | Contents localText =>
      ([js "Warning: Could not fetch Google Sheet CSV (" ++ message ++
        js "). Falling back to local file: " ++ LOCAL_CSV_PATH],
       inl (mkLoaded LOCAL_CSV_PATH (stripBom localText)))
  end.

(** [loadCsvText]: the lines written by [console.warn], and the object
    returned or the message of the error thrown. *)
Definition loadCsvText (fetched : Fetched) (local : LocalFile)
  : list jsstring * (Loaded + jsstring) :=
  match fetched with
  | FetchRejected m => fallBack m local
  | NotOk status statusText =>
      fallBack (js "Failed to fetch CSV (" ++ numToString status ++ js " " ++
                statusText ++ js ")") local
  | TextRejected m => fallBack m local
  | Body t => ([], inl (mkLoaded GOOGLE_SHEET_CSV_URL (stripBom t)))
  end.

(** The whole script, [main().catch(...)]: [papaParse] stands for
    [Papa.parse(text, {header: true, skipEmptyLines: true})], giving
    [parsed.errors] and [parsed.data].  [console.warn] and [console.error]
    both write to the standard error stream. *)
Variable currentYear : Z.
Variable papaParse : jsstring -> list ParseError * list Row.

Definition script (fetched : Fetched) (local : LocalFile) : Report :=
  match loadCsvText fetched local with
  | (warnings, inr message) =>
      mkReport (warnings ++ [js "Failed to validate CSV: " ++ message])
        [] (Some 1)
  | (warnings, inl loaded) =>
      let (errors, rows) := papaParse (text loaded) in
      let r := main currentYear (sourceLabel loaded) errors rows in
      mkReport (warnings ++ stderr r) (stdout r) (exited r)
  end.
End Loader.

(** ** The range test of the lookup form

    [graduationInRange] of the [TranscriptLinkFinder] component. *)

(** [type.match(/\d{4}/g)]: the runs of four digits, found left to right,
    each search resuming after the last match. *)
Fixpoint matchAllYears (s : jsstring) : list jsstring :=
  match s with
  | [] => []
  | c1 :: t =>
      match t with
      | c2 :: c3 :: c4 :: rest =>
          if isDigit c1 && isDigit c2 && isDigit c3 && isDigit c4
          then [c1; c2; c3; c4] :: matchAllYears rest
          else matchAllYears t
      | _ => []
      end
  end.

Fixpoint startsWith (w s : jsstring) : bool :=
  match w, s with
  | [], _ => true
  | p :: w', c :: s' => N.eqb p c && startsWith w' s'
  | _ :: _, [] => false
  end.

(** [String.prototype.includes] *)
Fixpoint includes (w s : jsstring) : bool :=
  startsWith w s ||
  match s with
  | [] => false
  | _ :: s' => includes w s'
  end.

Section Lookup.
(** [new Date().getFullYear()], read at each call. *)
Variable currentYear : Z.

(** [year] is a number that may be NaN ([None]).  [parseInt] is called
    without a radix, on a run of decimal digits or on ["0"], which it reads
    in base 10. *)
Definition graduationInRange (type : jsstring) (year : option Z) : bool :=
  let startYear := parseInt10 (nth 0 (matchAllYears type) (js "0")) in
  let endYear :=
    if includes (js "present") type
    then Some currentYear
    else parseInt10 (nth 1 (matchAllYears type) (js "0")) in
  match startYear, endYear with
  | Some s, Some e =>
      if s >? e then false
      else match year with
           | Some y => (y >=? s) && (y <=? e)
           | None => false
           end
  | _, _ => false
  end.
End Lookup.

(** No upper-case ASCII letter. *)
Definition noUpperCase (s : jsstring) : Prop :=
  Forall (fun c => (c < 65 \/ 90 < c)%N) s.

(** ** Vocabulary of the further properties *)

(** The three fields of a row as the callback reads them. *)
Definition nameOf (row : Row) : jsstring := trim (orEmpty (rowSchoolName row)).
Definition linkOf (row : Row) : jsstring := trim (orEmpty (rowLink row)).
Definition typeOf (row : Row) : jsstring := trim (orEmpty (rowType row)).

(** The schools of the map, in iteration order. *)
Definition keys (m : SchoolMap) : list jsstring := List.map fst m.

(** All facts of the map, school after school. *)
Definition allFacts (m : SchoolMap) : list RangeEntry.t :=
  flat_map snd m.

(** [e] is one of the facts held under [schoolName]. *)
Definition hasFact (m : SchoolMap) (schoolName : jsstring)
           (e : RangeEntry.t) : Prop :=
  exists ranges, In (schoolName, ranges) m /\ In e ranges.

(** Year [y] lies in the range of fact [e]. *)
Definition covers (e : RangeEntry.t) (y : Z) : Prop :=
  RangeEntry.start e <= y <= RangeEntry.end_ e.

(** Strictly increasing. *)
Definition increasing (l : list Z) : Prop := StronglySorted Z.lt l.

(** Neither the first nor the last code unit is white space. *)
Definition trimmed (s : jsstring) : Prop :=
  headNot isWhiteSpace s /\ headNot isWhiteSpace (rev s).

(** Two facts with the same [(start, end)]: the comparator returns 0. *)
Definition sameKey (a b : RangeEntry.t) : bool :=
  compareRanges a b =? 0.

(** Further sample data. *)

Definition tiledRows : list Row :=
  [mkRow (Some (js "Lincoln")) (Some (js "https://b")) (Some (js "2006-2010"));
   mkRow (Some (js "Lincoln")) (Some (js "https://a")) (Some (js "2000-2005"))].

Definition tiledMap : SchoolMap :=
  [(js "Lincoln",
    [RangeEntry.mk 2 2006 2010 (js "2006-2010") (js "https://b");
     RangeEntry.mk 3 2000 2005 (js "2000-2005") (js "https://a")])].

(** A long range that contains two short ones. *)
Definition nestedMap : SchoolMap :=
  [(js "Lincoln",
    [RangeEntry.mk 2 1990 2010 (js "1990-2010") (js "https://a");
     RangeEntry.mk 3 1995 1996 (js "1995-1996") (js "https://b");
     RangeEntry.mk 4 2000 2001 (js "2000-2001") (js "https://c")])].

(** ** The sorted order of the specification *)

(** [a] comes no later than [b] in the order "by start year, then end
    year": an earlier start, or the same start and an end that is no
    later. *)
Definition startThenEnd (a b : RangeEntry.t) : Prop :=
  RangeEntry.start a < RangeEntry.start b \/
  (RangeEntry.start a = RangeEntry.start b /\
   RangeEntry.end_ a <= RangeEntry.end_ b).

(** The same start year and the same end year. *)
Definition sameSpan (a b : RangeEntry.t) : bool :=
  (RangeEntry.start a =? RangeEntry.start b) &&
  (RangeEntry.end_ a =? RangeEntry.end_ b).

(** [sorted] is the fact list [ranges] sorted ascending by start year, then
    end year: it holds the same facts, each fact is followed by one that
    comes no earlier, and facts with the same start and end stand in the
    order they had in [ranges] (the sort of the language is stable). *)
Definition sortedAscending (ranges sorted : list RangeEntry.t) : Prop :=
  Permutation ranges sorted /\
  Sorted startThenEnd sorted /\
  (forall a, filter (sameSpan a) sorted = filter (sameSpan a) ranges).

(** Two overlapping facts, the later one first in the file. *)
Definition lateFirstOverlapMap : SchoolMap :=
  [(js "Lincoln",
    [RangeEntry.mk 2 2005 2010 (js "2005-2010") (js "https://b");
     RangeEntry.mk 3 2000 2006 (js "2000-2006") (js "https://a")])].

(** ** The sort *)

Module SortFacts.

Lemma compareRanges_total a b : compareRanges a b > 0 -> leR b a.
Proof.
  unfold leR, compareRanges; cbv zeta.
  destruct (Z.eqb_spec (RangeEntry.start a - RangeEntry.start b) 0);
    destruct (Z.eqb_spec (RangeEntry.start b - RangeEntry.start a) 0); lia.
Qed.

Lemma compareRanges_le a b :
  leR a b <->
  RangeEntry.start a < RangeEntry.start b \/
  (RangeEntry.start a = RangeEntry.start b /\
   RangeEntry.end_ a <= RangeEntry.end_ b).
Proof.
  unfold leR, compareRanges; cbv zeta.
  destruct (Z.eqb_spec (RangeEntry.start a - RangeEntry.start b) 0); lia.
Qed.

Lemma insertRange_In x y l : In y (insertRange x l) <-> y = x \/ In y l.
Proof.
  induction l as [|z l IH]; simpl.
  - intuition auto.
  - destruct (compareRanges x z <=? 0); simpl; rewrite ?IH; intuition auto.
Qed.

Lemma sortRanges_In y l : In y (sortRanges l) <-> In y l.
Proof.
  induction l as [|x l IH]; simpl; [reflexivity|].
  rewrite insertRange_In, IH. intuition auto.
Qed.

Lemma insertRange_perm x l : Permutation (x :: l) (insertRange x l).
Proof.
  induction l as [|y l IH]; simpl; [apply Permutation_refl|].
  destruct (compareRanges x y <=? 0); [apply Permutation_refl|].
  eapply perm_trans; [apply perm_swap|]. now apply perm_skip.
Qed.

Lemma sortRanges_perm l : Permutation l (sortRanges l).
Proof.
  induction l as [|x l IH]; simpl; [constructor|].
  eapply perm_trans; [apply perm_skip, IH|]. apply insertRange_perm.
Qed.

Lemma insertRange_sorted x l : Sorted leR l -> Sorted leR (insertRange x l).
Proof.
  induction 1 as [|y l Hs IH Hhd]; simpl.
  - repeat constructor.
  - destruct (Z.leb_spec (compareRanges x y) 0) as [Hle|Hgt].
    + constructor; [constructor; assumption|]. constructor. exact Hle.
    + constructor; [exact IH|].
      assert (Hyx : leR y x) by (apply compareRanges_total; lia).
      destruct l as [|z l]; simpl.
      * constructor. exact Hyx.
      * destruct (compareRanges x z <=? 0); constructor; [exact Hyx|].
        now inversion Hhd.
Qed.

(** The sorted array is ascending by [(start, end)]. *)
Lemma sortRanges_sorted l : Sorted leR (sortRanges l).
Proof.
  induction l as [|x l IH]; simpl; [constructor|].
  now apply insertRange_sorted.
Qed.

Lemma insertRange_head x l : Sorted leR (x :: l) -> insertRange x l = x :: l.
Proof.
  intros H. destruct l as [|y l]; [reflexivity|]. simpl.
  inversion H as [|? ? _ Hhd]; subst. inversion Hhd; subst.
  destruct (Z.leb_spec (compareRanges x y) 0); [reflexivity|].
  unfold leR in *; lia.
Qed.

Lemma sortRanges_fixed l : Sorted leR l -> sortRanges l = l.
Proof.
  induction 1 as [|x l Hs IH Hhd]; simpl; [reflexivity|].
  rewrite IH. apply insertRange_head. now constructor.
Qed.

(** Sorting an array that is already sorted leaves it as it is. *)
Lemma sortRanges_idem l : sortRanges (sortRanges l) = sortRanges l.
Proof. apply sortRanges_fixed, sortRanges_sorted. Qed.

Lemma leR_trans a b c : leR a b -> leR b c -> leR a c.
Proof. rewrite !compareRanges_le. lia. Qed.

Lemma sameKey_spec a b :
  sameKey a b = true <->
  RangeEntry.start a = RangeEntry.start b /\
  RangeEntry.end_ a = RangeEntry.end_ b.
Proof.
  unfold sameKey, compareRanges; cbv zeta. rewrite Z.eqb_eq.
  destruct (Z.eqb_spec (RangeEntry.start a - RangeEntry.start b) 0); lia.
Qed.

(** Facts that compare equal keep their order. *)
Lemma insertRange_stable a x l :
  filter (sameKey a) (insertRange x l) = filter (sameKey a) (x :: l).
Proof.
  induction l as [|y l IH]; [reflexivity|]. cbn [insertRange].
  destruct (Z.leb_spec (compareRanges x y) 0) as [Hle|Hgt]; [reflexivity|].
  cbn [filter] in *. rewrite IH.
  destruct (sameKey a x) eqn:Ex; [|reflexivity].
  destruct (sameKey a y) eqn:Ey; [|reflexivity].
  apply sameKey_spec in Ex. apply sameKey_spec in Ey.
  assert (leR x y) by (apply compareRanges_le; lia).
  unfold leR in *. lia.
Qed.

Lemma sortRanges_stable a l :
  filter (sameKey a) (sortRanges l) = filter (sameKey a) l.
Proof.
  induction l as [|x l IH]; [reflexivity|]. cbn [sortRanges].
  rewrite insertRange_stable. cbn [filter]. now rewrite IH.
Qed.

End SortFacts.

(** ** The per-school sweep *)

Module ReconcileFacts.
Import SortFacts.

Lemma adjacent_cons {T : Type} (p c : T) (rest : list T) (x y : T) :
  adjacent (p :: c :: rest) x y <->
  (x = p /\ y = c) \/ adjacent (c :: rest) x y.
Proof.
  unfold adjacent. split.
  - intros [[|i] [H1 H2]]; simpl in *.
    + left. split; congruence.
    + right. exists i. auto.
  - intros [[-> ->]|[i [H1 H2]]].
    + exists 0%nat. auto.
    + exists (S i). auto.
Qed.

Lemma adjacent_single {T : Type} (p x y : T) : ~ adjacent [p] x y.
Proof. intros [[|[|i]] [_ H]]; discriminate. Qed.

Lemma checkPair_gaps n p c a :
  gaps (checkPair n p c a) =
  gaps a ++
  (if RangeEntry.start c >? RangeEntry.end_ p + 1 then [gapOf n p c] else []).
Proof.
  unfold checkPair, gapOf.
  destruct (RangeEntry.start c >? RangeEntry.end_ p + 1); simpl;
    [reflexivity|].
  destruct (RangeEntry.start c <=? RangeEntry.end_ p); simpl;
    now rewrite app_nil_r.
Qed.

Lemma checkPair_overlaps n p c a :
  overlaps (checkPair n p c a) =
  overlaps a ++
  (if RangeEntry.start c <=? RangeEntry.end_ p then [overlapOf n p c] else []).
Proof.
  unfold checkPair, overlapOf.
  destruct (Z.gtb_spec (RangeEntry.start c) (RangeEntry.end_ p + 1));
    destruct (Z.leb_spec (RangeEntry.start c) (RangeEntry.end_ p)); simpl;
    rewrite ?app_nil_r; try reflexivity; lia.
Qed.

Lemma checkPair_others n p c a :
  missingSchoolName (checkPair n p c a) = missingSchoolName a /\
  missingLink (checkPair n p c a) = missingLink a /\
  missingType (checkPair n p c a) = missingType a /\
  invalidType (checkPair n p c a) = invalidType a.
Proof.
  unfold checkPair.
  destruct (RangeEntry.start c >? RangeEntry.end_ p + 1); simpl; auto.
  destruct (RangeEntry.start c <=? RangeEntry.end_ p); simpl; auto.
Qed.

Lemma sweep_gaps_In n rest : forall p a g,
  In g (gaps (sweep n p rest a)) <->
  In g (gaps a) \/
  exists prev curr,
    adjacent (p :: rest) prev curr /\
    RangeEntry.start curr > RangeEntry.end_ prev + 1 /\
    g = gapOf n prev curr.
Proof.
  induction rest as [|c rest IH]; intros p a g; simpl.
  - split; [auto|]. intros [H|(prev & curr & H & _)]; [exact H|].
    now apply adjacent_single in H.
  - rewrite IH, checkPair_gaps, in_app_iff. split.
    + intros [[H|H]|(prev & curr & Hadj & Hgt & ->)].
      * auto.
      * right. exists p, c.
        destruct (Z.gtb_spec (RangeEntry.start c) (RangeEntry.end_ p + 1));
          simpl in H; [|tauto].
        destruct H as [<-|[]]. repeat split; [|lia].
        apply adjacent_cons. auto.
      * right. exists prev, curr. repeat split; [|exact Hgt].
        apply adjacent_cons. auto.
    + intros [H|(prev & curr & Hadj & Hgt & ->)]; [auto|].
      apply adjacent_cons in Hadj. destruct Hadj as [[-> ->]|Hadj].
      * left. right.
        destruct (Z.gtb_spec (RangeEntry.start c) (RangeEntry.end_ p + 1));
          simpl; [auto|lia].
      * right. exists prev, curr. auto.
Qed.

Lemma sweep_overlaps_In n rest : forall p a o,
  In o (overlaps (sweep n p rest a)) <->
  In o (overlaps a) \/
  exists prev curr,
    adjacent (p :: rest) prev curr /\
    RangeEntry.start curr <= RangeEntry.end_ prev /\
    o = overlapOf n prev curr.
Proof.
  induction rest as [|c rest IH]; intros p a o; simpl.
  - split; [auto|]. intros [H|(prev & curr & H & _)]; [exact H|].
    now apply adjacent_single in H.
  - rewrite IH, checkPair_overlaps, in_app_iff. split.
    + intros [[H|H]|(prev & curr & Hadj & Hle & ->)].
      * auto.
      * right. exists p, c.
        destruct (Z.leb_spec (RangeEntry.start c) (RangeEntry.end_ p));
          simpl in H; [|tauto].
        destruct H as [<-|[]]. repeat split; [|lia].
        apply adjacent_cons. auto.
      * right. exists prev, curr. repeat split; [|exact Hle].
        apply adjacent_cons. auto.
    + intros [H|(prev & curr & Hadj & Hle & ->)]; [auto|].
      apply adjacent_cons in Hadj. destruct Hadj as [[-> ->]|Hadj].
      * left. right.
        destruct (Z.leb_spec (RangeEntry.start c) (RangeEntry.end_ p));
          simpl; [auto|lia].
      * right. exists prev, curr. auto.
Qed.

Lemma adjacent_nil {T : Type} (x y : T) : ~ adjacent [] x y.
Proof. intros [[|i] [H _]]; discriminate. Qed.

Lemma sweepSchool_gaps_In n sorted a g :
  In g (gaps (sweepSchool n sorted a)) <->
  In g (gaps a) \/
  exists prev curr,
    adjacent sorted prev curr /\
    RangeEntry.start curr > RangeEntry.end_ prev + 1 /\
    g = gapOf n prev curr.
Proof.
  destruct sorted as [|p rest]; simpl; [|apply sweep_gaps_In].
  split; [auto|]. intros [H|(prev & curr & H & _)]; [exact H|].
  now apply adjacent_nil in H.
Qed.

Lemma sweepSchool_overlaps_In n sorted a o :
  In o (overlaps (sweepSchool n sorted a)) <->
  In o (overlaps a) \/
  exists prev curr,
    adjacent sorted prev curr /\
    RangeEntry.start curr <= RangeEntry.end_ prev /\
    o = overlapOf n prev curr.
Proof.
  destruct sorted as [|p rest]; simpl; [|apply sweep_overlaps_In].
  split; [auto|]. intros [H|(prev & curr & H & _)]; [exact H|].
  now apply adjacent_nil in H.
Qed.

(** The gaps of a run: those present at the start, and one for each
    adjacent pair of some school's sorted array that leaves a hole. *)
Lemma reconcile_gaps_In m : forall a g,
  In g (gaps (fst (reconcile m a))) <->
  In g (gaps a) \/
  exists n ranges prev curr,
    In (n, ranges) m /\
    adjacent (sortRanges ranges) prev curr /\
    RangeEntry.start curr > RangeEntry.end_ prev + 1 /\
    g = gapOf n prev curr.
Proof.
  induction m as [|[n ranges] m IH]; intros a g; simpl.
  - split; [auto|]. intros [H|(? & ? & ? & ? & [] & _)]. exact H.
  - specialize (IH (sweepSchool n (sortRanges ranges) a) g).
    destruct (reconcile m (sweepSchool n (sortRanges ranges) a))
      as [issues2 rest'] eqn:E. simpl in *.
    rewrite IH, sweepSchool_gaps_In. split.
    + intros [[H|(prev & curr & H1 & H2 & H3)]
             |(n' & r' & prev & curr & H0 & H1 & H2 & H3)].
      * auto.
      * right. exists n, ranges, prev, curr. auto.
      * right. exists n', r', prev, curr. auto.
    + intros [H|(n' & r' & prev & curr & [H0|H0] & H1 & H2 & H3)].
      * auto.
      * inversion H0; subst n' r'. left. right. exists prev, curr. auto.
      * right. exists n', r', prev, curr. auto.
Qed.

Lemma reconcile_overlaps_In m : forall a o,
  In o (overlaps (fst (reconcile m a))) <->
  In o (overlaps a) \/
  exists n ranges prev curr,
    In (n, ranges) m /\
    adjacent (sortRanges ranges) prev curr /\
    RangeEntry.start curr <= RangeEntry.end_ prev /\
    o = overlapOf n prev curr.
Proof.
  induction m as [|[n ranges] m IH]; intros a o; simpl.
  - split; [auto|]. intros [H|(? & ? & ? & ? & [] & _)]. exact H.
  - specialize (IH (sweepSchool n (sortRanges ranges) a) o).
    destruct (reconcile m (sweepSchool n (sortRanges ranges) a))
      as [issues2 rest'] eqn:E. simpl in *.
    rewrite IH, sweepSchool_overlaps_In. split.
    + intros [[H|(prev & curr & H1 & H2 & H3)]
             |(n' & r' & prev & curr & H0 & H1 & H2 & H3)].
      * auto.
      * right. exists n, ranges, prev, curr. auto.
      * right. exists n', r', prev, curr. auto.
    + intros [H|(n' & r' & prev & curr & [H0|H0] & H1 & H2 & H3)].
      * auto.
      * inversion H0; subst n' r'. left. right. exists prev, curr. auto.
      * right. exists n', r', prev, curr. auto.
Qed.

Lemma adjacent_In {T : Type} (l : list T) (x y : T) :
  adjacent l x y -> In x l /\ In y l.
Proof. intros [i [H1 H2]]. split; eapply nth_error_In; eassumption. Qed.


Lemma sweep_gaps_frame n rest : forall p a,
  gaps (sweep n p rest a) = gaps a ++ gaps (sweep n p rest noIssues).
Proof.
  induction rest as [|c rest IH]; intros p a; simpl.
  - now rewrite app_nil_r.
  - rewrite IH, (IH c (checkPair n p c noIssues)), !checkPair_gaps.
    simpl. now rewrite app_assoc.
Qed.

Lemma sweep_overlaps_frame n rest : forall p a,
  overlaps (sweep n p rest a) =
  overlaps a ++ overlaps (sweep n p rest noIssues).
Proof.
  induction rest as [|c rest IH]; intros p a; simpl.
  - now rewrite app_nil_r.
  - rewrite IH, (IH c (checkPair n p c noIssues)), !checkPair_overlaps.
    simpl. now rewrite app_assoc.
Qed.

Lemma sweepSchool_frame n sorted a :
  gaps (sweepSchool n sorted a) =
    gaps a ++ gaps (sweepSchool n sorted noIssues) /\
  overlaps (sweepSchool n sorted a) =
    overlaps a ++ overlaps (sweepSchool n sorted noIssues).
Proof.
  destruct sorted as [|p rest]; simpl.
  - now rewrite !app_nil_r.
  - split; [apply sweep_gaps_frame|apply sweep_overlaps_frame].
Qed.

(** What a run appends to [gaps] and [overlaps] depends on the map only. *)
Lemma reconcile_frame m : forall a,
  gaps (fst (reconcile m a)) = gaps a ++ gaps (fst (reconcile m noIssues)) /\
  overlaps (fst (reconcile m a)) =
    overlaps a ++ overlaps (fst (reconcile m noIssues)).
Proof.
  induction m as [|[n ranges] m IH]; intros a; simpl.
  - now rewrite !app_nil_r.
  - pose proof (IH (sweepSchool n (sortRanges ranges) a)) as [Hg Ho].
    pose proof (IH (sweepSchool n (sortRanges ranges) noIssues)) as [Hg' Ho'].
    destruct (reconcile m (sweepSchool n (sortRanges ranges) a)) as [i2 r2].
    destruct (reconcile m (sweepSchool n (sortRanges ranges) noIssues))
      as [i2' r2'].
    simpl in *.
    destruct (sweepSchool_frame n (sortRanges ranges) a) as [Sg So].
    rewrite Hg, Ho, Hg', Ho', Sg, So, <- !app_assoc. auto.
Qed.

(** The map after a run: every array sorted in place. *)
Lemma reconcile_snd m : forall a,
  snd (reconcile m a) =
  List.map (fun e => (fst e, sortRanges (snd e))) m.
Proof.
  induction m as [|[n ranges] m IH]; intros a; simpl; [reflexivity|].
  specialize (IH (sweepSchool n (sortRanges ranges) a)).
  destruct (reconcile m (sweepSchool n (sortRanges ranges) a)). simpl in *.
  now rewrite IH.
Qed.

Lemma reconcile_sorted_map m : forall a,
  fst (reconcile (List.map (fun e => (fst e, sortRanges (snd e))) m) a) =
  fst (reconcile m a).
Proof.
  induction m as [|[n ranges] m IH]; intros a; simpl; [reflexivity|].
  rewrite sortRanges_idem.
  specialize (IH (sweepSchool n (sortRanges ranges) a)).
  destruct (reconcile m (sweepSchool n (sortRanges ranges) a)).
  destruct (reconcile (List.map _ m) (sweepSchool n (sortRanges ranges) a)).
  simpl in *. exact IH.
Qed.

Lemma adjacent_leR l p c :
  Sorted leR l -> adjacent l p c -> leR p c.
Proof.
  induction 1 as [|x l Hs IH Hhd]; intros Hadj.
  - now apply adjacent_nil in Hadj.
  - destruct l as [|y l]; [now apply adjacent_single in Hadj|].
    apply adjacent_cons in Hadj. destruct Hadj as [[-> ->]|Hadj].
    + now inversion Hhd.
    + now apply IH.
Qed.

End ReconcileFacts.

(** ** The array the sweep reads is the sorted fact list *)

Module OrderFacts.
Import SortFacts ReconcileFacts.

(** The comparator of the script orders by start year, then end year. *)
Lemma startThenEnd_leR a b : startThenEnd a b <-> leR a b.
Proof. symmetry. apply compareRanges_le. Qed.

Lemma startThenEnd_trans a b c :
  startThenEnd a b -> startThenEnd b c -> startThenEnd a c.
Proof. unfold startThenEnd. lia. Qed.

Lemma sameSpan_spec a b :
  sameSpan a b = true <->
  RangeEntry.start a = RangeEntry.start b /\
  RangeEntry.end_ a = RangeEntry.end_ b.
Proof. unfold sameSpan. now rewrite andb_true_iff, !Z.eqb_eq. Qed.

Lemma sameSpan_refl a : sameSpan a a = true.
Proof. apply sameSpan_spec. split; reflexivity. Qed.

(** The comparator returns 0 exactly on facts with the same start and
    end. *)
Lemma sameSpan_sameKey a b : sameSpan a b = sameKey a b.
Proof.
  apply eq_true_iff_eq. now rewrite sameSpan_spec, sameKey_spec.
Qed.

Lemma filter_sameSpan a l : filter (sameSpan a) l = filter (sameKey a) l.
Proof. apply filter_ext. intros b. apply sameSpan_sameKey. Qed.

Lemma Sorted_startThenEnd l : Sorted leR l -> Sorted startThenEnd l.
Proof.
  induction 1 as [|x l Hs IH Hhd]; constructor; [exact IH|].
  destruct Hhd; constructor. now apply startThenEnd_leR.
Qed.

Lemma sortRanges_sortedAscending l : sortedAscending l (sortRanges l).
Proof.
  split; [apply sortRanges_perm|]. split.
  - apply Sorted_startThenEnd, sortRanges_sorted.
  - intros a. rewrite !filter_sameSpan. apply sortRanges_stable.
Qed.

(** Two ascending lists that agree on every class of equal facts start
    with the same fact. *)
Lemma ascending_head x s1 y s2 :
  Sorted startThenEnd (x :: s1) -> Sorted startThenEnd (y :: s2) ->
  (forall a, filter (sameSpan a) (x :: s1) = filter (sameSpan a) (y :: s2)) ->
  x = y.
Proof.
  intros H1 H2 E.
  assert (T : forall a b c,
             startThenEnd a b -> startThenEnd b c -> startThenEnd a c)
    by exact startThenEnd_trans.
  apply (Sorted_StronglySorted T) in H1.
  apply (Sorted_StronglySorted T) in H2.
  inversion H1 as [|? ? _ A1]; subst. inversion H2 as [|? ? _ A2]; subst.
  rewrite Forall_forall in A1, A2.
  assert (Hy : In y (x :: s1)).
  { apply (proj1 (filter_In (sameSpan y) y (x :: s1))).
    rewrite (E y). cbn [filter]. rewrite sameSpan_refl. now left. }
  assert (Hx : In x (y :: s2)).
  { apply (proj1 (filter_In (sameSpan x) x (y :: s2))).
    rewrite <- (E x). cbn [filter]. rewrite sameSpan_refl. now left. }
  destruct Hy as [Hy|Hy]; [exact Hy|].
  destruct Hx as [Hx|Hx]; [now symmetry|].
  apply A1 in Hy. apply A2 in Hx.
  assert (S : sameSpan x y = true).
  { apply sameSpan_spec. unfold startThenEnd in *. lia. }
  specialize (E x). cbn [filter] in E. rewrite sameSpan_refl, S in E.
  now inversion E.
Qed.

(** There is one way to sort a list ascending with equal facts kept in
    their order. *)
Lemma ascending_unique s1 : forall s2,
  Sorted startThenEnd s1 -> Sorted startThenEnd s2 ->
  (forall a, filter (sameSpan a) s1 = filter (sameSpan a) s2) ->
  s1 = s2.
Proof.
  induction s1 as [|x s1 IH]; intros [|y s2] H1 H2 E.
  - reflexivity.
  - specialize (E y). cbn [filter] in E. rewrite sameSpan_refl in E.
    discriminate.
  - specialize (E x). cbn [filter] in E. rewrite sameSpan_refl in E.
    discriminate.
  - assert (x = y) by (eapply ascending_head; eassumption). subst y.
    f_equal. apply IH.
    + now inversion H1.
    + now inversion H2.
    + intros a. specialize (E a). cbn [filter] in E.
      destruct (sameSpan a x); [now inversion E|exact E].
Qed.

(** [ranges.sort(...)] leaves in the array the sorted fact list, and
    nothing else is one. *)
Lemma sortedAscending_iff ranges sorted :
  sortedAscending ranges sorted <-> sorted = sortRanges ranges.
Proof.
  split.
  - intros (_ & Hs & Ht).
    destruct (sortRanges_sortedAscending ranges) as (_ & Hs' & Ht').
    apply ascending_unique; [exact Hs|exact Hs'|].
    intros a. now rewrite Ht, Ht'.
  - intros ->. apply sortRanges_sortedAscending.
Qed.

(** Neighbours of the sorted array stand in the order of the
    specification. *)
Lemma adjacent_startThenEnd ranges prev curr :
  adjacent (sortRanges ranges) prev curr -> startThenEnd prev curr.
Proof.
  intros H. apply startThenEnd_leR.
  eapply adjacent_leR; [apply sortRanges_sorted|exact H].
Qed.

End OrderFacts.

(** ** Gaps and overlaps *)

Import SortFacts ReconcileFacts OrderFacts.

(** C1: the array the sweep reads for a school, [sortRanges ranges], is the
    school's fact list sorted ascending by start year, then end year -- it
    is such a sorted list, and the only one -- so that in every adjacent
    pair [(prev, curr)] of it (the array then has at least two entries)
    [prev] comes no later than [curr] in that order; for every such pair the
    gap record [{schoolName, fromYear: prev.end+1, toYear: curr.start-1,
    prevLine, currLine}] is among the reported gaps if and only if
    [curr.start > prev.end + 1]; the loop body appends exactly that record to
    [gaps] in that case and leaves [gaps] alone otherwise; and when
    [curr.start = prev.end + 1] the body records nothing at all. *)
Theorem C1_gap_recorded_iff :
  forall (m : SchoolMap) (issues0 : Issues) (schoolName : jsstring)
         (ranges : list RangeEntry.t) (prev curr : RangeEntry.t),
    gaps issues0 = [] ->
    In (schoolName, ranges) m ->
    adjacent (sortRanges ranges) prev curr ->
    let g := gapOf schoolName prev curr in
    ((In g (gaps (fst (reconcile m issues0))) <->
      RangeEntry.start curr > RangeEntry.end_ prev + 1) /\
     (forall issues,
         gaps (checkPair schoolName prev curr issues) =
         if RangeEntry.start curr >? RangeEntry.end_ prev + 1
         then gaps issues ++ [g] else gaps issues) /\
     (RangeEntry.start curr = RangeEntry.end_ prev + 1 ->
      forall issues, checkPair schoolName prev curr issues = issues)) /\
    ((forall sorted,
         sortedAscending ranges sorted <-> sorted = sortRanges ranges) /\
     startThenEnd prev curr).
Proof.
  intros m issues0 n ranges prev curr H0 Hin Hadj g.
  split; [split; [split|split]|split].
  - intros Hg. apply reconcile_gaps_In in Hg. rewrite H0 in Hg.
    destruct Hg as [[]|(n' & r' & p' & c' & _ & _ & Hgt & Heq)].
    unfold g, gapOf in Heq. inversion Heq. lia.
  - intros Hgt. apply reconcile_gaps_In. right.
    exists n, ranges, prev, curr. auto.
  - intros issues. rewrite checkPair_gaps.
    destruct (RangeEntry.start curr >? RangeEntry.end_ prev + 1);
      [reflexivity|apply app_nil_r].
  - intros Heq issues. unfold checkPair.
    destruct (Z.gtb_spec (RangeEntry.start curr) (RangeEntry.end_ prev + 1));
      [lia|].
    destruct (Z.leb_spec (RangeEntry.start curr) (RangeEntry.end_ prev));
      [lia|reflexivity].
  - intros sorted. apply sortedAscending_iff.
  - exact (adjacent_startThenEnd ranges prev curr Hadj).
Qed.

Lemma C1_witness :
  In (Gap.mk (js "Lincoln") 2006 2006 2 3)
     (gaps (fst (reconcile lincolnGapMap noIssues))) /\
  startThenEnd
    (RangeEntry.mk 2 2000 2005 (js "2000-2005") (js "https://a"))
    (RangeEntry.mk 3 2007 2010 (js "2007-2010") (js "https://b")).
Proof.
  pose proof (C1_gap_recorded_iff lincolnGapMap noIssues
                (js "Lincoln")
                [RangeEntry.mk 3 2007 2010 (js "2007-2010") (js "https://b");
                 RangeEntry.mk 2 2000 2005 (js "2000-2005") (js "https://a")]
                (RangeEntry.mk 2 2000 2005 (js "2000-2005") (js "https://a"))
                (RangeEntry.mk 3 2007 2010 (js "2007-2010") (js "https://b"))
                eq_refl (or_introl eq_refl)
                (ex_intro _ 0%nat (conj eq_refl eq_refl))) as H.
  split; [|exact (proj2 (proj2 H))].
  refine (proj2 (proj1 (proj1 H)) _). simpl. lia.
Defined.

(** C2: the array the sweep reads for a school, [sortRanges ranges], is the
    school's fact list sorted ascending by [(start, end)] -- it is such a
    sorted list, and the only one -- so that in every adjacent pair
    [(prev, curr)] of it [prev] comes no later than [curr] in that order;
    for every such pair the overlap record [{schoolName, overlapStart:
    curr.start, overlapEnd: min(prev.end, curr.end), prevLine, currLine}] is
    among the reported overlaps if and only if [curr.start <= prev.end]; the
    loop body appends exactly that record to [overlaps] in that case and
    leaves [overlaps] alone otherwise; and the body never adds to both
    [gaps] and [overlaps] for one pair. *)
Theorem C2_overlap_recorded_iff :
  forall (m : SchoolMap) (issues0 : Issues) (schoolName : jsstring)
         (ranges : list RangeEntry.t) (prev curr : RangeEntry.t),
    overlaps issues0 = [] ->
    wellFormed m ->
    In (schoolName, ranges) m ->
    adjacent (sortRanges ranges) prev curr ->
    let o := overlapOf schoolName prev curr in
    ((In o (overlaps (fst (reconcile m issues0))) <->
      RangeEntry.start curr <= RangeEntry.end_ prev) /\
     (forall issues,
         overlaps (checkPair schoolName prev curr issues) =
         if RangeEntry.start curr <=? RangeEntry.end_ prev
         then overlaps issues ++ [o] else overlaps issues) /\
     (forall issues,
         gaps (checkPair schoolName prev curr issues) = gaps issues \/
         overlaps (checkPair schoolName prev curr issues) = overlaps issues)) /\
    ((forall sorted,
         sortedAscending ranges sorted <-> sorted = sortRanges ranges) /\
     startThenEnd prev curr).
Proof.
  intros m issues0 n ranges prev curr H0 Hwf Hin Hadj o.
  split; [split; [split|split]|split].
  - intros Ho. apply reconcile_overlaps_In in Ho. rewrite H0 in Ho.
    destruct Ho as [[]|(n' & r' & p' & c' & Hin' & Hadj' & Hle & Heq)].
    unfold o, overlapOf in Heq. inversion Heq.
    apply adjacent_In in Hadj'. destruct Hadj' as [_ Hc'].
    apply -> sortRanges_In in Hc'. specialize (Hwf n' r' c' Hin' Hc'). lia.
  - intros Hle. apply reconcile_overlaps_In. right.
    exists n, ranges, prev, curr. auto.
  - intros issues. rewrite checkPair_overlaps.
    destruct (RangeEntry.start curr <=? RangeEntry.end_ prev);
      [reflexivity|apply app_nil_r].
  - intros issues. rewrite checkPair_gaps, checkPair_overlaps.
    destruct (Z.gtb_spec (RangeEntry.start curr) (RangeEntry.end_ prev + 1));
      destruct (Z.leb_spec (RangeEntry.start curr) (RangeEntry.end_ prev));
      rewrite ?app_nil_r; auto; lia.
  - intros sorted. apply sortedAscending_iff.
  - exact (adjacent_startThenEnd ranges prev curr Hadj).
Qed.

Lemma lincolnOverlapMap_wellFormed : wellFormed lincolnOverlapMap.
Proof.
  intros n ranges e [H|[]] He. inversion H; subst.
  destruct He as [<-|[<-|[]]]; simpl; lia.
Defined.

Lemma lateFirstOverlapMap_wellFormed : wellFormed lateFirstOverlapMap.
Proof.
  intros n ranges e [H|[]] He. inversion H; subst.
  destruct He as [<-|[<-|[]]]; simpl; lia.
Defined.

Lemma C2_witness :
  In (Overlap.mk (js "Lincoln") 2005 2006 3 2)
     (overlaps (fst (reconcile lateFirstOverlapMap noIssues))) /\
  startThenEnd
    (RangeEntry.mk 3 2000 2006 (js "2000-2006") (js "https://a"))
    (RangeEntry.mk 2 2005 2010 (js "2005-2010") (js "https://b")).
Proof.
  pose proof (C2_overlap_recorded_iff lateFirstOverlapMap noIssues
                (js "Lincoln")
                [RangeEntry.mk 2 2005 2010 (js "2005-2010") (js "https://b");
                 RangeEntry.mk 3 2000 2006 (js "2000-2006") (js "https://a")]
                (RangeEntry.mk 3 2000 2006 (js "2000-2006") (js "https://a"))
                (RangeEntry.mk 2 2005 2010 (js "2005-2010") (js "https://b"))
                eq_refl lateFirstOverlapMap_wellFormed (or_introl eq_refl)
                (ex_intro _ 0%nat (conj eq_refl eq_refl))) as H.
  split; [|exact (proj2 (proj2 H))].
  refine (proj2 (proj1 (proj1 H)) _). simpl. lia.
Defined.

(** C9: a run of the reconciler from fresh (empty) gap and overlap
    accumulators, followed by a second such run on the same map -- whose
    arrays the first run has sorted in place -- reports the same gaps and the
    same overlaps; so does a second run on the map as it was before the
    first. *)
Theorem C9_reconcile_repeatable :
  forall (m : SchoolMap) (fresh1 fresh2 : Issues),
    gaps fresh1 = [] -> overlaps fresh1 = [] ->
    gaps fresh2 = [] -> overlaps fresh2 = [] ->
    let run1 := reconcile m fresh1 in
    let run2 := reconcile (snd run1) fresh2 in
    gaps (fst run2) = gaps (fst run1) /\
    overlaps (fst run2) = overlaps (fst run1) /\
    snd run2 = snd run1 /\
    gaps (fst (reconcile m fresh2)) = gaps (fst run1) /\
    overlaps (fst (reconcile m fresh2)) = overlaps (fst run1).
Proof.
  intros m f1 f2 G1 O1 G2 O2 run1 run2. unfold run2, run1.
  rewrite !reconcile_snd, reconcile_sorted_map.
  destruct (reconcile_frame m f1) as [Hg1 Ho1].
  destruct (reconcile_frame m f2) as [Hg2 Ho2].
  rewrite Hg1, Ho1, Hg2, Ho2, G1, O1, G2, O2. simpl.
  repeat split; try reflexivity.
  rewrite map_map. apply map_ext. intros [n r]. simpl.
  now rewrite sortRanges_idem.
Qed.

Lemma C9_witness :
  gaps (fst (reconcile (snd (reconcile lincolnGapMap noIssues)) noIssues)) =
  gaps (fst (reconcile lincolnGapMap noIssues)).
Proof.
  exact (proj1 (C9_reconcile_repeatable lincolnGapMap noIssues noIssues
                  eq_refl eq_refl eq_refl eq_refl)).
Defined.

(** C10: when every fact of the map has [start <= end], every gap a run
    reports has [fromYear <= toYear] and every overlap it reports has
    [overlapStart <= overlapEnd]. *)
Theorem C10_spans_well_ordered :
  forall (m : SchoolMap) (issues0 : Issues),
    gaps issues0 = [] -> overlaps issues0 = [] ->
    wellFormed m ->
    (forall g, In g (gaps (fst (reconcile m issues0))) ->
               Gap.fromYear g <= Gap.toYear g) /\
    (forall o, In o (overlaps (fst (reconcile m issues0))) ->
               Overlap.overlapStart o <= Overlap.overlapEnd o).
Proof.
  intros m issues0 G0 O0 Hwf. split.
  - intros g Hg. apply reconcile_gaps_In in Hg. rewrite G0 in Hg.
    destruct Hg as [[]|(n & r & p & c & _ & _ & Hgt & ->)]. simpl. lia.
  - intros o Ho. apply reconcile_overlaps_In in Ho. rewrite O0 in Ho.
    destruct Ho as [[]|(n & r & p & c & Hin & Hadj & Hle & ->)]. simpl.
    apply adjacent_In in Hadj. destruct Hadj as [_ Hc].
    apply -> sortRanges_In in Hc. specialize (Hwf n r c Hin Hc). lia.
Qed.

Lemma C10_witness :
  Forall (fun o => Overlap.overlapStart o <= Overlap.overlapEnd o)
    (overlaps (fst (reconcile lincolnOverlapMap noIssues))).
Proof.
  apply Forall_forall.
  exact (proj2 (C10_spans_well_ordered lincolnOverlapMap noIssues
                  eq_refl eq_refl lincolnOverlapMap_wellFormed)).
Defined.

(** ** The row classifier *)

Module ClassifyFacts.

Lemma eqb_eq a : forall b, JsString.eqb a b = true <-> a = b.
Proof.
  induction a as [|x a IH]; intros [|y b]; simpl; split; intros H;
    try discriminate; try reflexivity.
  - apply andb_true_iff in H. destruct H as [H1 H2].
    apply N.eqb_eq in H1. apply IH in H2. congruence.
  - inversion H; subst. rewrite N.eqb_refl. simpl. now apply IH.
Qed.

Lemma mapGet_In m k v : mapGet m k = Some v -> In (k, v) m.
Proof.
  induction m as [|[k' v'] m IH]; simpl; [discriminate|].
  destruct (JsString.eqb k' k) eqn:E.
  - apply eqb_eq in E. intros H. inversion H; subst. auto.
  - auto.
Qed.

Lemma mapSet_In m k v n es :
  In (n, es) (mapSet m k v) -> In (n, es) m \/ (n = k /\ es = v).
Proof.
  induction m as [|[k' v'] m IH]; simpl.
  - intros [H|[]]. inversion H. auto.
  - destruct (JsString.eqb k' k) eqn:E; simpl.
    + apply eqb_eq in E. intros [H|H]; [inversion H; subst; auto|auto].
    + intros [H|H]; [auto|]. destruct (IH H); auto.
Qed.

(** After [set] the key reads back the value. *)
Lemma mapGet_mapSet m k v : mapGet (mapSet m k v) k = Some v.
Proof.
  induction m as [|[k' v'] m IH]; simpl.
  - now rewrite (proj2 (eqb_eq k k) eq_refl).
  - destruct (JsString.eqb k' k) eqn:E; simpl; rewrite E; auto.
Qed.

Lemma forEachRow_step cy : forall i rows row k acc,
  nth_error rows i = Some row ->
  forEachRow cy (firstn (S i) rows) k acc =
  classifyRow cy (k + i) row (forEachRow cy (firstn i rows) k acc).
Proof.
  induction i as [|i IH]; intros [|r rows] row k acc H; try discriminate.
  - simpl in H. inversion H; subst. simpl. now rewrite Nat.add_0_r.
  - simpl in H. change (firstn (S (S i)) (r :: rows))
      with (r :: firstn (S i) rows).
    change (firstn (S i) (r :: rows)) with (r :: firstn i rows).
    simpl forEachRow. rewrite (IH rows row (S k) _ H).
    now rewrite Nat.add_succ_comm.
Qed.

Lemma forEachRow_app cy : forall rows1 rows2 k acc,
  forEachRow cy (rows1 ++ rows2) k acc =
  forEachRow cy rows2 (k + length rows1) (forEachRow cy rows1 k acc).
Proof.
  induction rows1 as [|r rows1 IH]; intros rows2 k acc; simpl.
  - now rewrite Nat.add_0_r.
  - rewrite IH. now rewrite Nat.add_succ_comm.
Qed.

(** Nothing but the empty string trims to a falsy value, and the empty
    string is no year range. *)
Lemma truthy_false s : truthy s = false <-> s = [].
Proof. destruct s; simpl; split; congruence. Qed.

Lemma parseType_empty cy : parseType cy [] = None.
Proof. reflexivity. Qed.


Ltac conjs := repeat match goal with |- _ /\ _ => split end.

(** What one call of the callback adds: records that carry the row number
    [index + 2], and nothing to [gaps] or [overlaps]. *)
Lemma classifyRow_delta cy index row issues m :
  let after := classifyRow cy index row (issues, m) in
  (exists d, missingSchoolName (fst after) = missingSchoolName issues ++ d /\
             Forall (fun r => MissingSchoolName.line r = Z.of_nat index + 2) d) /\
  (exists d, missingLink (fst after) = missingLink issues ++ d /\
             Forall (fun r => MissingLink.line r = Z.of_nat index + 2) d) /\
  (exists d, missingType (fst after) = missingType issues ++ d /\
             Forall (fun r => MissingType.line r = Z.of_nat index + 2) d) /\
  (exists d, invalidType (fst after) = invalidType issues ++ d /\
             Forall (fun r => InvalidType.line r = Z.of_nat index + 2) d) /\
  (forall n es e,
      In (n, es) (snd after) -> In e es ->
      (exists es0, In (n, es0) m /\ In e es0) \/
      RangeEntry.line e = Z.of_nat index + 2) /\
  gaps (fst after) = gaps issues /\
  overlaps (fst after) = overlaps issues.
Proof.
  assert (Hnil : forall (T : Type) (P : T -> Prop) (l : list T),
             exists d, l = l ++ d /\ Forall P d)
    by (intros; exists []; rewrite app_nil_r; auto).
  assert (Hone : forall (T : Type) (P : T -> Prop) (l : list T) (x : T),
             P x -> exists d, l ++ [x] = l ++ d /\ Forall P d)
    by (intros T P l x Hx; exists [x]; auto).
  assert (Hsame : forall n es e,
             In (n, es) m -> In e es ->
             (exists es0, In (n, es0) m /\ In e es0) \/
             RangeEntry.line e = Z.of_nat index + 2)
    by (intros n es e H1 H2; left; exists es; auto).
  unfold classifyRow; cbv zeta.
  destruct (truthy (trim (orEmpty (rowSchoolName row)))); simpl negb; cbv iota.
  2:{ simpl. conjs; auto; apply Hone; reflexivity. }
  destruct (truthy (trim (orEmpty (rowLink row))));
    destruct (truthy (trim (orEmpty (rowType row)))); simpl negb; cbv iota;
    try (simpl; conjs; auto; apply Hone; reflexivity);
    (destruct (parseType cy (trim (orEmpty (rowType row)))) as [r|];
     [|simpl; conjs; auto; apply Hone; reflexivity]);
    simpl; conjs; auto; try (apply Hone; reflexivity);
    intros n es e Hin He; apply mapSet_In in Hin;
    (destruct Hin as [Hin|[-> ->]]; [now eauto|]);
    apply in_app_iff in He; (destruct He as [He|[<-|[]]]; [|now right]);
    (destruct (mapGet m (trim (orEmpty (rowSchoolName row)))) as [e0|] eqn:G;
     [|now destruct He]);
    apply mapGet_In in G; left; exists e0; auto.
Qed.

End ClassifyFacts.

Import ClassifyFacts.

(** C5, as the code has it: the callback for the row at 0-based position
    [i] of [rows] takes the accumulators left by the rows before it, and
    every issue and every fact it adds carries the line number [i + 2]; the
    rest of the run goes on from there. *)
Theorem C5_line_number_is_index_plus_2 :
  forall (cy : Z) (rows : list Row) (i : nat) (row : Row),
    nth_error rows i = Some row ->
    let before := classifyRows cy (firstn i rows) in
    let after := classifyRow cy i row before in
    classifyRows cy rows = forEachRow cy (skipn (S i) rows) (S i) after /\
    (exists d, missingSchoolName (fst after) =
               missingSchoolName (fst before) ++ d /\
               Forall (fun r => MissingSchoolName.line r = Z.of_nat i + 2) d) /\
    (exists d, missingLink (fst after) = missingLink (fst before) ++ d /\
               Forall (fun r => MissingLink.line r = Z.of_nat i + 2) d) /\
    (exists d, missingType (fst after) = missingType (fst before) ++ d /\
               Forall (fun r => MissingType.line r = Z.of_nat i + 2) d) /\
    (exists d, invalidType (fst after) = invalidType (fst before) ++ d /\
               Forall (fun r => InvalidType.line r = Z.of_nat i + 2) d) /\
    (forall n es e,
        In (n, es) (snd after) -> In e es ->
        (exists es0, In (n, es0) (snd before) /\ In e es0) \/
        RangeEntry.line e = Z.of_nat i + 2).
Proof.
  intros cy rows i row Hnth before after. split.
  - unfold after, before, classifyRows.
    rewrite <- (forEachRow_step cy i rows row 0 _ Hnth).
    rewrite <- (firstn_skipn (S i) rows) at 1.
    rewrite forEachRow_app. f_equal.
    assert (i < length rows)%nat by (apply nth_error_Some; congruence).
    rewrite length_firstn. lia.
  - unfold after. destruct before as [issues m].
    pose proof (classifyRow_delta cy i row issues m) as H. cbv zeta in H.
    simpl fst; simpl snd. tauto.
Qed.

Lemma C5_witness :
  exists d,
    missingSchoolName
      (fst (classifyRow 2026 1 blankNameRow
              (classifyRows 2026 (firstn 1 [blankNameRow; blankNameRow])))) =
    missingSchoolName
      (fst (classifyRows 2026 (firstn 1 [blankNameRow; blankNameRow]))) ++ d /\
    Forall (fun r => MissingSchoolName.line r = Z.of_nat 1 + 2) d.
Proof.
  exact (proj1 (proj2 (C5_line_number_is_index_plus_2 2026
                         [blankNameRow; blankNameRow] 1%nat blankNameRow
                         eq_refl))).
Defined.

(** C5 as stated fails: the first data row, at position 0, is reported as
    line 2, which is not position + 1. *)
Lemma C5_counterexample :
  nth_error [blankNameRow] 0 = Some blankNameRow /\
  missingSchoolName (fst (classifyRows 2026 [blankNameRow])) =
    [MissingSchoolName.mk 2] /\
  MissingSchoolName.line (MissingSchoolName.mk 2) <> Z.of_nat 0 + 1.
Proof. repeat split. discriminate. Qed.

(** C7: a row whose school name trims to the empty string adds the record
    [{line}] to [missingSchoolName] and changes nothing else: no other issue
    list grows and the map of facts is untouched, whatever the link and type
    fields hold. *)
Theorem C7_missing_school_name_only :
  forall (cy : Z) (index : nat) (row : Row) (issues : Issues) (m : SchoolMap),
    trim (orEmpty (rowSchoolName row)) = [] ->
    classifyRow cy index row (issues, m) =
    (mkIssues
       (missingSchoolName issues ++ [MissingSchoolName.mk (Z.of_nat index + 2)])
       (missingLink issues) (missingType issues) (invalidType issues)
       (gaps issues) (overlaps issues),
     m).
Proof.
  intros cy index row issues m H. unfold classifyRow; cbv zeta.
  rewrite H. reflexivity.
Qed.

Lemma C7_witness :
  classifyRow 2026 0
    (mkRow (Some (js "  ")) (Some (js "")) (Some (js "2000-2005")))
    (noIssues, []) =
  (mkIssues [MissingSchoolName.mk 2] [] [] [] [] [], []).
Proof.
  exact (C7_missing_school_name_only 2026 0
           (mkRow (Some (js "  ")) (Some (js "")) (Some (js "2000-2005")))
           noIssues [] eq_refl).
Defined.

(** C6: a row with a non-empty trimmed school name, an empty trimmed link
    and a type text that parses adds [{line, schoolName, type}] to
    [missingLink] and still appends a fact, with the parsed range, to the
    school's array; nothing else changes. *)
Theorem C6_missing_link_keeps_fact :
  forall (cy : Z) (index : nat) (row : Row) (issues : Issues) (m : SchoolMap)
         (r : YearRange),
    let schoolName := trim (orEmpty (rowSchoolName row)) in
    let type := trim (orEmpty (rowType row)) in
    let fact := RangeEntry.mk (Z.of_nat index + 2) (rstart r) (rend r) type [] in
    let existing :=
      match mapGet m schoolName with Some e => e | None => [] end in
    schoolName <> [] ->
    trim (orEmpty (rowLink row)) = [] ->
    parseType cy type = Some r ->
    classifyRow cy index row (issues, m) =
    (mkIssues (missingSchoolName issues)
       (missingLink issues ++
        [MissingLink.mk (Z.of_nat index + 2) schoolName type])
       (missingType issues) (invalidType issues)
       (gaps issues) (overlaps issues),
     mapSet m schoolName (existing ++ [fact])) /\
    mapGet (snd (classifyRow cy index row (issues, m))) schoolName =
      Some (existing ++ [fact]).
Proof.
  intros cy index row issues m r schoolName type fact existing Hn Hl Hp.
  assert (E : classifyRow cy index row (issues, m) =
              (mkIssues (missingSchoolName issues)
                 (missingLink issues ++
                  [MissingLink.mk (Z.of_nat index + 2) schoolName type])
                 (missingType issues) (invalidType issues)
                 (gaps issues) (overlaps issues),
               mapSet m schoolName (existing ++ [fact]))).
  { unfold classifyRow; cbv zeta. fold schoolName. fold type.
    destruct schoolName as [|c s] eqn:En; [congruence|]. simpl truthy.
    rewrite Hl. simpl truthy. simpl negb. cbv iota.
    destruct type as [|t ts] eqn:Et.
    - rewrite parseType_empty in Hp. discriminate.
    - simpl truthy. simpl negb. cbv iota. rewrite Hp. reflexivity. }
  split; [exact E|]. rewrite E. simpl. apply mapGet_mapSet.
Qed.

Lemma C6_witness :
  mapGet
    (snd (classifyRow 2026 0
            (mkRow (Some (js "Lincoln")) (Some (js " ")) (Some (js "2000-2005")))
            (noIssues, [])))
    (js "Lincoln") =
  Some [RangeEntry.mk 2 2000 2005 (js "2000-2005") []].
Proof.
  refine (proj2 (C6_missing_link_keeps_fact 2026 0
                   (mkRow (Some (js "Lincoln")) (Some (js " "))
                      (Some (js "2000-2005")))
                   noIssues [] (mkRange 2000 2005) _ eq_refl eq_refl)).
  discriminate.
Defined.

(** ** The reporter *)

Module ReportFacts.

Lemma reportCategory_eq {T : Type} (items : list T) (header : jsstring)
      (render : T -> jsstring) (st : bool * list jsstring) :
  reportCategory items header render st =
  (fst st || match items with [] => false | _ => true end,
   snd st ++ match items with
             | [] => []
             | _ => header :: List.map render items
             end).
Proof.
  destruct st as [b err]. destruct items as [|x items]; simpl.
  - now rewrite orb_false_r, app_nil_r.
  - now rewrite orb_true_r.
Qed.

End ReportFacts.

(** C8: [reportAndExit] succeeds (returns without [process.exit]) if and
    only if all six categories are empty; otherwise it exits with status 1,
    and so it does when [missingLink] alone is non-empty; what it writes is
    the block of missing names, then of missing links, missing types,
    invalid types, gaps and overlaps, a block being absent when its category
    is empty. *)
Theorem C8_success_iff_no_issue :
  forall issues : Issues,
    (success (reportAndExit issues) = true <->
     missingSchoolName issues = [] /\ missingLink issues = [] /\
     missingType issues = [] /\ invalidType issues = [] /\
     gaps issues = [] /\ overlaps issues = []) /\
    (success (reportAndExit issues) = false <->
     exited (reportAndExit issues) = Some 1) /\
    (missingLink issues <> [] -> exitStatus (reportAndExit issues) = 1) /\
    stderr (reportAndExit issues) =
      match missingSchoolName issues with
      | [] => []
      | _ => hdrMissingSchoolName ::
             List.map renderMissingSchoolName (missingSchoolName issues)
      end ++
      match missingLink issues with
      | [] => []
      | _ => hdrMissingLink :: List.map renderMissingLink (missingLink issues)
      end ++
      match missingType issues with
      | [] => []
      | _ => hdrMissingType :: List.map renderMissingType (missingType issues)
      end ++
      match invalidType issues with
      | [] => []
      | _ => hdrInvalidType :: List.map renderInvalidType (invalidType issues)
      end ++
      match gaps issues with
      | [] => []
      | _ => hdrGaps :: List.map renderGap (gaps issues)
      end ++
      match overlaps issues with
      | [] => []
      | _ => hdrOverlaps :: List.map renderOverlap (overlaps issues)
      end.
Proof.
  intros issues. unfold reportAndExit.
  rewrite !ReportFacts.reportCategory_eq. cbn [fst snd].
  destruct issues as [a b c d e f]. cbn [missingSchoolName missingLink
    missingType invalidType gaps overlaps].
  split; [|split; [|split]].
  - unfold success. destruct a, b, c, d, e, f; simpl; intuition congruence.
  - unfold success. destruct a, b, c, d, e, f; simpl; intuition congruence.
  - intros Hb. destruct b; [congruence|].
    destruct a, c, d, e, f; reflexivity.
  - destruct a, b, c, d, e, f; cbn [orb app]; cbv iota beta;
      cbn [stderr]; rewrite <- ?app_assoc, ?app_nil_r; reflexivity.
Qed.

Lemma C8_witness :
  exitStatus
    (reportAndExit
       (mkIssues [] [MissingLink.mk 2 (js "Lincoln") (js "2000-2005")]
          [] [] [] [])) = 1.
Proof.
  refine (proj1 (proj2 (proj2 (C8_success_iff_no_issue
            (mkIssues [] [MissingLink.mk 2 (js "Lincoln") (js "2000-2005")]
               [] [] [] [])))) _).
  discriminate.
Defined.

(** ** Characters, patterns and the parser *)

Module RegexFacts.

Lemma digit_cases c :
  isDigit c = true ->
  (c = 48 \/ c = 49 \/ c = 50 \/ c = 51 \/ c = 52 \/
   c = 53 \/ c = 54 \/ c = 55 \/ c = 56 \/ c = 57)%N.
Proof.
  unfold isDigit. rewrite andb_true_iff, !N.leb_le. lia.
Qed.

Ltac by_digit H :=
  let E := fresh in
  pose proof (digit_cases _ H) as E;
  repeat (destruct E as [E|E]; [subst; try reflexivity|]);
  subst; try reflexivity.

Lemma digit_not_ws c : isDigit c = true -> isWhiteSpace c = false.
Proof. intros H. by_digit H. Qed.

Lemma digit_not_p c : isDigit c = true -> ciEq 112 c = false.
Proof. intros H. by_digit H. Qed.

Lemma ciEq_upper p c : ciEq p c = true -> asciiUpper c = asciiUpper p.
Proof.
  unfold ciEq. rewrite andb_true_iff, N.eqb_eq. tauto.
Qed.

Lemma upper_ciEq p c :
  (p < 128)%N -> asciiUpper c = asciiUpper p -> ciEq p c = true.
Proof.
  unfold ciEq, asciiUpper. intros Hp.
  destruct (N.leb_spec 97 c); destruct (N.leb_spec c 122);
    destruct (N.leb_spec 97 p); destruct (N.leb_spec p 122);
    cbn [andb]; intros E; apply andb_true_iff;
    (split; [apply N.ltb_lt; lia|apply N.eqb_eq; lia]).
Qed.

(** A letter of a pattern word never matches a digit or white space. *)
Lemma upper_cases c u :
  asciiUpper c = u -> c = u \/ c = (u + 32)%N.
Proof.
  unfold asciiUpper.
  destruct (N.leb_spec 97 c); destruct (N.leb_spec c 122); cbn [andb]; lia.
Qed.

Lemma ciEq_hyphen c : ciEq 45 c = true -> c = 45%N.
Proof.
  intros H. apply ciEq_upper in H.
  destruct (upper_cases _ _ H) as [E|E]; [exact E|].
  rewrite E in H. vm_compute in H. discriminate.
Qed.

(** Case-insensitive agreement with an ASCII word, character by
    character. *)
Lemma same_Forall2 w : forall s,
  Forall (fun p => (p < 128)%N) w ->
  sameIgnoringCase w s -> Forall2 (fun p c => ciEq p c = true) w s.
Proof.
  unfold sameIgnoringCase.
  induction w as [|p w IH]; intros [|c s] Hw H; simpl in H;
    try discriminate; constructor; inversion Hw; inversion H; subst.
  - now apply upper_ciEq.
  - now apply IH.
Qed.

Lemma Forall2_same w : forall s,
  Forall2 (fun p c => ciEq p c = true) w s -> sameIgnoringCase w s.
Proof.
  unfold sameIgnoringCase. induction 1 as [|p c w s H _ IH]; simpl.
  - reflexivity.
  - now rewrite (ciEq_upper _ _ H), IH.
Qed.

Lemma firstn_prefix {T : Type} (l r : list T) :
  firstn (length (l ++ r) - length r) (l ++ r) = l.
Proof.
  rewrite length_app.
  replace (length l + length r - length r)%nat with (length l) by lia.
  rewrite firstn_app, Nat.sub_diag, firstn_all. simpl. apply app_nil_r.
Qed.

Lemma firstn_whole {T : Type} (l : list T) :
  firstn (length l - length (@nil T)) l = l.
Proof. cbn [length]. rewrite Nat.sub_0_r. apply firstn_all. Qed.

Section Continuations.
Context {A : Type}.
Implicit Types (k : jsstring -> list jsstring -> option A).

Lemma star_skip p ws : forall rest (k : jsstring -> option A) x,
  Forall (fun c => p c = true) ws -> headNot p rest ->
  k rest = Some x -> star p (ws ++ rest) k = Some x.
Proof.
  induction ws as [|c ws IH]; intros rest k x Hws Hh Hk; simpl.
  - destruct rest as [|c rest]; simpl in *; [exact Hk|now rewrite Hh].
  - inversion Hws; subst. rewrite H1, (IH rest k x); auto.
Qed.

Lemma star_inv p : forall s (k : jsstring -> option A) x,
  star p s k = Some x ->
  exists ws rest,
    s = ws ++ rest /\ Forall (fun c => p c = true) ws /\ k rest = Some x.
Proof.
  induction s as [|c s IH]; intros k x H; simpl in H.
  - exists [], []. auto.
  - destruct (p c) eqn:E.
    + destruct (star p s k) eqn:E2.
      * inversion H; subst. apply IH in E2.
        destruct E2 as (ws & rest & -> & Hws & Hk).
        exists (c :: ws), rest. auto.
      * exists [], (c :: s). auto.
    + exists [], (c :: s). auto.
Qed.

Lemma plus_skip p ws rest caps k x :
  ws <> [] -> Forall (fun c => p c = true) ws -> headNot p rest ->
  k rest caps = Some x -> rmatch (Plus p) (ws ++ rest) caps k = Some x.
Proof.
  intros Hne Hws Hh Hk. destruct ws as [|c ws]; [congruence|].
  inversion Hws; subst. unfold Plus. cbn [rmatch app]. rewrite H1.
  now apply star_skip.
Qed.

Lemma plus_inv p s caps k x :
  rmatch (Plus p) s caps k = Some x ->
  exists ws rest,
    s = ws ++ rest /\ ws <> [] /\ Forall (fun c => p c = true) ws /\
    k rest caps = Some x.
Proof.
  unfold Plus. cbn [rmatch]. destruct s as [|c s]; [discriminate|].
  destruct (p c) eqn:E; [|discriminate]. intros H.
  apply star_inv in H. destruct H as (ws & rest & -> & Hws & Hk).
  exists (c :: ws), rest. repeat split; auto. discriminate.
Qed.

Lemma rep_ok p : forall ds rest caps k,
  Forall (fun c => p c = true) ds ->
  rmatch (Rep (length ds) p) (ds ++ rest) caps k = k rest caps.
Proof.
  induction ds as [|c ds IH]; intros rest caps k H; [reflexivity|].
  inversion H; subst. cbn [length Rep rmatch app]. rewrite H2. now apply IH.
Qed.

Lemma rep_inv p : forall n s caps k x,
  rmatch (Rep n p) s caps k = Some x ->
  exists ds rest,
    s = ds ++ rest /\ length ds = n /\ Forall (fun c => p c = true) ds /\
    k rest caps = Some x.
Proof.
  induction n as [|n IH]; intros s caps k x H; cbn [Rep rmatch] in H.
  - exists [], s. auto.
  - destruct s as [|c s]; [discriminate|].
    destruct (p c) eqn:E; [|discriminate].
    apply IH in H. destruct H as (ds & rest & -> & <- & Hds & Hk).
    exists (c :: ds), rest. auto.
Qed.

Lemma rep_fail p n c s caps k :
  p c = false -> rmatch (Rep (S n) p) (c :: s) caps k = None.
Proof. intros H. cbn [Rep rmatch]. now rewrite H. Qed.

Lemma lit_ok w : forall s rest caps k,
  Forall2 (fun p c => ciEq p c = true) w s ->
  rmatch (Lit w) (s ++ rest) caps k = k rest caps.
Proof.
  induction w as [|p w IH]; intros s rest caps k H; inversion H; subst.
  - reflexivity.
  - cbn [Lit rmatch app]. rewrite H2. now apply IH.
Qed.

Lemma lit_inv w : forall s caps k x,
  rmatch (Lit w) s caps k = Some x ->
  exists s1 rest,
    s = s1 ++ rest /\ Forall2 (fun p c => ciEq p c = true) w s1 /\
    k rest caps = Some x.
Proof.
  induction w as [|p w IH]; intros s caps k x H; cbn [Lit rmatch] in H.
  - exists [], s. auto.
  - destruct s as [|c s]; [discriminate|].
    destruct (ciEq p c) eqn:E; [|discriminate].
    apply IH in H. destruct H as (s1 & rest & -> & Hs1 & Hk).
    exists (c :: s1), rest. auto.
Qed.

Lemma lit_fail p w c s caps k :
  ciEq p c = false -> rmatch (Lit (p :: w)) (c :: s) caps k = None.
Proof. intros H. cbn [Lit rmatch]. now rewrite H. Qed.

Lemma lit_nil p w caps k : rmatch (Lit (p :: w)) [] caps k = None.
Proof. reflexivity. Qed.

Lemma rep_ok_all p ds caps k :
  Forall (fun c => p c = true) ds ->
  rmatch (Rep (length ds) p) ds caps k = k [] caps.
Proof.
  intros H. rewrite <- (app_nil_r ds) at 2. now apply rep_ok.
Qed.

Lemma lit_ok_all w s caps k :
  Forall2 (fun p c => ciEq p c = true) w s ->
  rmatch (Lit w) s caps k = k [] caps.
Proof.
  intros H. rewrite <- (app_nil_r s). now apply lit_ok.
Qed.

End Continuations.

Lemma fourDigits_Forall c1 c2 c3 c4 :
  fourDigits c1 c2 c3 c4 <->
  Forall (fun c => isDigit c = true) [c1; c2; c3; c4].
Proof.
  unfold fourDigits. split.
  - intros (H1 & H2 & H3 & H4). repeat constructor; assumption.
  - intros H. inversion H as [|? ? H1 Ha]; subst.
    inversion Ha as [|? ? H2 Hb]; subst.
    inversion Hb as [|? ? H3 Hc]; subst.
    inversion Hc as [|? ? H4 _]; subst. auto.
Qed.

Lemma parseInt10_year c1 c2 c3 c4 :
  fourDigits c1 c2 c3 c4 ->
  parseInt10 [c1; c2; c3; c4] = Some (yearOf c1 c2 c3 c4).
Proof.
  intros (D1 & D2 & D3 & D4).
  assert (E : parseInt10 [c1; c2; c3; c4] =
              digitsPrefix [c1; c2; c3; c4] None) by (by_digit D1).
  rewrite E. cbn [digitsPrefix]. rewrite D1, D2, D3, D4.
  f_equal. unfold yearOf, digitValue. lia.
Qed.

Lemma test_present_digits c1 c2 c3 c4 :
  fourDigits c1 c2 c3 c4 -> test presentRe [c1; c2; c3; c4] = false.
Proof.
  intros (D1 & D2 & D3 & D4). unfold presentRe.
  change (js "present") with (112%N :: js "resent").
  cbn [test]. rewrite !lit_fail by now apply digit_not_p. reflexivity.
Qed.

Lemma test_present_word w :
  sameIgnoringCase (js "present") w -> test presentRe w = true.
Proof.
  intros H. apply same_Forall2 in H; [|repeat constructor].
  unfold presentRe. destruct w as [|c w]; [inversion H|].
  cbn [test]. rewrite <- (app_nil_r (c :: w)).
  now rewrite (lit_ok (js "present") (c :: w) [] [] _ H).
Qed.

End RegexFacts.

Module ParserFacts.
Import RegexFacts.

Lemma present_head w :
  sameIgnoringCase (js "present") w ->
  exists c w', w = c :: w' /\ isWhiteSpace c = false /\ isDigit c = false.
Proof.
  intros H. apply same_Forall2 in H; [|repeat constructor].
  inversion H as [|p c w0 s Hc _]; subst. apply ciEq_upper in Hc.
  exists c, s. destruct (upper_cases _ _ Hc) as [->| ->]; auto.
Qed.

Lemma rangeEnd_head cy tail Y : rangeEnd cy tail Y -> headNot isWhiteSpace tail.
Proof.
  intros [c1 c2 c3 c4 (D1 & _)|w H]; simpl.
  - now apply digit_not_ws.
  - destruct (present_head w H) as (c & w' & -> & Hc & _). exact Hc.
Qed.

Lemma matchWhole_yearRange cy c1 c2 c3 c4 ws1 ws2 tail Y2 :
  fourDigits c1 c2 c3 c4 ->
  allWhiteSpace ws1 -> allWhiteSpace ws2 ->
  rangeEnd cy tail Y2 ->
  matchWhole yearRangeRe ([c1; c2; c3; c4] ++ ws1 ++ js "-" ++ ws2 ++ tail) =
  Some [[c1; c2; c3; c4] ++ ws1 ++ js "-" ++ ws2 ++ tail;
        [c1; c2; c3; c4]; tail].
Proof.
  intros HD H1 H2 HE. unfold matchWhole, yearRangeRe. cbn [rmatch].
  rewrite (rep_ok isDigit [c1; c2; c3; c4]) by now apply fourDigits_Forall.
  rewrite firstn_prefix.
  apply star_skip; [exact H1|reflexivity|].
  rewrite (lit_ok (js "-") (js "-")) by (repeat constructor).
  apply star_skip; [exact H2|eapply rangeEnd_head; eassumption|].
  destruct HE as [d1 d2 d3 d4 HD'|w Hw].
  - rewrite (rep_ok_all isDigit [d1; d2; d3; d4])
      by now apply fourDigits_Forall.
    now rewrite firstn_whole.
  - destruct (present_head w Hw) as (c & w' & -> & _ & Hc).
    rewrite rep_fail by exact Hc.
    rewrite lit_ok_all by (apply same_Forall2; [repeat constructor|exact Hw]).
    now rewrite firstn_whole.
Qed.

Lemma parseType_bounded cy raw Y1 Y2 :
  boundedForm cy (trim raw) Y1 Y2 ->
  parseType cy raw =
  if Y1 <=? Y2 then Some (mkRange Y1 Y2) else None.
Proof.
  intros (c1 & c2 & c3 & c4 & ws1 & ws2 & tail &
          HD & -> & H1 & H2 & HE & Ht).
  unfold parseType. cbv zeta. rewrite Ht.
  rewrite (matchWhole_yearRange cy c1 c2 c3 c4 ws1 ws2 tail Y2) by assumption.
  cbn [nth]. rewrite parseInt10_year by exact HD.
  destruct HE as [d1 d2 d3 d4 HD'|w Hw].
  - rewrite test_present_digits, parseInt10_year by exact HD'. reflexivity.
  - rewrite test_present_word by exact Hw. reflexivity.
Qed.

Lemma letter_head p w s rest :
  sameIgnoringCase (p :: w) s ->
  isWhiteSpace (asciiUpper p) = false ->
  isWhiteSpace (asciiUpper p + 32) = false ->
  headNot isWhiteSpace (s ++ rest).
Proof.
  unfold sameIgnoringCase. destruct s as [|c s]; [discriminate|].
  simpl. intros H H1 H2. inversion H as [[Hc Hs]].
  destruct (upper_cases _ _ Hc) as [->| ->]; assumption.
Qed.

Lemma in_head c w :
  sameIgnoringCase (js "In") (c :: w) -> isDigit c = false.
Proof.
  intros H. apply same_Forall2 in H; [|repeat constructor].
  inversion H as [|p c' w0 s Hc _]; subst. apply ciEq_upper in Hc.
  destruct (upper_cases _ _ Hc) as [->| ->]; reflexivity.
Qed.

Lemma matchWhole_before w1 w2 w3 s1 s2 s3 c1 c2 c3 c4 :
  sameIgnoringCase (js "In") w1 ->
  sameIgnoringCase (js "School") w2 ->
  sameIgnoringCase (js "Before") w3 ->
  allWhiteSpace s1 -> s1 <> [] ->
  allWhiteSpace s2 -> s2 <> [] ->
  allWhiteSpace s3 -> s3 <> [] ->
  fourDigits c1 c2 c3 c4 ->
  let t := w1 ++ s1 ++ w2 ++ s2 ++ w3 ++ s3 ++ [c1; c2; c3; c4] in
  matchWhole yearRangeRe t = None /\
  matchWhole beforeRe t = Some [t; [c1; c2; c3; c4]].
Proof.
  intros W1 W2 W3 S1 N1 S2 N2 S3 N3 HD t. split.
  - unfold matchWhole, yearRangeRe. cbn [rmatch]. subst t.
    pose proof W1 as W1'. apply same_Forall2 in W1'; [|repeat constructor].
    destruct w1 as [|c w1]; [inversion W1'|].
    cbn [app]. rewrite rep_fail; [reflexivity|]. now apply in_head in W1.
  - unfold matchWhole, beforeRe. cbn [rmatch]. unfold t at 1.
    rewrite lit_ok by (apply same_Forall2; [repeat constructor|exact W1]).
    apply plus_skip;
      [exact N1|exact S1|apply (letter_head _ _ _ _ W2); reflexivity|].
    rewrite lit_ok by (apply same_Forall2; [repeat constructor|exact W2]).
    apply plus_skip;
      [exact N2|exact S2|apply (letter_head _ _ _ _ W3); reflexivity|].
    rewrite lit_ok by (apply same_Forall2; [repeat constructor|exact W3]).
    apply plus_skip;
      [exact N3|exact S3|apply digit_not_ws, HD|].
    rewrite (rep_ok_all isDigit [c1; c2; c3; c4])
      by now apply fourDigits_Forall.
    now rewrite firstn_whole.
Qed.

Lemma parseType_before cy raw Y :
  beforeForm (trim raw) Y ->
  parseType cy raw =
  if 1900 <=? Y then Some (mkRange 1900 Y) else None.
Proof.
  intros (w1 & w2 & w3 & s1 & s2 & s3 & c1 & c2 & c3 & c4 &
          W1 & W2 & W3 & S1 & N1 & S2 & N2 & S3 & N3 & HD & -> & Ht).
  destruct (matchWhole_before w1 w2 w3 s1 s2 s3 c1 c2 c3 c4)
    as [E1 E2]; try assumption.
  unfold parseType. cbv zeta. rewrite Ht, E1, E2. cbn [nth].
  now rewrite parseInt10_year by exact HD.
Qed.

Lemma length4 {T : Type} (l : list T) :
  length l = 4%nat -> exists a b c d, l = [a; b; c; d].
Proof.
  destruct l as [|a [|b [|c [|d [|e l]]]]]; try discriminate.
  intros _. exists a, b, c, d. reflexivity.
Qed.

Lemma final_inv (t rest : jsstring) (caps m : list jsstring) :
  match rest with [] => Some (t :: caps) | _ :: _ => None end = Some m ->
  rest = [].
Proof. destruct rest; [reflexivity|discriminate]. Qed.

Lemma yearRange_inv cy t m :
  matchWhole yearRangeRe t = Some m -> exists Y1 Y2, boundedForm cy t Y1 Y2.
Proof.
  unfold matchWhole, yearRangeRe. cbn [rmatch]. intros H.
  apply rep_inv in H. destruct H as (ds & r0 & E0 & Hlen & Hds & H).
  apply star_inv in H. destruct H as (ws1 & r1 & -> & Hws1 & H).
  apply lit_inv in H. destruct H as (h & r2 & -> & Hh & H).
  apply star_inv in H. destruct H as (ws2 & tail & -> & Hws2 & H).
  apply length4 in Hlen. destruct Hlen as (c1 & c2 & c3 & c4 & ->).
  apply fourDigits_Forall in Hds.
  inversion Hh as [|p c w0 h' Hc Hnil]; subst. inversion Hnil; subst.
  apply ciEq_hyphen in Hc. subst c.
  assert (HE : exists Y2, rangeEnd cy tail Y2).
  { destruct (rmatch (Rep 4 isDigit) tail _ _) eqn:E.
    - apply rep_inv in E. destruct E as (ds & r3 & -> & Hlen & Hds' & E).
      apply final_inv in E. subst r3. rewrite app_nil_r.
      apply length4 in Hlen. destruct Hlen as (d1 & d2 & d3 & d4 & ->).
      apply fourDigits_Forall in Hds'.
      exists (yearOf d1 d2 d3 d4). now constructor.
    - apply lit_inv in H. destruct H as (w & r3 & -> & Hw & H).
      apply final_inv in H. subst r3. rewrite app_nil_r.
      exists cy. constructor. now apply Forall2_same. }
  destruct HE as [Y2 HE].
  exists (yearOf c1 c2 c3 c4), Y2, c1, c2, c3, c4, ws1, ws2, tail.
  repeat split; auto; apply Hds.
Qed.

Lemma before_inv t m :
  matchWhole beforeRe t = Some m -> exists Y, beforeForm t Y.
Proof.
  unfold matchWhole, beforeRe. cbn [rmatch]. intros H.
  apply lit_inv in H. destruct H as (w1 & r1 & -> & W1 & H).
  apply plus_inv in H. destruct H as (s1 & r2 & -> & N1 & S1 & H).
  apply lit_inv in H. destruct H as (w2 & r3 & -> & W2 & H).
  apply plus_inv in H. destruct H as (s2 & r4 & -> & N2 & S2 & H).
  apply lit_inv in H. destruct H as (w3 & r5 & -> & W3 & H).
  apply plus_inv in H. destruct H as (s3 & r6 & -> & N3 & S3 & H).
  apply rep_inv in H. destruct H as (ds & r7 & -> & Hlen & Hds & H).
  apply final_inv in H. subst r7. rewrite app_nil_r.
  apply length4 in Hlen. destruct Hlen as (c1 & c2 & c3 & c4 & ->).
  apply fourDigits_Forall in Hds.
  exists (yearOf c1 c2 c3 c4), w1, w2, w3, s1, s2, s3, c1, c2, c3, c4.
  repeat split; auto using Forall2_same; apply Hds.
Qed.

(** Whatever [parseType] accepts has one of the two forms. *)
Lemma parseType_some_inv cy raw r :
  parseType cy raw = Some r ->
  (exists Y1 Y2, boundedForm cy (trim raw) Y1 Y2) \/
  (exists Y, beforeForm (trim raw) Y).
Proof.
  unfold parseType. cbv zeta.
  destruct (matchWhole yearRangeRe (trim raw)) as [m|] eqn:E1.
  - intros _. left. eapply yearRange_inv. eassumption.
  - destruct (matchWhole beforeRe (trim raw)) as [m|] eqn:E2;
      [|discriminate].
    intros _. right. eapply before_inv. eassumption.
Qed.

(** [parseType] only returns well-ordered ranges. *)
Lemma parseType_ordered cy raw r :
  parseType cy raw = Some r -> rstart r <= rend r.
Proof.
  intros H. destruct (parseType_some_inv cy raw r H) as [(Y1 & Y2 & F)|(Y & F)].
  - rewrite (parseType_bounded cy raw Y1 Y2 F) in H.
    destruct (Z.leb_spec Y1 Y2); inversion H; subst. exact H0.
  - rewrite (parseType_before cy raw Y F) in H.
    destruct (Z.leb_spec 1900 Y); inversion H; subst. exact H0.
Qed.

End ParserFacts.

Import ParserFacts.

(** C3: when the trimmed input is a four-digit year [Y1], a hyphen with
    optional white space around it, and then either a four-digit year [Y2]
    or the word "present" in any letter case (for which [Y2] is the current
    year), [parseType] returns [{start: Y1, end: Y2}] if [Y1 <= Y2] and null
    if [Y1 > Y2]. *)
Theorem C3_parseType_bounded :
  forall (currentYear : Z) (rawType : jsstring) (Y1 Y2 : Z),
    boundedForm currentYear (trim rawType) Y1 Y2 ->
    (Y1 <= Y2 -> parseType currentYear rawType = Some (mkRange Y1 Y2)) /\
    (Y1 > Y2 -> parseType currentYear rawType = None).
Proof.
  intros cy raw Y1 Y2 F. rewrite (parseType_bounded cy raw Y1 Y2 F).
  destruct (Z.leb_spec Y1 Y2); split; intros; try reflexivity; lia.
Qed.

Lemma C3_witness :
  parseType 2026 (js " 2020 -  Present ") = Some (mkRange 2020 2026).
Proof.
  refine (proj1 (C3_parseType_bounded 2026 (js " 2020 -  Present ") 2020 2026
                   _) _).
  - exists 50%N, 48%N, 50%N, 48%N, (js " "), (js "  "), (js "Present").
    repeat split; try reflexivity.
    + repeat constructor.
    + repeat constructor.
    + apply EndPresent. reflexivity.
  - lia.
Defined.

(** C4, as the code has it: when the trimmed input is the words "In",
    "School", "Before" and a four-digit year YYYY, in any letter case and
    with one or more white-space characters between them, [parseType]
    returns [{start: 1900, end: YYYY}] if [YYYY >= 1900] and null if
    [YYYY < 1900]; and whatever [parseType] accepts has this form or the
    bounded form, so any other text yields null. *)
Theorem C4_parseType_before :
  forall (currentYear : Z) (rawType : jsstring),
    (forall Y, beforeForm (trim rawType) Y ->
       (1900 <= Y ->
        parseType currentYear rawType = Some (mkRange 1900 Y)) /\
       (Y < 1900 -> parseType currentYear rawType = None)) /\
    (forall r, parseType currentYear rawType = Some r ->
       (exists Y1 Y2, boundedForm currentYear (trim rawType) Y1 Y2 /\
                      Y1 <= Y2 /\ r = mkRange Y1 Y2) \/
       (exists Y, beforeForm (trim rawType) Y /\
                  1900 <= Y /\ r = mkRange 1900 Y)) /\
    ((forall Y1 Y2, ~ boundedForm currentYear (trim rawType) Y1 Y2) ->
     (forall Y, ~ beforeForm (trim rawType) Y) ->
     parseType currentYear rawType = None).
Proof.
  intros cy raw.
  assert (Inv : forall r, parseType cy raw = Some r ->
       (exists Y1 Y2, boundedForm cy (trim raw) Y1 Y2 /\
                      Y1 <= Y2 /\ r = mkRange Y1 Y2) \/
       (exists Y, beforeForm (trim raw) Y /\
                  1900 <= Y /\ r = mkRange 1900 Y)).
  { intros r H.
    destruct (parseType_some_inv cy raw r H) as [(Y1 & Y2 & F)|(Y & F)].
    - left. exists Y1, Y2. rewrite (parseType_bounded cy raw Y1 Y2 F) in H.
      destruct (Z.leb_spec Y1 Y2); inversion H; auto.
    - right. exists Y. rewrite (parseType_before cy raw Y F) in H.
      destruct (Z.leb_spec 1900 Y); inversion H; auto. }
  split; [|split].
  - intros Y F. rewrite (parseType_before cy raw Y F).
    destruct (Z.leb_spec 1900 Y); split; intros; try reflexivity; lia.
  - exact Inv.
  - intros NB NF. destruct (parseType cy raw) as [r|] eqn:E; [|reflexivity].
    destruct (Inv r eq_refl) as [(Y1 & Y2 & F & _)|(Y & F & _)].
    + now apply NB in F.
    + now apply NF in F.
Qed.

Lemma C4_witness :
  parseType 2026 (js "in  school BEFORE 1995") = Some (mkRange 1900 1995).
Proof.
  refine (proj1 (proj1 (C4_parseType_before 2026
                          (js "in  school BEFORE 1995")) 1995 _) _).
  - exists (js "in"), (js "school"), (js "BEFORE"),
           (js "  "), (js " "), (js " "), 49%N, 57%N, 57%N, 53%N.
    repeat split; try reflexivity; try discriminate; repeat constructor.
  - lia.
Defined.

(** C4 as stated fails: with two spaces after "In" the input is not the
    single-spaced phrase, and [parseType] accepts it all the same. *)
Lemma C4_counterexample :
  parseType 2026 (js "In  School Before 1995") = Some (mkRange 1900 1995) /\
  singleSpacePhrase (trim (js "In  School Before 1995")) = false.
Proof. split; vm_compute; reflexivity. Qed.

(** ** The whole run

    What [rows.forEach] leaves behind meets the assumptions made above of the
    map and the accumulators handed to the sweep. *)

Module RunFacts.
Import SortFacts ReconcileFacts ClassifyFacts ParserFacts.

Lemma classifyRow_wellFormed cy index row issues m :
  wellFormed m -> wellFormed (snd (classifyRow cy index row (issues, m))).
Proof.
  intros Hwf. unfold classifyRow; cbv zeta.
  destruct (truthy (trim (orEmpty (rowSchoolName row)))); simpl negb;
    cbv iota; [|exact Hwf].
  destruct (truthy (trim (orEmpty (rowType row)))); simpl negb; cbv iota;
    [|exact Hwf].
  destruct (parseType cy (trim (orEmpty (rowType row)))) as [r|] eqn:P;
    [|exact Hwf].
  simpl snd. intros n es e Hin He. apply mapSet_In in Hin.
  destruct Hin as [Hin|[-> ->]]; [exact (Hwf n es e Hin He)|].
  apply in_app_iff in He. destruct He as [He|[<-|[]]].
  - destruct (mapGet m (trim (orEmpty (rowSchoolName row)))) as [e0|] eqn:G;
      [|now destruct He].
    apply mapGet_In in G. exact (Hwf _ _ _ G He).
  - simpl. eapply parseType_ordered. eassumption.
Qed.

Lemma forEachRow_invariant cy rows : forall index acc,
  wellFormed (snd acc) ->
  wellFormed (snd (forEachRow cy rows index acc)) /\
  gaps (fst (forEachRow cy rows index acc)) = gaps (fst acc) /\
  overlaps (fst (forEachRow cy rows index acc)) = overlaps (fst acc).
Proof.
  induction rows as [|row rows IH]; intros index [issues m] Hwf;
    cbn [forEachRow].
  - auto.
  - pose proof (classifyRow_wellFormed cy index row issues m Hwf) as Hwf'.
    destruct (classifyRow_delta cy index row issues m)
      as (_ & _ & _ & _ & _ & Hg & Ho).
    destruct (IH (S index) _ Hwf') as (H1 & H2 & H3).
    rewrite H2, H3, Hg, Ho. auto.
Qed.

(** Every fact a run collects is a well-ordered interval, and
    classification reports no gap and no overlap. *)
Lemma classifyRows_invariant cy rows :
  wellFormed (snd (classifyRows cy rows)) /\
  gaps (fst (classifyRows cy rows)) = [] /\
  overlaps (fst (classifyRows cy rows)) = [].
Proof.
  apply (forEachRow_invariant cy rows 0 (noIssues, [])).
  intros n es e [].
Qed.

(** Hence the spans of every run are well ordered. *)
Lemma collectIssues_spans cy rows :
  (forall g, In g (gaps (collectIssues cy rows)) ->
             Gap.fromYear g <= Gap.toYear g) /\
  (forall o, In o (overlaps (collectIssues cy rows)) ->
             Overlap.overlapStart o <= Overlap.overlapEnd o).
Proof.
  unfold collectIssues.
  destruct (classifyRows_invariant cy rows) as (Hwf & G0 & O0).
  destruct (classifyRows cy rows) as [issues m]. simpl in *. split.
  - intros g Hg. apply reconcile_gaps_In in Hg. rewrite G0 in Hg.
    destruct Hg as [[]|(n & r & p & c & _ & _ & Hgt & ->)]. simpl. lia.
  - intros o Ho. apply reconcile_overlaps_In in Ho. rewrite O0 in Ho.
    destruct Ho as [[]|(n & r & p & c & Hin & Hadj & Hle & ->)]. simpl.
    apply adjacent_In in Hadj. destruct Hadj as [_ Hc].
    apply -> sortRanges_In in Hc. specialize (Hwf n r c Hin Hc). lia.
Qed.

End RunFacts.

(** ** The examples of the specification *)

Example numToString_ex :
  numToString 2006 = js "2006" /\ numToString 0 = js "0" /\
  numToString (-3) = js "-3".
Proof. repeat split. Qed.

Example singleSpacePhrase_ex :
  singleSpacePhrase (js "in school BEFORE 1995") = true.
Proof. reflexivity. Qed.

Example lincoln_gap :
  collectIssues 2026 lincolnGapRows =
  mkIssues [] [] [] [] [Gap.mk (js "Lincoln") 2006 2006 2 3] [].
Proof. vm_compute. reflexivity. Qed.

Example lincoln_overlap :
  collectIssues 2026 lincolnOverlapRows =
  mkIssues [] [] [] [] [] [Overlap.mk (js "Lincoln") 2005 2006 2 3].
Proof. vm_compute. reflexivity. Qed.

Example contiguous_ranges :
  collectIssues 2026
    [mkRow (Some (js "Lincoln")) (Some (js "u")) (Some (js "2006-2010"));
     mkRow (Some (js "Lincoln")) (Some (js "v")) (Some (js "2000-2005"))] =
  noIssues.
Proof. vm_compute. reflexivity. Qed.

Example single_fact :
  collectIssues 2026
    [mkRow (Some (js "Lincoln")) (Some (js "u")) (Some (js "2006-2010"))] =
  noIssues.
Proof. vm_compute. reflexivity. Qed.

Example passing_run :
  main 2026 (js "sheet") []
    [mkRow (Some (js "Lincoln")) (Some (js "u")) (Some (js "2006-present"))] =
  mkReport []
    [js "Checked source: sheet";
     js "CSV validation passed: no missing links, invalid ranges, gaps, or overlaps found."]
    None.
Proof. vm_compute. reflexivity. Qed.

Example empty_table : exitStatus (main 2026 (js "sheet") [] []) = 1.
Proof. reflexivity. Qed.

Example parseType_ex1 :
  parseType 2026 (js " 2000 - 2005 ") = Some (mkRange 2000 2005).
Proof. vm_compute. reflexivity. Qed.
Example parseType_ex2 :
  parseType 2026 (js "2020-Present") = Some (mkRange 2020 2026).
Proof. vm_compute. reflexivity. Qed.
Example parseType_ex3 :
  parseType 2026 (js "In School Before 1995") = Some (mkRange 1900 1995).
Proof. vm_compute. reflexivity. Qed.
Example parseType_ex4 :
  parseType 2026 (js "In School Before 1899") = None.
Proof. vm_compute. reflexivity. Qed.
Example parseType_ex5 :
  parseType 2026 (js "2005-2000") = None.
Proof. vm_compute. reflexivity. Qed.
Example parseType_ex6 :
  parseType 2026 (js "not a range") = None.
Proof. vm_compute. reflexivity. Qed.

(** ** Trimming *)

Module TrimFacts.

Lemma trimStart_ws ws s :
  allWhiteSpace ws -> trimStart (ws ++ s) = trimStart s.
Proof.
  induction 1 as [|c ws Hc _ IH]; simpl; [reflexivity|]. now rewrite Hc.
Qed.

Lemma trimStart_head s : headNot isWhiteSpace (trimStart s).
Proof.
  induction s as [|c s IH]; simpl; [exact I|].
  destruct (isWhiteSpace c) eqn:E; [exact IH|exact E].
Qed.

Lemma trimStart_fixed s : headNot isWhiteSpace s -> trimStart s = s.
Proof. destruct s as [|c s]; simpl; [reflexivity|]. now intros ->. Qed.

Lemma trimStart_split s :
  exists ws, allWhiteSpace ws /\ s = ws ++ trimStart s.
Proof.
  induction s as [|c s (ws & Hws & E)]; simpl.
  - exists []. split; [constructor|reflexivity].
  - destruct (isWhiteSpace c) eqn:Ec.
    + exists (c :: ws). split; [now constructor|]. simpl. now rewrite <- E.
    + exists []. split; [constructor|reflexivity].
Qed.

Lemma trimStart_app s t :
  trimStart s <> [] -> trimStart (s ++ t) = trimStart s ++ t.
Proof.
  induction s as [|c s IH]; simpl; [congruence|].
  destruct (isWhiteSpace c); [exact IH|reflexivity].
Qed.

Lemma trimStart_nil_app s t :
  trimStart s = [] -> trimStart (s ++ t) = trimStart t.
Proof.
  induction s as [|c s IH]; simpl; [reflexivity|].
  destruct (isWhiteSpace c); [exact IH|discriminate].
Qed.

Lemma allWhiteSpace_trimStart ws : allWhiteSpace ws -> trimStart ws = [].
Proof.
  intros H. rewrite <- (app_nil_r ws). now rewrite trimStart_ws.
Qed.

Lemma trimEnd_ws s ws : allWhiteSpace ws -> trimEnd (s ++ ws) = trimEnd s.
Proof.
  intros H. unfold trimEnd. rewrite rev_app_distr, trimStart_ws;
    [reflexivity|]. now apply Forall_rev.
Qed.

(** White space around a text does not change what it trims to. *)
Lemma trim_pad a s b :
  allWhiteSpace a -> allWhiteSpace b -> trim (a ++ s ++ b) = trim s.
Proof.
  intros Ha Hb. unfold trim. rewrite trimStart_ws by exact Ha.
  destruct (trimStart s) as [|c u] eqn:E.
  - rewrite trimStart_nil_app by exact E.
    now rewrite allWhiteSpace_trimStart.
  - rewrite trimStart_app by congruence. rewrite E. now apply trimEnd_ws.
Qed.

Lemma trimEnd_split u :
  exists ws, allWhiteSpace ws /\ u = trimEnd u ++ ws.
Proof.
  destruct (trimStart_split (rev u)) as (ws & Hws & E).
  exists (rev ws). split; [now apply Forall_rev|].
  unfold trimEnd. rewrite <- rev_app_distr, <- E. symmetry. apply rev_involutive.
Qed.

Lemma trim_trimmed s : trimmed (trim s).
Proof.
  unfold trimmed, trim. split.
  - destruct (trimEnd_split (trimStart s)) as (ws & _ & E).
    pose proof (trimStart_head s) as H. rewrite E in H.
    destruct (trimEnd (trimStart s)); [exact I|exact H].
  - unfold trimEnd. rewrite rev_involutive. apply trimStart_head.
Qed.

Lemma trimmed_fixed s : trimmed s -> trim s = s.
Proof.
  intros [H1 H2]. unfold trim, trimEnd.
  rewrite (trimStart_fixed s H1), (trimStart_fixed (rev s) H2).
  apply rev_involutive.
Qed.

Lemma trim_idem s : trim (trim s) = trim s.
Proof. apply trimmed_fixed, trim_trimmed. Qed.

End TrimFacts.

(** ** More on the row classifier *)

Module ClassifyMore.
Import ClassifyFacts TrimFacts.

(** What one call of the callback does, field by field. *)
Lemma classifyRow_eq cy index row issues m :
  classifyRow cy index row (issues, m) =
  (mkIssues
     (missingSchoolName issues ++
      if truthy (nameOf row) then []
      else [MissingSchoolName.mk (Z.of_nat index + 2)])
     (missingLink issues ++
      if truthy (nameOf row) && negb (truthy (linkOf row))
      then [MissingLink.mk (Z.of_nat index + 2) (nameOf row) (typeOf row)]
      else [])
     (missingType issues ++
      if truthy (nameOf row) && negb (truthy (typeOf row))
      then [MissingType.mk (Z.of_nat index + 2) (nameOf row)]
      else [])
     (invalidType issues ++
      if truthy (nameOf row) && truthy (typeOf row)
      then match parseType cy (typeOf row) with
           | None => [InvalidType.mk (Z.of_nat index + 2) (nameOf row)
                        (typeOf row)]
           | Some _ => []
           end
      else [])
     (gaps issues) (overlaps issues),
   if truthy (nameOf row) && truthy (typeOf row)
   then match parseType cy (typeOf row) with
        | Some r =>
            mapSet m (nameOf row)
              (match mapGet m (nameOf row) with Some e => e | None => [] end
               ++ [RangeEntry.mk (Z.of_nat index + 2) (rstart r) (rend r)
                     (typeOf row) (linkOf row)])
        | None => m
        end
   else m).
Proof.
  unfold classifyRow, nameOf, linkOf, typeOf; cbv zeta.
  destruct issues as [a b c d e f]; cbn [missingSchoolName missingLink
    missingType invalidType gaps overlaps].
  destruct (truthy (trim (orEmpty (rowSchoolName row))));
    destruct (truthy (trim (orEmpty (rowLink row))));
    destruct (truthy (trim (orEmpty (rowType row))));
    cbn [negb andb]; cbv iota;
    try destruct (parseType cy (trim (orEmpty (rowType row))));
    cbn [missingSchoolName missingLink missingType invalidType gaps overlaps];
    rewrite ?app_nil_r; reflexivity.
Qed.

Section Fold.
Variable cy : Z.
Context {R : Type}.
Variable X : Issues * SchoolMap -> list R.
Variable f : nat -> Row -> list R.
Hypothesis step :
  forall k row acc, X (classifyRow cy k row acc) = X acc ++ f k row.

Lemma forEachRow_In rows : forall k acc r,
  In r (X (forEachRow cy rows k acc)) <->
  In r (X acc) \/
  exists i row, nth_error rows i = Some row /\ In r (f (k + i) row).
Proof.
  induction rows as [|row0 rows IH]; intros k acc r; cbn [forEachRow].
  - split; [auto|]. intros [H|(i & row & H & _)]; [exact H|].
    destruct i; discriminate.
  - rewrite IH, step, in_app_iff. split.
    + intros [[H|H]|(i & row & Hn & Hr)].
      * auto.
      * right. exists 0%nat, row0. rewrite Nat.add_0_r. auto.
      * right. exists (S i), row. rewrite <- Nat.add_succ_comm. auto.
    + intros [H|(i & row & Hn & Hr)]; [auto|].
      destruct i as [|i]; simpl in Hn.
      * inversion Hn; subst. rewrite Nat.add_0_r in Hr. auto.
      * right. exists i, row. rewrite Nat.add_succ_comm. auto.
Qed.

Variable line : R -> Z.
Hypothesis line_f :
  forall k row r, In r (f k row) -> line r = Z.of_nat k + 2.
Hypothesis one_f : forall k row, (length (f k row) <= 1)%nat.

Lemma increasing_snoc l x :
  increasing l -> Forall (fun y => y < x) l -> increasing (l ++ [x]).
Proof.
  unfold increasing. induction 1 as [|y l Hs IH Hy]; intros Hx; simpl.
  - repeat constructor.
  - inversion Hx; subst. constructor; [now apply IH|].
    apply Forall_app. split; [exact Hy|]. repeat constructor. assumption.
Qed.

Lemma forEachRow_lines rows : forall k acc,
  increasing (List.map line (X acc)) ->
  Forall (fun r => 2 <= line r < Z.of_nat k + 2) (X acc) ->
  increasing (List.map line (X (forEachRow cy rows k acc))) /\
  Forall (fun r => 2 <= line r < Z.of_nat (k + length rows) + 2)
         (X (forEachRow cy rows k acc)).
Proof.
  induction rows as [|row0 rows IH]; intros k acc Hinc Hb; cbn [forEachRow].
  - rewrite Nat.add_0_r. auto.
  - cbn [length]. rewrite <- Nat.add_succ_comm. apply IH; rewrite step.
    + pose proof (one_f k row0) as H1. pose proof (line_f k row0) as H2.
      destruct (f k row0) as [|r [|r' l]]; cbn [length] in H1; try lia.
      * now rewrite app_nil_r.
      * rewrite map_app. cbn [List.map]. apply increasing_snoc; [exact Hinc|].
        rewrite Forall_map. rewrite (H2 r (or_introl eq_refl)).
        eapply Forall_impl; [|exact Hb]. cbv beta. intros; lia.
    + apply Forall_app. split.
      * eapply Forall_impl; [|exact Hb]. cbv beta. intros; lia.
      * apply Forall_forall. intros r Hr.
        rewrite (line_f k row0 r Hr). lia.
Qed.

End Fold.

Lemma forEachRow_inv cy (P : nat -> Issues * SchoolMap -> Prop) :
  (forall k row acc, P k acc -> P (S k) (classifyRow cy k row acc)) ->
  forall rows k acc, P k acc -> P (k + length rows)%nat (forEachRow cy rows k acc).
Proof.
  intros Hstep. induction rows as [|row rows IH]; intros k acc H;
    cbn [forEachRow length].
  - now rewrite Nat.add_0_r.
  - rewrite <- Nat.add_succ_comm. apply IH, Hstep, H.
Qed.

Lemma truthy_true s : truthy s = true <-> s <> [].
Proof. destruct s; simpl; split; congruence. Qed.

Lemma eqb_neq a b : JsString.eqb a b = false -> a <> b.
Proof.
  intros H E. apply eqb_eq in E. congruence.
Qed.

Lemma mapGet_None_keys m k : mapGet m k = None -> ~ In k (keys m).
Proof.
  induction m as [|[k' v'] m IH]; simpl; [tauto|].
  destruct (JsString.eqb k' k) eqn:E; [discriminate|].
  intros H [H1|H1]; [now apply eqb_neq in E|now apply IH].
Qed.

Lemma keys_mapSet m k v :
  keys (mapSet m k v) =
  match mapGet m k with Some _ => keys m | None => keys m ++ [k] end.
Proof.
  induction m as [|[k' v'] m IH]; simpl; [reflexivity|].
  destruct (JsString.eqb k' k) eqn:E; simpl; [reflexivity|].
  rewrite IH. now destruct (mapGet m k).
Qed.

Lemma In_mapSet_new m k v : In (k, v) (mapSet m k v).
Proof. apply mapGet_In, mapGet_mapSet. Qed.

Lemma hasFact_mapSet m k x n e :
  hasFact (mapSet m k
             (match mapGet m k with Some e => e | None => [] end ++ [x])) n e
  <-> hasFact m n e \/ (n = k /\ e = x).
Proof.
  split.
  - intros (es & Hin & He). apply mapSet_In in Hin.
    destruct Hin as [Hin|[-> ->]]; [left; exists es; auto|].
    apply in_app_iff in He. destruct He as [He|[<-|[]]]; [|auto].
    destruct (mapGet m k) as [e0|] eqn:G; [|now destruct He].
    left. exists e0. split; [now apply mapGet_In|exact He].
  - intros [(es & Hin & He)|[-> ->]].
    + induction m as [|[k' v'] m IH]; [destruct Hin|].
      simpl in *. destruct (JsString.eqb k' k) eqn:E.
      * destruct Hin as [Hin|Hin].
        -- inversion Hin; subst. exists (es ++ [x]). split; [now left|].
           apply in_app_iff. auto.
        -- exists es. split; [now right|exact He].
      * destruct Hin as [Hin|Hin].
        -- exists es. split; [now left|exact He].
        -- destruct (IH Hin) as (es' & Hin' & He').
           exists es'. split; [now right|exact He'].
    + eexists. split; [apply In_mapSet_new|]. apply in_app_iff. simpl. auto.
Qed.

Lemma allFacts_mapSet m k x :
  Permutation
    (allFacts (mapSet m k
       (match mapGet m k with Some e => e | None => [] end ++ [x])))
    (x :: allFacts m).
Proof.
  unfold allFacts. induction m as [|[k' v'] m IH]; simpl.
  - apply Permutation_refl.
  - destruct (JsString.eqb k' k) eqn:E; simpl.
    + rewrite <- app_assoc. simpl. symmetry. apply Permutation_middle.
    + eapply perm_trans; [apply Permutation_app_head, IH|].
      symmetry. apply Permutation_middle.
Qed.

Lemma In_allFacts m n es e : In (n, es) m -> In e es -> In e (allFacts m).
Proof.
  intros H1 H2. unfold allFacts. apply in_flat_map. exists (n, es). auto.
Qed.

(** The shape of the map after the rows with indices below [k]. *)
Lemma mapInv_step cy k row issues m :
  (NoDup (keys m) /\
   NoDup (List.map RangeEntry.line (allFacts m)) /\
   Forall (fun e => 2 <= RangeEntry.line e < Z.of_nat k + 2) (allFacts m) /\
   forall n es, In (n, es) m ->
     es <> [] /\ increasing (List.map RangeEntry.line es) /\
     n <> [] /\ trimmed n) ->
  let m' := snd (classifyRow cy k row (issues, m)) in
  NoDup (keys m') /\
  NoDup (List.map RangeEntry.line (allFacts m')) /\
  Forall (fun e => 2 <= RangeEntry.line e < Z.of_nat (S k) + 2) (allFacts m') /\
  forall n es, In (n, es) m' ->
    es <> [] /\ increasing (List.map RangeEntry.line es) /\
    n <> [] /\ trimmed n.
Proof.
  intros (Hk & Hl & Hb & He) m'. subst m'. rewrite classifyRow_eq. cbn [snd].
  assert (Hb' : Forall (fun e => 2 <= RangeEntry.line e < Z.of_nat (S k) + 2)
                       (allFacts m))
    by (eapply Forall_impl; [|exact Hb]; cbv beta; intros; lia).
  destruct (truthy (nameOf row)) eqn:Tn; cbn [andb]; [|auto].
  destruct (truthy (typeOf row)) eqn:Tt; [|auto].
  destruct (parseType cy (typeOf row)) as [r|]; [|auto].
  set (x := RangeEntry.mk _ _ _ _ _).
  pose proof (allFacts_mapSet m (nameOf row) x) as Hperm.
  assert (Hx : ~ In (RangeEntry.line x) (List.map RangeEntry.line (allFacts m))).
  { intros H. apply in_map_iff in H. destruct H as (e & E & Hin).
    rewrite Forall_forall in Hb. specialize (Hb e Hin).
    subst x. simpl in E. lia. }
  repeat match goal with |- _ /\ _ => split end.
  - rewrite keys_mapSet. destruct (mapGet m (nameOf row)) eqn:G; [exact Hk|].
    apply (Permutation_NoDup (l := nameOf row :: keys m)).
    + apply Permutation_cons_append.
    + constructor; [now apply mapGet_None_keys|exact Hk].
  - eapply Permutation_NoDup;
      [symmetry; apply Permutation_map; exact Hperm|].
    simpl. constructor; assumption.
  - eapply Permutation_Forall; [symmetry; exact Hperm|].
    constructor; [subst x; simpl; lia|exact Hb'].
  - intros n es Hin. apply mapSet_In in Hin.
    destruct Hin as [Hin|[-> ->]]; [now apply He|].
    repeat match goal with |- _ /\ _ => split end.
    + intros E. apply app_eq_nil in E. destruct E as [_ E]. discriminate.
    + rewrite map_app. apply increasing_snoc.
      * destruct (mapGet m (nameOf row)) as [e0|] eqn:G; [|constructor].
        apply mapGet_In in G. now apply He in G.
      * rewrite Forall_map. apply Forall_forall. intros e Hin.
        destruct (mapGet m (nameOf row)) as [e0|] eqn:G; [|destruct Hin].
        apply mapGet_In in G. pose proof (In_allFacts _ _ _ _ G Hin) as Ha.
        rewrite Forall_forall in Hb. specialize (Hb e Ha).
        subst x. simpl. lia.
    + now apply truthy_true.
    + apply trim_trimmed.
Qed.

Lemma classifyRows_map cy rows :
  let m := snd (classifyRows cy rows) in
  NoDup (keys m) /\
  NoDup (List.map RangeEntry.line (allFacts m)) /\
  Forall (fun e => 2 <= RangeEntry.line e < Z.of_nat (length rows) + 2)
         (allFacts m) /\
  forall n es, In (n, es) m ->
    es <> [] /\ increasing (List.map RangeEntry.line es) /\
    n <> [] /\ trimmed n.
Proof.
  apply (forEachRow_inv cy
           (fun k acc =>
              NoDup (keys (snd acc)) /\
              NoDup (List.map RangeEntry.line (allFacts (snd acc))) /\
              Forall (fun e => 2 <= RangeEntry.line e < Z.of_nat k + 2)
                     (allFacts (snd acc)) /\
              forall n es, In (n, es) (snd acc) ->
                es <> [] /\ increasing (List.map RangeEntry.line es) /\
                n <> [] /\ trimmed n)
           ltac:(intros k row [issues m] H; exact (mapInv_step cy k row issues m H))
           rows 0%nat (noIssues, [])).
  simpl. repeat split; try constructor. all: destruct H.
Qed.

Ltac step_eq := intros k row [issues m]; rewrite classifyRow_eq; reflexivity.

Lemma missingSchoolName_In cy rows r :
  In r (missingSchoolName (fst (classifyRows cy rows))) <->
  exists i row,
    nth_error rows i = Some row /\ nameOf row = [] /\
    r = MissingSchoolName.mk (Z.of_nat i + 2).
Proof.
  unfold classifyRows.
  rewrite (forEachRow_In cy (fun acc => missingSchoolName (fst acc))
             (fun k row => if truthy (nameOf row) then []
                           else [MissingSchoolName.mk (Z.of_nat k + 2)])
             ltac:(step_eq)).
  simpl. split.
  - intros [[]|(i & row & Hn & Hr)]. exists i, row.
    destruct (truthy (nameOf row)) eqn:T; [destruct Hr|].
    apply truthy_false in T. destruct Hr as [<-|[]]. auto.
  - intros (i & row & Hn & Hname & ->). right. exists i, row.
    rewrite Hname. simpl. auto.
Qed.

Lemma missingLink_In cy rows r :
  In r (missingLink (fst (classifyRows cy rows))) <->
  exists i row,
    nth_error rows i = Some row /\ nameOf row <> [] /\ linkOf row = [] /\
    r = MissingLink.mk (Z.of_nat i + 2) (nameOf row) (typeOf row).
Proof.
  unfold classifyRows.
  rewrite (forEachRow_In cy (fun acc => missingLink (fst acc))
             (fun k row =>
                if truthy (nameOf row) && negb (truthy (linkOf row))
                then [MissingLink.mk (Z.of_nat k + 2) (nameOf row) (typeOf row)]
                else [])
             ltac:(step_eq)).
  simpl. split.
  - intros [[]|(i & row & Hn & Hr)]. exists i, row.
    destruct (truthy (nameOf row)) eqn:T; [|destruct Hr].
    destruct (truthy (linkOf row)) eqn:L; [destruct Hr|].
    apply truthy_true in T. apply truthy_false in L.
    destruct Hr as [<-|[]]. auto.
  - intros (i & row & Hn & Hname & Hlink & ->). right. exists i, row.
    apply truthy_true in Hname. rewrite Hname, Hlink. simpl. auto.
Qed.

Lemma missingType_In cy rows r :
  In r (missingType (fst (classifyRows cy rows))) <->
  exists i row,
    nth_error rows i = Some row /\ nameOf row <> [] /\ typeOf row = [] /\
    r = MissingType.mk (Z.of_nat i + 2) (nameOf row).
Proof.
  unfold classifyRows.
  rewrite (forEachRow_In cy (fun acc => missingType (fst acc))
             (fun k row =>
                if truthy (nameOf row) && negb (truthy (typeOf row))
                then [MissingType.mk (Z.of_nat k + 2) (nameOf row)]
                else [])
             ltac:(step_eq)).
  simpl. split.
  - intros [[]|(i & row & Hn & Hr)]. exists i, row.
    destruct (truthy (nameOf row)) eqn:T; [|destruct Hr].
    destruct (truthy (typeOf row)) eqn:L; [destruct Hr|].
    apply truthy_true in T. apply truthy_false in L.
    destruct Hr as [<-|[]]. auto.
  - intros (i & row & Hn & Hname & Htype & ->). right. exists i, row.
    apply truthy_true in Hname. rewrite Hname, Htype. simpl. auto.
Qed.

Lemma invalidType_In cy rows r :
  In r (invalidType (fst (classifyRows cy rows))) <->
  exists i row,
    nth_error rows i = Some row /\ nameOf row <> [] /\ typeOf row <> [] /\
    parseType cy (typeOf row) = None /\
    r = InvalidType.mk (Z.of_nat i + 2) (nameOf row) (typeOf row).
Proof.
  unfold classifyRows.
  rewrite (forEachRow_In cy (fun acc => invalidType (fst acc))
             (fun k row =>
                if truthy (nameOf row) && truthy (typeOf row)
                then match parseType cy (typeOf row) with
                     | None => [InvalidType.mk (Z.of_nat k + 2) (nameOf row)
                                  (typeOf row)]
                     | Some _ => []
                     end
                else [])
             ltac:(step_eq)).
  simpl. split.
  - intros [[]|(i & row & Hn & Hr)]. exists i, row.
    destruct (truthy (nameOf row)) eqn:T; [|destruct Hr].
    destruct (truthy (typeOf row)) eqn:L; [|destruct Hr].
    destruct (parseType cy (typeOf row)) eqn:P; [destruct Hr|].
    apply truthy_true in T. apply truthy_true in L.
    destruct Hr as [<-|[]]. auto.
  - intros (i & row & Hn & Hname & Htype & Hp & ->). right. exists i, row.
    apply truthy_true in Hname. apply truthy_true in Htype.
    rewrite Hname, Htype, Hp. simpl. auto.
Qed.

Lemma forEachRow_hasFact cy rows : forall k acc n e,
  hasFact (snd (forEachRow cy rows k acc)) n e <->
  hasFact (snd acc) n e \/
  exists i row r,
    nth_error rows i = Some row /\ nameOf row = n /\ n <> [] /\
    parseType cy (typeOf row) = Some r /\
    e = RangeEntry.mk (Z.of_nat (k + i) + 2) (rstart r) (rend r)
          (typeOf row) (linkOf row).
Proof.
  induction rows as [|row0 rows IH]; intros k [issues m] n e;
    cbn [forEachRow].
  - split; [auto|]. intros [H|(i & row & r & H & _)]; [exact H|].
    destruct i; discriminate.
  - rewrite IH, classifyRow_eq. cbn [snd].
    assert (Hstep :
      hasFact
        (if truthy (nameOf row0) && truthy (typeOf row0)
         then match parseType cy (typeOf row0) with
              | Some r =>
                  mapSet m (nameOf row0)
                    (match mapGet m (nameOf row0) with
                     | Some e => e | None => [] end
                     ++ [RangeEntry.mk (Z.of_nat k + 2) (rstart r) (rend r)
                           (typeOf row0) (linkOf row0)])
              | None => m
              end
         else m) n e <->
      hasFact m n e \/
      exists r, nameOf row0 = n /\ n <> [] /\
                parseType cy (typeOf row0) = Some r /\
                e = RangeEntry.mk (Z.of_nat k + 2) (rstart r) (rend r)
                      (typeOf row0) (linkOf row0)).
    { destruct (truthy (nameOf row0)) eqn:T; cbn [andb].
      - destruct (truthy (typeOf row0)) eqn:L.
        + destruct (parseType cy (typeOf row0)) as [r|] eqn:P.
          * rewrite hasFact_mapSet. apply truthy_true in T. split.
            -- intros [H|[-> ->]]; [auto|]. right. exists r. auto.
            -- intros [H|(r' & <- & _ & E & ->)]; [auto|].
               inversion E; subst. auto.
          * split; [auto|]. intros [H|(r & _ & _ & E & _)];
              [exact H|discriminate].
        + split; [auto|]. intros [H|(r & _ & _ & E & _)]; [exact H|].
          apply truthy_false in L. rewrite L, parseType_empty in E.
          discriminate.
      - split; [auto|]. intros [H|(r & <- & Hne & _)]; [exact H|].
        apply truthy_false in T. congruence. }
    rewrite Hstep. split.
    + intros [[H|(r & H1 & H2 & H3 & H4)]|(i & row & r & Hn & H)].
      * auto.
      * right. exists 0%nat, row0, r. rewrite Nat.add_0_r. auto.
      * right. exists (S i), row, r. rewrite <- Nat.add_succ_comm. auto.
    + intros [H|(i & row & r & Hn & H)]; [auto|].
      destruct i as [|i]; simpl in Hn.
      * inversion Hn; subst. rewrite Nat.add_0_r in H. left. right.
        exists r. exact H.
      * right. exists i, row, r. rewrite Nat.add_succ_comm. auto.
Qed.

(** Each row adds one record to exactly one of the three exclusive
    outcomes or one fact. *)
Lemma forEachRow_total cy rows : forall k acc,
  (length (missingSchoolName (fst (forEachRow cy rows k acc))) +
   length (missingType (fst (forEachRow cy rows k acc))) +
   length (invalidType (fst (forEachRow cy rows k acc))) +
   length (allFacts (snd (forEachRow cy rows k acc))) =
   length (missingSchoolName (fst acc)) + length (missingType (fst acc)) +
   length (invalidType (fst acc)) + length (allFacts (snd acc)) +
   length rows)%nat.
Proof.
  induction rows as [|row rows IH]; intros k [issues m]; cbn [forEachRow].
  - cbn [length]. lia.
  - rewrite IH, classifyRow_eq. cbn [fst snd missingSchoolName missingType
      invalidType length]. rewrite !length_app.
    destruct (truthy (nameOf row)); cbn [andb negb length]; [|lia].
    destruct (truthy (typeOf row)); cbn [andb negb length]; [|lia].
    destruct (parseType cy (typeOf row)) as [r|]; cbn [length]; [|lia].
    rewrite (Permutation_length (allFacts_mapSet m (nameOf row) _)).
    cbn [length]. lia.
Qed.

End ClassifyMore.

(** ** More on the sort and the sweep *)

Module SweepMore.
Import SortFacts ReconcileFacts.

Lemma leR_start a b : leR a b -> RangeEntry.start a <= RangeEntry.start b.
Proof. rewrite compareRanges_le. lia. Qed.

Lemma sortRanges_strongly l : StronglySorted leR (sortRanges l).
Proof.
  apply Sorted_StronglySorted; [|apply sortRanges_sorted].
  intros a b c. apply leR_trans.
Qed.

Lemma strongly_app {T : Type} (R : T -> T -> Prop) l1 : forall l2 a b,
  StronglySorted R (l1 ++ l2) -> In a l1 -> In b l2 -> R a b.
Proof.
  induction l1 as [|x l1 IH]; intros l2 a b H Ha Hb; [destruct Ha|].
  simpl in H. inversion H as [|? ? Hs Hall]; subst.
  destruct Ha as [->|Ha]; [|now apply (IH l2)].
  rewrite Forall_forall in Hall. apply Hall, in_app_iff. auto.
Qed.

Lemma adjacent_app {T : Type} (p : list T) x z r :
  adjacent (p ++ x :: z :: r) x z.
Proof.
  exists (length p). split.
  - now rewrite nth_error_app2, Nat.sub_diag by lia.
  - rewrite nth_error_app2 by lia.
    now replace (S (length p) - length p)%nat with 1%nat by lia.
Qed.

Lemma adjacent_tail {T : Type} (h : T) l p c :
  adjacent l p c -> adjacent (h :: l) p c.
Proof. intros [i [H1 H2]]. exists (S i). auto. Qed.

Lemma two_in_split {T : Type} (a b : T) l :
  In a l -> In b l -> a <> b ->
  exists s1 s2 s3,
    l = s1 ++ a :: s2 ++ b :: s3 \/ l = s1 ++ b :: s2 ++ a :: s3.
Proof.
  intros Ha Hb Hne. apply in_split in Ha. destruct Ha as (t1 & t2 & ->).
  apply in_app_iff in Hb. destruct Hb as [Hb|[Hb|Hb]]; [|congruence|].
  - apply in_split in Hb. destruct Hb as (u1 & u2 & ->).
    exists u1, u2, t2. right. now rewrite <- app_assoc.
  - apply in_split in Hb. destruct Hb as (u1 & u2 & ->).
    exists t1, u1, u2. now left.
Qed.

(** In a sorted array, two facts that share a year make the earlier one
    overlap its right neighbour. *)
Lemma sorted_overlap l s1 x s2 x' s3 y :
  StronglySorted leR l -> l = s1 ++ x :: s2 ++ x' :: s3 ->
  covers x y -> covers x' y ->
  exists z, adjacent l x z /\ RangeEntry.start z <= RangeEntry.end_ x.
Proof.
  unfold covers. intros Hs -> Hx Hx'. destruct s2 as [|z s2]; simpl.
  - exists x'. split; [apply adjacent_app|lia].
  - exists z. split; [apply adjacent_app|].
    assert (leR z x').
    { assert (E : s1 ++ x :: (z :: s2) ++ x' :: s3 =
                  (s1 ++ x :: z :: s2) ++ x' :: s3)
        by (rewrite <- app_assoc; reflexivity).
      rewrite E in Hs.
      apply (strongly_app leR (s1 ++ x :: z :: s2) (x' :: s3) z x' Hs).
      - apply in_app_iff. simpl. auto.
      - now left. }
    apply leR_start in H. lia.
Qed.

(** A year between the start of the head and the end of some fact, and
    in the range of none, falls strictly between two neighbours. *)
Lemma uncovered_between l : forall h l' y,
  l = h :: l' -> RangeEntry.start h <= y ->
  (exists b, In b l /\ y <= RangeEntry.end_ b) ->
  (forall e, In e l -> ~ covers e y) ->
  exists p c, adjacent l p c /\
              RangeEntry.end_ p < y < RangeEntry.start c.
Proof.
  unfold covers.
  induction l as [|h0 l IH]; intros h l' y E Hh (b & Hb & Hyb) Hun;
    inversion E; subst.
  assert (Hend : RangeEntry.end_ h < y).
  { specialize (Hun h (or_introl eq_refl)). lia. }
  destruct Hb as [->|Hb]; [lia|].
  destruct l' as [|c l'']; [destruct Hb|].
  destruct (Z.lt_ge_cases y (RangeEntry.start c)) as [Hlt|Hge].
  - exists h, c. split; [apply (adjacent_app []) |lia].
  - destruct (IH c l'' y eq_refl Hge) as (p & q & Hadj & Hpq).
    + exists b. auto.
    + intros e He. apply Hun. now right.
    + exists p, q. split; [now apply adjacent_tail|exact Hpq].
Qed.

(** A chain of well-ordered facts, each starting the year after its left
    neighbour ends. *)
Lemma chain_after h l :
  (forall p c, adjacent (h :: l) p c ->
               RangeEntry.start c = RangeEntry.end_ p + 1) ->
  (forall e, In e (h :: l) -> RangeEntry.start e <= RangeEntry.end_ e) ->
  forall e, In e l -> RangeEntry.end_ h < RangeEntry.start e.
Proof.
  revert h. induction l as [|c l IH]; intros h Hch Hwf e He; [destruct He|].
  assert (Hc : RangeEntry.start c = RangeEntry.end_ h + 1)
    by (apply Hch, (adjacent_app [])).
  destruct He as [->|He]; [lia|].
  assert (RangeEntry.end_ c < RangeEntry.start e).
  { apply (IH c); auto.
    - intros p q Hadj. now apply Hch, adjacent_tail.
    - intros e' He'. apply Hwf. now right. }
  specialize (Hwf c (or_intror (or_introl eq_refl))). lia.
Qed.

Lemma chain_unique l :
  (forall p c, adjacent l p c ->
               RangeEntry.start c = RangeEntry.end_ p + 1) ->
  (forall e, In e l -> RangeEntry.start e <= RangeEntry.end_ e) ->
  forall y e e', In e l -> In e' l -> covers e y -> covers e' y -> e = e'.
Proof.
  unfold covers.
  induction l as [|h l IH]; intros Hch Hwf y e e' He He' Hc Hc';
    [destruct He|].
  pose proof (chain_after h l Hch Hwf) as Haft.
  destruct He as [->|He]; destruct He' as [->|He']; try reflexivity.
  - specialize (Haft e' He'). lia.
  - specialize (Haft e He). lia.
  - apply (IH (fun p c H => Hch p c (adjacent_tail h l p c H))
              (fun e0 H => Hwf e0 (or_intror H)) y); assumption.
Qed.

Lemma chain_cover l :
  (forall p c, adjacent l p c ->
               RangeEntry.start c = RangeEntry.end_ p + 1) ->
  (forall e, In e l -> RangeEntry.start e <= RangeEntry.end_ e) ->
  forall y a b, In a l -> In b l ->
    RangeEntry.start a <= y <= RangeEntry.end_ b ->
    exists e, In e l /\ covers e y.
Proof.
  unfold covers.
  induction l as [|h l IH]; intros Hch Hwf y a b Ha Hb Hy; [destruct Ha|].
  pose proof (chain_after h l Hch Hwf) as Haft.
  assert (Hha : RangeEntry.start h <= RangeEntry.start a).
  { destruct Ha as [->|Ha]; [lia|]. specialize (Haft a Ha).
    specialize (Hwf h (or_introl eq_refl)). lia. }
  destruct (Z.le_gt_cases y (RangeEntry.end_ h)) as [Hle|Hgt].
  - exists h. split; [now left|lia].
  - destruct Hb as [->|Hb]; [lia|].
    destruct l as [|c l]; [destruct Hb|].
    assert (Hc : RangeEntry.start c = RangeEntry.end_ h + 1)
      by (apply Hch, (adjacent_app [])).
    destruct (IH (fun p q H => Hch p q (adjacent_tail h _ p q H))
                 (fun e0 H => Hwf e0 (or_intror H)) y c b)
      as (e & He & Hce); [now left|exact Hb|lia|].
    exists e. split; [now right|exact Hce].
Qed.

Lemma sweep_others n rest : forall p a,
  missingSchoolName (sweep n p rest a) = missingSchoolName a /\
  missingLink (sweep n p rest a) = missingLink a /\
  missingType (sweep n p rest a) = missingType a /\
  invalidType (sweep n p rest a) = invalidType a.
Proof.
  induction rest as [|c rest IH]; intros p a; simpl; [auto|].
  destruct (IH c (checkPair n p c a)) as (H1 & H2 & H3 & H4).
  destruct (checkPair_others n p c a) as (E1 & E2 & E3 & E4).
  rewrite H1, H2, H3, H4. auto.
Qed.

(** The sweep leaves the four lists of the classifier alone. *)
Lemma reconcile_others m : forall a,
  missingSchoolName (fst (reconcile m a)) = missingSchoolName a /\
  missingLink (fst (reconcile m a)) = missingLink a /\
  missingType (fst (reconcile m a)) = missingType a /\
  invalidType (fst (reconcile m a)) = invalidType a.
Proof.
  induction m as [|[n ranges] m IH]; intros a; simpl; [auto|].
  specialize (IH (sweepSchool n (sortRanges ranges) a)).
  destruct (reconcile m (sweepSchool n (sortRanges ranges) a)) as [i2 r2].
  simpl in *. destruct IH as (H1 & H2 & H3 & H4).
  rewrite H1, H2, H3, H4.
  destruct (sortRanges ranges) as [|p rest]; simpl; [auto|].
  apply sweep_others.
Qed.

End SweepMore.

(** ** What a run records, row by row *)

Import TrimFacts ClassifyMore SweepMore.

(** The four lists of the classifier, as they are reported, hold exactly
    the rows at fault: a row without a school name is in
    [missingSchoolName] and nowhere else; a named row without a link is in
    [missingLink], whatever its type; a named row without a type is in
    [missingType]; a named row whose type does not parse is in
    [invalidType].  Each record carries the row's line, [index + 2], and
    the trimmed fields. *)
Theorem issue_lists_exact :
  forall (cy : Z) (rows : list Row),
    (forall r, In r (missingSchoolName (collectIssues cy rows)) <->
       exists i row,
         nth_error rows i = Some row /\ nameOf row = [] /\
         r = MissingSchoolName.mk (Z.of_nat i + 2)) /\
    (forall r, In r (missingLink (collectIssues cy rows)) <->
       exists i row,
         nth_error rows i = Some row /\ nameOf row <> [] /\
         linkOf row = [] /\
         r = MissingLink.mk (Z.of_nat i + 2) (nameOf row) (typeOf row)) /\
    (forall r, In r (missingType (collectIssues cy rows)) <->
       exists i row,
         nth_error rows i = Some row /\ nameOf row <> [] /\
         typeOf row = [] /\
         r = MissingType.mk (Z.of_nat i + 2) (nameOf row)) /\
    (forall r, In r (invalidType (collectIssues cy rows)) <->
       exists i row,
         nth_error rows i = Some row /\ nameOf row <> [] /\
         typeOf row <> [] /\ parseType cy (typeOf row) = None /\
         r = InvalidType.mk (Z.of_nat i + 2) (nameOf row) (typeOf row)).
Proof.
  intros cy rows. unfold collectIssues.
  pose proof (missingSchoolName_In cy rows) as H1.
  pose proof (missingLink_In cy rows) as H2.
  pose proof (missingType_In cy rows) as H3.
  pose proof (invalidType_In cy rows) as H4.
  destruct (classifyRows cy rows) as [issues m]. cbn [fst] in *.
  destruct (reconcile_others m issues) as (E1 & E2 & E3 & E4).
  rewrite E1, E2, E3, E4. auto.
Qed.

(** The map holds exactly the facts of the rows that pass: a fact is held
    under a school name if and only if some row has that (non-empty) trimmed
    name and a type that parses, and the fact is that row's line, parsed
    range, trimmed type and trimmed link. *)
Theorem facts_exact :
  forall (cy : Z) (rows : list Row) (schoolName : jsstring)
         (e : RangeEntry.t),
    hasFact (snd (classifyRows cy rows)) schoolName e <->
    exists i row r,
      nth_error rows i = Some row /\ nameOf row = schoolName /\
      schoolName <> [] /\ parseType cy (typeOf row) = Some r /\
      e = RangeEntry.mk (Z.of_nat i + 2) (rstart r) (rend r)
            (typeOf row) (linkOf row).
Proof.
  intros cy rows n e. unfold classifyRows.
  rewrite forEachRow_hasFact. cbn [snd plus]. split.
  - intros [(es & [] & _)|H]. exact H.
  - auto.
Qed.

(** Every row is accounted for once: the records of the three exclusive
    outcomes and the facts of the map add up to the number of rows. *)
Theorem rows_accounted_for :
  forall (cy : Z) (rows : list Row),
    (length (missingSchoolName (fst (classifyRows cy rows))) +
     length (missingType (fst (classifyRows cy rows))) +
     length (invalidType (fst (classifyRows cy rows))) +
     length (allFacts (snd (classifyRows cy rows))))%nat = length rows.
Proof.
  intros cy rows. unfold classifyRows. rewrite forEachRow_total. reflexivity.
Qed.

(** The shape of [rangesBySchool] after classification: no school occurs
    twice, every school name is non-empty and trimmed, every school holds
    at least one fact, and a school's facts are in row order. *)
Theorem map_shape :
  forall (cy : Z) (rows : list Row),
    NoDup (keys (snd (classifyRows cy rows))) /\
    forall schoolName ranges,
      In (schoolName, ranges) (snd (classifyRows cy rows)) ->
      ranges <> [] /\
      increasing (List.map RangeEntry.line ranges) /\
      schoolName <> [] /\ trimmed schoolName /\
      mapGet (snd (classifyRows cy rows)) schoolName = Some ranges.
Proof.
  intros cy rows.
  destruct (classifyRows_map cy rows) as (Hk & _ & _ & He).
  split; [exact Hk|]. intros n es Hin.
  destruct (He n es Hin) as (H1 & H2 & H3 & H4).
  repeat split; try assumption; try apply H4.
  revert Hk Hin. generalize (snd (classifyRows cy rows)).
  induction s as [|[k v] m IH]; intros Hk Hin; [destruct Hin|].
  simpl in *. inversion Hk as [|? ? Hnot Hk']; subst.
  destruct Hin as [Hin|Hin].
  - inversion Hin; subst. now rewrite (proj2 (ClassifyFacts.eqb_eq n n) eq_refl).
  - destruct (JsString.eqb k n) eqn:E; [|now apply IH].
    apply ClassifyFacts.eqb_eq in E. subst k. exfalso. apply Hnot.
    unfold keys. apply in_map_iff. exists (n, es). auto.
Qed.

Lemma map_shape_witness :
  mapGet (snd (classifyRows 2026 lincolnGapRows)) (js "Lincoln") =
  Some [RangeEntry.mk 2 2000 2005 (js "2000-2005") (js "https://a");
        RangeEntry.mk 3 2007 2010 (js "2007-2010") (js "https://b")].
Proof.
  refine (proj2 (proj2 (proj2 (proj2
            (proj2 (map_shape 2026 lincolnGapRows) (js "Lincoln") _ _))))).
  vm_compute. left. reflexivity.
Defined.

Ltac side :=
  try (now constructor);
  cbv beta; intros;
  repeat match goal with
         | H : context [truthy ?s] |- _ => destruct (truthy s)
         | |- context [truthy ?s] => destruct (truthy s)
         | H : context [parseType ?c ?s] |- _ => destruct (parseType c s)
         | |- context [parseType ?c ?s] => destruct (parseType c s)
         end;
  cbn [andb negb length In] in *;
  try lia;
  repeat match goal with
         | H : _ \/ _ |- _ => destruct H
         | H : False |- _ => destruct H
         end;
  subst; try reflexivity.

(** Line numbers: each of the four lists is in strictly increasing line
    order, the lines of the facts are pairwise distinct, and every line is
    between 2 and the number of rows plus 1. *)
Theorem line_numbers :
  forall (cy : Z) (rows : list Row),
    let issues := fst (classifyRows cy rows) in
    let hi := Z.of_nat (length rows) + 1 in
    (increasing (List.map MissingSchoolName.line (missingSchoolName issues)) /\
     Forall (fun r => 2 <= MissingSchoolName.line r <= hi)
            (missingSchoolName issues)) /\
    (increasing (List.map MissingLink.line (missingLink issues)) /\
     Forall (fun r => 2 <= MissingLink.line r <= hi) (missingLink issues)) /\
    (increasing (List.map MissingType.line (missingType issues)) /\
     Forall (fun r => 2 <= MissingType.line r <= hi) (missingType issues)) /\
    (increasing (List.map InvalidType.line (invalidType issues)) /\
     Forall (fun r => 2 <= InvalidType.line r <= hi) (invalidType issues)) /\
    (NoDup (List.map RangeEntry.line (allFacts (snd (classifyRows cy rows)))) /\
     Forall (fun e => 2 <= RangeEntry.line e <= hi)
            (allFacts (snd (classifyRows cy rows)))).
Proof.
  intros cy rows issues hi. subst issues hi. unfold classifyRows.
  assert (W : forall (R : Type) (line : R -> Z) (l : list R) (n : nat),
             increasing (List.map line l) /\
             Forall (fun r => 2 <= line r < Z.of_nat (0 + n) + 2) l ->
             increasing (List.map line l) /\
             Forall (fun r => 2 <= line r <= Z.of_nat n + 1) l).
  { intros R line l n [H1 H2]. split; [exact H1|].
    eapply Forall_impl; [|exact H2]. cbv beta. intros; simpl in *; lia. }
  split; [|split; [|split; [|split]]].
  - apply W, (forEachRow_lines cy (fun acc => missingSchoolName (fst acc))
         (fun k row => if truthy (nameOf row) then []
                       else [MissingSchoolName.mk (Z.of_nat k + 2)])
         ltac:(step_eq) MissingSchoolName.line); side.
  - apply W, (forEachRow_lines cy (fun acc => missingLink (fst acc))
         (fun k row =>
            if truthy (nameOf row) && negb (truthy (linkOf row))
            then [MissingLink.mk (Z.of_nat k + 2) (nameOf row) (typeOf row)]
            else [])
         ltac:(step_eq) MissingLink.line); side.
  - apply W, (forEachRow_lines cy (fun acc => missingType (fst acc))
         (fun k row =>
            if truthy (nameOf row) && negb (truthy (typeOf row))
            then [MissingType.mk (Z.of_nat k + 2) (nameOf row)]
            else [])
         ltac:(step_eq) MissingType.line); side.
  - apply W, (forEachRow_lines cy (fun acc => invalidType (fst acc))
         (fun k row =>
            if truthy (nameOf row) && truthy (typeOf row)
            then match parseType cy (typeOf row) with
                 | None => [InvalidType.mk (Z.of_nat k + 2) (nameOf row)
                              (typeOf row)]
                 | Some _ => []
                 end
            else [])
         ltac:(step_eq) InvalidType.line); side.
  - destruct (classifyRows_map cy rows) as (_ & H1 & H2 & _).
    split; [exact H1|].
    eapply Forall_impl; [|exact H2]. cbv beta. intros; lia.
Qed.

(** ** The sort and the sweep, as a user sees them *)

(** [ranges.sort(...)] with the script's comparator: the result holds the
    same facts, every fact is followed by one that starts later or starts
    the same year and ends no earlier, and facts with the same start and
    end keep the order they had. *)
Theorem sort_stable_ascending :
  forall l : list RangeEntry.t,
    Permutation l (sortRanges l) /\
    (forall p c, adjacent (sortRanges l) p c ->
       RangeEntry.start p < RangeEntry.start c \/
       (RangeEntry.start p = RangeEntry.start c /\
        RangeEntry.end_ p <= RangeEntry.end_ c)) /\
    (forall a, filter (sameKey a) (sortRanges l) = filter (sameKey a) l).
Proof.
  intros l. split; [apply SortFacts.sortRanges_perm|]. split.
  - intros p c H. apply SortFacts.compareRanges_le.
    eapply adjacent_leR; [apply SortFacts.sortRanges_sorted|exact H].
  - intros a. apply sortRanges_stable.
Qed.

Lemma sort_stable_ascending_witness :
  RangeEntry.start (RangeEntry.mk 3 2000 2005 (js "2000-2005") (js "https://a"))
  < RangeEntry.start (RangeEntry.mk 2 2006 2010 (js "2006-2010") (js "https://b"))
  \/ (RangeEntry.start
        (RangeEntry.mk 3 2000 2005 (js "2000-2005") (js "https://a")) =
      RangeEntry.start
        (RangeEntry.mk 2 2006 2010 (js "2006-2010") (js "https://b")) /\
      RangeEntry.end_
        (RangeEntry.mk 3 2000 2005 (js "2000-2005") (js "https://a")) <=
      RangeEntry.end_
        (RangeEntry.mk 2 2006 2010 (js "2006-2010") (js "https://b"))).
Proof.
  refine (proj1 (proj2 (sort_stable_ascending
            [RangeEntry.mk 2 2006 2010 (js "2006-2010") (js "https://b");
             RangeEntry.mk 3 2000 2005 (js "2000-2005") (js "https://a")]))
            _ _ _).
  exists 0%nat. split; reflexivity.
Defined.

(** The sweep only reports: it leaves the four lists of the classifier as
    they are, only appends to [gaps] and [overlaps], and the map keeps its
    schools, in the same order, each with the same facts. *)
Theorem reconcile_only_reports :
  forall (m : SchoolMap) (issues0 : Issues),
    missingSchoolName (fst (reconcile m issues0)) = missingSchoolName issues0 /\
    missingLink (fst (reconcile m issues0)) = missingLink issues0 /\
    missingType (fst (reconcile m issues0)) = missingType issues0 /\
    invalidType (fst (reconcile m issues0)) = invalidType issues0 /\
    (exists added, gaps (fst (reconcile m issues0)) = gaps issues0 ++ added) /\
    (exists added,
        overlaps (fst (reconcile m issues0)) = overlaps issues0 ++ added) /\
    keys (snd (reconcile m issues0)) = keys m /\
    Forall2 (fun before after =>
               fst after = fst before /\
               Permutation (snd before) (snd after))
            m (snd (reconcile m issues0)).
Proof.
  intros m a.
  destruct (reconcile_others m a) as (H1 & H2 & H3 & H4).
  destruct (ReconcileFacts.reconcile_frame m a) as [Hg Ho].
  rewrite ReconcileFacts.reconcile_snd.
  repeat match goal with |- _ /\ _ => split end; try assumption.
  - eexists. exact Hg.
  - eexists. exact Ho.
  - unfold keys. rewrite map_map. apply map_ext. now intros [n r].
  - clear. induction m as [|[n r] m IH]; simpl; constructor; [|exact IH].
    split; [reflexivity|apply SortFacts.sortRanges_perm].
Qed.

(** Every reported gap and every reported overlap is about two facts of
    one school of the map, which therefore has at least two facts: the
    record carries the lines of the two facts, and the fact behind
    [prevLine] starts no later than the fact behind [currLine]. *)
Theorem issues_name_two_facts :
  forall (m : SchoolMap) (issues0 : Issues),
    gaps issues0 = [] -> overlaps issues0 = [] ->
    (forall g, In g (gaps (fst (reconcile m issues0))) ->
       exists ranges prev curr,
         In (Gap.schoolName g, ranges) m /\ (2 <= length ranges)%nat /\
         In prev ranges /\ In curr ranges /\
         Gap.prevLine g = RangeEntry.line prev /\
         Gap.currLine g = RangeEntry.line curr /\
         RangeEntry.start prev <= RangeEntry.start curr) /\
    (forall o, In o (overlaps (fst (reconcile m issues0))) ->
       exists ranges prev curr,
         In (Overlap.schoolName o, ranges) m /\ (2 <= length ranges)%nat /\
         In prev ranges /\ In curr ranges /\
         Overlap.prevLine o = RangeEntry.line prev /\
         Overlap.currLine o = RangeEntry.line curr /\
         RangeEntry.start prev <= RangeEntry.start curr).
Proof.
  intros m a G0 O0.
  assert (Two : forall ranges prev curr,
             adjacent (sortRanges ranges) prev curr ->
             (2 <= length ranges)%nat /\ In prev ranges /\ In curr ranges /\
             RangeEntry.start prev <= RangeEntry.start curr).
  { intros ranges prev curr Hadj.
    pose proof (adjacent_leR _ _ _ (SortFacts.sortRanges_sorted ranges) Hadj)
      as Hle.
    destruct (ReconcileFacts.adjacent_In _ _ _ Hadj) as [Hp Hc].
    apply -> SortFacts.sortRanges_In in Hp.
    apply -> SortFacts.sortRanges_In in Hc.
    destruct Hadj as (i & _ & Hi).
    assert (S i < length (sortRanges ranges))%nat
      by (apply nth_error_Some; congruence).
    rewrite <- (Permutation_length (SortFacts.sortRanges_perm ranges)) in H.
    repeat split; try assumption; [lia|now apply leR_start]. }
  split.
  - intros g Hg. apply ReconcileFacts.reconcile_gaps_In in Hg.
    rewrite G0 in Hg.
    destruct Hg as [[]|(n & r & p & c & Hin & Hadj & _ & ->)].
    destruct (Two r p c Hadj) as (T1 & T2 & T3 & T4).
    exists r, p, c. simpl. auto 10.
  - intros o Ho. apply ReconcileFacts.reconcile_overlaps_In in Ho.
    rewrite O0 in Ho.
    destruct Ho as [[]|(n & r & p & c & Hin & Hadj & _ & ->)].
    destruct (Two r p c Hadj) as (T1 & T2 & T3 & T4).
    exists r, p, c. simpl. auto 10.
Qed.

Lemma issues_name_two_facts_witness :
  Forall (fun g =>
            exists ranges prev curr,
              In (Gap.schoolName g, ranges) lincolnGapMap /\
              (2 <= length ranges)%nat /\
              In prev ranges /\ In curr ranges /\
              Gap.prevLine g = RangeEntry.line prev /\
              Gap.currLine g = RangeEntry.line curr /\
              RangeEntry.start prev <= RangeEntry.start curr)
         (gaps (fst (reconcile lincolnGapMap noIssues))).
Proof.
  apply Forall_forall.
  exact (proj1 (issues_name_two_facts lincolnGapMap noIssues eq_refl eq_refl)).
Defined.

(** A clean sweep means a clean table: when a run over well-ordered facts
    reports no gap and no overlap, then for every school each year from the
    start of any of its facts to the end of any of its facts lies in the
    range of exactly one of its facts. *)
Theorem clean_sweep_tiles :
  forall (m : SchoolMap) (issues0 : Issues),
    wellFormed m ->
    gaps (fst (reconcile m issues0)) = [] ->
    overlaps (fst (reconcile m issues0)) = [] ->
    forall schoolName ranges a b y,
      In (schoolName, ranges) m -> In a ranges -> In b ranges ->
      RangeEntry.start a <= y <= RangeEntry.end_ b ->
      exists e, In e ranges /\ covers e y /\
                forall e', In e' ranges -> covers e' y -> e' = e.
Proof.
  intros m a0 Hwf G O n ranges a b y Hin Ha Hb Hy.
  assert (Hch : forall p c, adjacent (sortRanges ranges) p c ->
                  RangeEntry.start c = RangeEntry.end_ p + 1).
  { intros p c Hadj.
    destruct (Z.lt_trichotomy (RangeEntry.start c) (RangeEntry.end_ p + 1))
      as [Hlt|[Heq|Hgt]]; [|exact Heq|].
    - exfalso.
      assert (In (overlapOf n p c) (overlaps (fst (reconcile m a0)))).
      { apply ReconcileFacts.reconcile_overlaps_In. right.
        exists n, ranges, p, c. repeat split; auto. lia. }
      rewrite O in H. destruct H.
    - exfalso.
      assert (In (gapOf n p c) (gaps (fst (reconcile m a0)))).
      { apply ReconcileFacts.reconcile_gaps_In. right.
        exists n, ranges, p, c. repeat split; auto. lia. }
      rewrite G in H. destruct H. }
  assert (Hw : forall e, In e (sortRanges ranges) ->
                 RangeEntry.start e <= RangeEntry.end_ e).
  { intros e He. apply -> SortFacts.sortRanges_In in He.
    exact (Hwf n ranges e Hin He). }
  destruct (chain_cover (sortRanges ranges) Hch Hw y a b) as (e & He & Hc);
    try (now apply SortFacts.sortRanges_In); try exact Hy.
  exists e. split; [exact (proj1 (SortFacts.sortRanges_In e ranges) He)|].
  split; [exact Hc|]. intros e' He' Hc'.
  apply (chain_unique (sortRanges ranges) Hch Hw y); auto.
  now apply SortFacts.sortRanges_In.
Qed.

Lemma tiledMap_wellFormed : wellFormed tiledMap.
Proof.
  intros n ranges e [H|[]] He. inversion H; subst.
  destruct He as [<-|[<-|[]]]; simpl; lia.
Defined.

Lemma clean_sweep_tiles_witness :
  exists e,
    In e [RangeEntry.mk 2 2006 2010 (js "2006-2010") (js "https://b");
          RangeEntry.mk 3 2000 2005 (js "2000-2005") (js "https://a")] /\
    covers e 2006 /\
    forall e',
      In e' [RangeEntry.mk 2 2006 2010 (js "2006-2010") (js "https://b");
             RangeEntry.mk 3 2000 2005 (js "2000-2005") (js "https://a")] ->
      covers e' 2006 -> e' = e.
Proof.
  refine (clean_sweep_tiles tiledMap noIssues tiledMap_wellFormed
            eq_refl eq_refl (js "Lincoln") _
            (RangeEntry.mk 3 2000 2005 (js "2000-2005") (js "https://a"))
            (RangeEntry.mk 2 2006 2010 (js "2006-2010") (js "https://b"))
            2006 (or_introl eq_refl) _ _ _).
  - right. left. reflexivity.
  - left. reflexivity.
  - simpl. lia.
Defined.

(** No overlap goes unreported: when two different facts of a school share
    a year, the run reports an overlap for that school, whose [prevLine] is
    the line of one of the two. *)
Theorem overlap_detected :
  forall (m : SchoolMap) (issues0 : Issues) (schoolName : jsstring)
         (ranges : list RangeEntry.t) (a b : RangeEntry.t) (y : Z),
    In (schoolName, ranges) m -> In a ranges -> In b ranges -> a <> b ->
    covers a y -> covers b y ->
    exists o,
      In o (overlaps (fst (reconcile m issues0))) /\
      Overlap.schoolName o = schoolName /\
      (Overlap.prevLine o = RangeEntry.line a \/
       Overlap.prevLine o = RangeEntry.line b).
Proof.
  intros m a0 n ranges a b y Hin Ha Hb Hne Hca Hcb.
  apply SortFacts.sortRanges_In in Ha. apply SortFacts.sortRanges_In in Hb.
  destruct (two_in_split a b _ Ha Hb Hne) as (s1 & s2 & s3 & [E|E]).
  - destruct (sorted_overlap _ s1 a s2 b s3 y
                (sortRanges_strongly ranges) E Hca Hcb) as (z & Hadj & Hz).
    exists (overlapOf n a z). split; [|simpl; auto].
    apply ReconcileFacts.reconcile_overlaps_In. right.
    exists n, ranges, a, z. auto.
  - destruct (sorted_overlap _ s1 b s2 a s3 y
                (sortRanges_strongly ranges) E Hcb Hca) as (z & Hadj & Hz).
    exists (overlapOf n b z). split; [|simpl; auto].
    apply ReconcileFacts.reconcile_overlaps_In. right.
    exists n, ranges, b, z. auto.
Qed.

Lemma overlap_detected_witness :
  exists o,
    In o (overlaps (fst (reconcile nestedMap noIssues))) /\
    Overlap.schoolName o = js "Lincoln" /\
    (Overlap.prevLine o = 2 \/ Overlap.prevLine o = 4).
Proof.
  refine (overlap_detected nestedMap noIssues (js "Lincoln") _
            (RangeEntry.mk 2 1990 2010 (js "1990-2010") (js "https://a"))
            (RangeEntry.mk 4 2000 2001 (js "2000-2001") (js "https://c"))
            2000 (or_introl eq_refl) _ _ _ _ _).
  - left. reflexivity.
  - right. right. left. reflexivity.
  - discriminate.
  - unfold covers. simpl. lia.
  - unfold covers. simpl. lia.
Defined.

(** No hole goes unreported: when a year lies between the start of one
    fact of a school and the end of another and in the range of none of
    the school's facts, the run reports a gap for that school that
    contains the year. *)
Theorem gap_detected :
  forall (m : SchoolMap) (issues0 : Issues) (schoolName : jsstring)
         (ranges : list RangeEntry.t) (a b : RangeEntry.t) (y : Z),
    In (schoolName, ranges) m -> In a ranges -> In b ranges ->
    RangeEntry.start a <= y <= RangeEntry.end_ b ->
    (forall e, In e ranges -> ~ covers e y) ->
    exists g,
      In g (gaps (fst (reconcile m issues0))) /\
      Gap.schoolName g = schoolName /\
      Gap.fromYear g <= y <= Gap.toYear g.
Proof.
  intros m a0 n ranges a b y Hin Ha Hb Hy Hun.
  apply SortFacts.sortRanges_In in Ha. apply SortFacts.sortRanges_In in Hb.
  pose proof (sortRanges_strongly ranges) as Hs.
  destruct (sortRanges ranges) as [|h l'] eqn:E; [destruct Ha|].
  assert (Hh : RangeEntry.start h <= y).
  { destruct Ha as [->|Ha]; [lia|]. inversion Hs as [|? ? _ Hall]; subst.
    rewrite Forall_forall in Hall. specialize (Hall a Ha).
    apply leR_start in Hall. lia. }
  destruct (uncovered_between (h :: l') h l' y eq_refl Hh)
    as (p & c & Hadj & Hpc).
  - exists b. split; [exact Hb|lia].
  - intros e He. apply Hun. apply SortFacts.sortRanges_In. now rewrite E.
  - exists (gapOf n p c). split; [|simpl; split; [reflexivity|lia]].
    apply ReconcileFacts.reconcile_gaps_In. right.
    exists n, ranges, p, c. rewrite E. repeat split; auto. lia.
Qed.

Lemma gap_detected_witness :
  exists g,
    In g (gaps (fst (reconcile lincolnGapMap noIssues))) /\
    Gap.schoolName g = js "Lincoln" /\
    Gap.fromYear g <= 2006 <= Gap.toYear g.
Proof.
  refine (gap_detected lincolnGapMap noIssues (js "Lincoln") _
            (RangeEntry.mk 2 2000 2005 (js "2000-2005") (js "https://a"))
            (RangeEntry.mk 3 2007 2010 (js "2007-2010") (js "https://b"))
            2006 (or_introl eq_refl) _ _ _ _).
  - right. left. reflexivity.
  - left. reflexivity.
  - simpl. lia.
  - unfold covers. intros e [<-|[<-|[]]]; simpl; lia.
Defined.

(** ** The verdict of a run *)

Module RunMore.
Import ClassifyFacts ClassifyMore SweepMore ReconcileFacts RunFacts.

Lemma nil_iff {T : Type} (l : list T) : l = [] <-> forall x, ~ In x l.
Proof.
  split; [now intros ->|]. destruct l as [|x l]; [reflexivity|].
  intros H. exfalso. apply (H x). now left.
Qed.

Lemma exited_reportAndExit issues :
  exited (reportAndExit issues) =
  match missingSchoolName issues, missingLink issues, missingType issues,
        invalidType issues, gaps issues, overlaps issues with
  | [], [], [], [], [], [] => None
  | _, _, _, _, _, _ => Some 1
  end.
Proof.
  unfold reportAndExit. rewrite !ReportFacts.reportCategory_eq.
  destruct issues as [a b c d e f]. cbn [fst snd missingSchoolName
    missingLink missingType invalidType gaps overlaps].
  destruct a, b, c, d, e, f; reflexivity.
Qed.

Lemma main_exit0 cy label errors rows :
  exitStatus (main cy label errors rows) = 0 <->
  errors = [] /\ rows <> [] /\
  missingSchoolName (collectIssues cy rows) = [] /\
  missingLink (collectIssues cy rows) = [] /\
  missingType (collectIssues cy rows) = [] /\
  invalidType (collectIssues cy rows) = [] /\
  gaps (collectIssues cy rows) = [] /\
  overlaps (collectIssues cy rows) = [].
Proof.
  unfold main, exitStatus.
  destruct errors as [|er errors]; cbn [length Nat.ltb Nat.leb].
  2:{ cbn [exited]. split; [discriminate|]. intros [H _]. discriminate. }
  destruct rows as [|row rows]; cbn [length Nat.eqb].
  { cbn [exited]. split; [discriminate|]. intros (_ & H & _). congruence. }
  cbn [exited]. rewrite exited_reportAndExit.
  destruct (missingSchoolName _), (missingLink _), (missingType _),
    (invalidType _), (gaps _), (overlaps _);
    split; try discriminate; intros H;
    try (repeat split; (reflexivity || discriminate));
    try (decompose [and] H; discriminate).
Qed.

(** The four lists of the classifier are all empty exactly when every row
    has a name, a link and a type that parses. *)
Lemma rows_clean cy rows :
  (missingSchoolName (fst (classifyRows cy rows)) = [] /\
   missingLink (fst (classifyRows cy rows)) = [] /\
   missingType (fst (classifyRows cy rows)) = [] /\
   invalidType (fst (classifyRows cy rows)) = []) <->
  forall row, In row rows ->
    nameOf row <> [] /\ linkOf row <> [] /\
    parseType cy (typeOf row) <> None.
Proof.
  rewrite !nil_iff. split.
  - intros (H1 & H2 & H3 & H4) row Hin.
    apply In_nth_error in Hin. destruct Hin as [i Hi].
    assert (Hn : nameOf row <> []).
    { intros E. eapply H1, missingSchoolName_In. eauto. }
    split; [exact Hn|]. split.
    + intros E. eapply H2, missingLink_In. eauto 6.
    + intros E. destruct (typeOf row) as [|c t] eqn:Et.
      * eapply H3, missingType_In. eauto 6.
      * eapply H4, invalidType_In. exists i, row. rewrite Et.
        repeat split; auto. discriminate.
  - intros H. repeat split; intros r Hr.
    + apply missingSchoolName_In in Hr.
      destruct Hr as (i & row & Hi & E & _).
      apply nth_error_In in Hi. now apply H in Hi.
    + apply missingLink_In in Hr.
      destruct Hr as (i & row & Hi & _ & E & _).
      apply nth_error_In in Hi. now apply H in Hi.
    + apply missingType_In in Hr.
      destruct Hr as (i & row & Hi & _ & E & _).
      apply nth_error_In in Hi. apply H in Hi.
      destruct Hi as (_ & _ & Hp). rewrite E, parseType_empty in Hp.
      congruence.
    + apply invalidType_In in Hr.
      destruct Hr as (i & row & Hi & _ & _ & E & _).
      apply nth_error_In in Hi. now apply H in Hi.
Qed.

(** No gap and no overlap exactly when every school's sorted array is a
    chain. *)
Lemma sweep_clean m a :
  gaps a = [] -> overlaps a = [] ->
  (gaps (fst (reconcile m a)) = [] /\ overlaps (fst (reconcile m a)) = []) <->
  forall n ranges prev curr,
    In (n, ranges) m -> adjacent (sortRanges ranges) prev curr ->
    RangeEntry.start curr = RangeEntry.end_ prev + 1.
Proof.
  intros G0 O0. rewrite !nil_iff. split.
  - intros [G O] n ranges p c Hin Hadj.
    destruct (Z.lt_trichotomy (RangeEntry.start c) (RangeEntry.end_ p + 1))
      as [Hlt|[Heq|Hgt]]; [|exact Heq|]; exfalso.
    + apply (O (overlapOf n p c)). apply reconcile_overlaps_In. right.
      exists n, ranges, p, c. repeat split; auto. lia.
    + apply (G (gapOf n p c)). apply reconcile_gaps_In. right.
      exists n, ranges, p, c. repeat split; auto. lia.
  - intros H. split; intros x Hx.
    + apply reconcile_gaps_In in Hx. rewrite G0 in Hx.
      destruct Hx as [[]|(n & r & p & c & Hin & Hadj & Hgt & _)].
      specialize (H n r p c Hin Hadj). lia.
    + apply reconcile_overlaps_In in Hx. rewrite O0 in Hx.
      destruct Hx as [[]|(n & r & p & c & Hin & Hadj & Hle & _)].
      specialize (H n r p c Hin Hadj). lia.
Qed.

Lemma main_pass cy label errors rows :
  exitStatus (main cy label errors rows) = 0 <->
  errors = [] /\ rows <> [] /\
  (forall row, In row rows ->
     nameOf row <> [] /\ linkOf row <> [] /\
     parseType cy (typeOf row) <> None) /\
  (forall n ranges prev curr,
     In (n, ranges) (snd (classifyRows cy rows)) ->
     adjacent (sortRanges ranges) prev curr ->
     RangeEntry.start curr = RangeEntry.end_ prev + 1).
Proof.
  rewrite main_exit0, <- rows_clean. unfold collectIssues.
  destruct (classifyRows_invariant cy rows) as (_ & G0 & O0).
  pose proof (sweep_clean (snd (classifyRows cy rows))
                (fst (classifyRows cy rows)) G0 O0) as Hs.
  destruct (classifyRows cy rows) as [issues m]. cbn [fst snd] in *.
  destruct (reconcile_others m issues) as (E1 & E2 & E3 & E4).
  rewrite E1, E2, E3, E4. rewrite <- Hs. tauto.
Qed.

End RunMore.

(** A run exits with status 0 exactly when [Papa.parse] reported no error,
    there is at least one row, every row has a school name, a link and a
    type that parses, and in every school's sorted array each fact starts
    the year after the one before it ends. *)
Theorem passing_run_iff :
  forall (cy : Z) (sourceLabel : jsstring) (errors : list ParseError)
         (rows : list Row),
    exitStatus (main cy sourceLabel errors rows) = 0 <->
    errors = [] /\ rows <> [] /\
    (forall row, In row rows ->
       nameOf row <> [] /\ linkOf row <> [] /\
       parseType cy (typeOf row) <> None) /\
    (forall schoolName ranges prev curr,
       In (schoolName, ranges) (snd (classifyRows cy rows)) ->
       adjacent (sortRanges ranges) prev curr ->
       RangeEntry.start curr = RangeEntry.end_ prev + 1).
Proof. exact RunMore.main_pass. Qed.

(** What a passing run guarantees to the lookup: for every school, each
    year from the start of any of its rows' ranges to the end of any of
    them lies in the range of exactly one of its rows, and that row has a
    link. *)
Theorem passing_run_tiles :
  forall (cy : Z) (sourceLabel : jsstring) (errors : list ParseError)
         (rows : list Row),
    exitStatus (main cy sourceLabel errors rows) = 0 ->
    forall schoolName ranges a b y,
      In (schoolName, ranges) (snd (classifyRows cy rows)) ->
      In a ranges -> In b ranges ->
      RangeEntry.start a <= y <= RangeEntry.end_ b ->
      exists e, In e ranges /\ covers e y /\ RangeEntry.link e <> [] /\
                forall e', In e' ranges -> covers e' y -> e' = e.
Proof.
  intros cy label errors rows H n ranges a b y Hin Ha Hb Hy.
  apply RunMore.main_pass in H. destruct H as (_ & _ & Hrows & Hch).
  destruct (RunFacts.classifyRows_invariant cy rows) as (Hwf & _ & _).
  assert (Hw : forall e, In e (sortRanges ranges) ->
                 RangeEntry.start e <= RangeEntry.end_ e).
  { intros e He. apply -> SortFacts.sortRanges_In in He.
    exact (Hwf n ranges e Hin He). }
  destruct (chain_cover (sortRanges ranges)
              (fun p c => Hch n ranges p c Hin) Hw y a b)
    as (e & He & Hc);
    try (now apply SortFacts.sortRanges_In); try exact Hy.
  pose proof (proj1 (SortFacts.sortRanges_In e ranges) He) as He0.
  exists e. split; [exact He0|]. split; [exact Hc|]. split.
  - assert (Hf : hasFact (snd (classifyRows cy rows)) n e)
      by (exists ranges; auto).
    unfold classifyRows in Hf. apply forEachRow_hasFact in Hf.
    destruct Hf as [(es & [] & _)|(i & row & r & Hi & _ & _ & _ & ->)].
    simpl. apply nth_error_In in Hi. now apply Hrows in Hi.
  - intros e' He' Hc'.
    apply (chain_unique (sortRanges ranges)
             (fun p c => Hch n ranges p c Hin) Hw y); auto.
    now apply SortFacts.sortRanges_In.
Qed.

Lemma passing_run_tiles_witness :
  exists e,
    In e [RangeEntry.mk 2 2006 2010 (js "2006-2010") (js "https://b");
          RangeEntry.mk 3 2000 2005 (js "2000-2005") (js "https://a")] /\
    covers e 2005 /\ RangeEntry.link e <> [] /\
    forall e',
      In e' [RangeEntry.mk 2 2006 2010 (js "2006-2010") (js "https://b");
             RangeEntry.mk 3 2000 2005 (js "2000-2005") (js "https://a")] ->
      covers e' 2005 -> e' = e.
Proof.
  refine (passing_run_tiles 2026 (js "sheet") [] tiledRows _
            (js "Lincoln") _
            (RangeEntry.mk 3 2000 2005 (js "2000-2005") (js "https://a"))
            (RangeEntry.mk 2 2006 2010 (js "2006-2010") (js "https://b"))
            2005 _ _ _ _).
  - vm_compute. reflexivity.
  - vm_compute. left. reflexivity.
  - right. left. reflexivity.
  - left. reflexivity.
  - simpl. lia.
Defined.

(** [reportAndExit] writes to one stream only: nothing goes to
    [console.error] exactly when the run succeeds, nothing to [console.log]
    exactly when it fails; and on failure [console.error] gets one header
    for each non-empty category and one line for each of its records. *)
Theorem report_streams :
  forall issues : Issues,
    (stderr (reportAndExit issues) = [] <->
     success (reportAndExit issues) = true) /\
    (stdout (reportAndExit issues) = [] <->
     success (reportAndExit issues) = false) /\
    length (stderr (reportAndExit issues)) =
      (match missingSchoolName issues with
       | [] => 0 | l => S (length l) end +
       match missingLink issues with [] => 0 | l => S (length l) end +
       match missingType issues with [] => 0 | l => S (length l) end +
       match invalidType issues with [] => 0 | l => S (length l) end +
       match gaps issues with [] => 0 | l => S (length l) end +
       match overlaps issues with [] => 0 | l => S (length l) end)%nat.
Proof.
  intros issues. unfold reportAndExit, success.
  rewrite !ReportFacts.reportCategory_eq.
  destruct issues as [a b c d e f]. cbn [fst snd missingSchoolName
    missingLink missingType invalidType gaps overlaps].
  split; [|split].
  - destruct a, b, c, d, e, f; cbn [orb app stderr exited];
      split; intros H; try reflexivity; discriminate.
  - destruct a, b, c, d, e, f; cbn [orb app stdout exited];
      split; intros H; try reflexivity; discriminate.
  - assert (B : forall (T : Type) (l : list T) (h : jsstring)
                       (r : T -> jsstring),
               length (match l with [] => [] | _ => h :: List.map r l end) =
               match l with [] => 0%nat | _ => S (length l) end).
    { intros T l h r. destruct l; [reflexivity|].
      cbn [length]. now rewrite length_map. }
    assert (E : forall b0 (x y : Report),
               length (stderr x) = length (stderr y) ->
               length (stderr (if b0 : bool then x else y)) =
               length (stderr x))
      by (intros [|] x y H; congruence).
    rewrite E by reflexivity. cbn [stderr].
    rewrite !length_app, !B.
    destruct a, b, c, d, e, f; cbn [length]; lia.
Qed.

(** ** The range test of the lookup form *)

Module LookupFacts.
Import RegexFacts ParserFacts TrimFacts.

Lemma trim_split s :
  exists a b, allWhiteSpace a /\ allWhiteSpace b /\ s = a ++ trim s ++ b.
Proof.
  destruct (trimStart_split s) as (a & Ha & Ea).
  destruct (trimEnd_split (trimStart s)) as (b & Hb & Eb).
  exists a, b. repeat split; try assumption.
  unfold trim. now rewrite <- Eb.
Qed.

Lemma ws_not_digit c : isWhiteSpace c = true -> isDigit c = false.
Proof.
  intros H. destruct (isDigit c) eqn:E; [|reflexivity].
  apply digit_not_ws in E. congruence.
Qed.

(** The code units a word may be written with, whatever the case. *)
Lemma same_chars (P : N -> Prop) w : forall s,
  sameIgnoringCase w s ->
  Forall (fun p => P (asciiUpper p) /\ P (asciiUpper p + 32)%N) w ->
  Forall P s.
Proof.
  unfold sameIgnoringCase.
  induction w as [|p w IH]; intros [|c s] H Hw; simpl in H;
    try discriminate; constructor; inversion Hw as [|? ? [H1 H2] Hw'];
    inversion H as [[Hc Hs]]; subst.
  - destruct (upper_cases _ _ Hc) as [->| ->]; assumption.
  - now apply IH.
Qed.

Lemma same_lower w : forall s,
  sameIgnoringCase w s -> noUpperCase s ->
  Forall (fun p => (97 <= p <= 122)%N) w -> s = w.
Proof.
  unfold sameIgnoringCase, noUpperCase.
  induction w as [|p w IH]; intros [|c s] H Hn Hw; simpl in H;
    try discriminate; [reflexivity|].
  inversion Hn as [|? ? Hc Hn']; inversion Hw as [|? ? Hp Hw'];
    inversion H as [[E Es]]; subst.
  f_equal; [|now apply IH].
  unfold asciiUpper in E.
  destruct (N.leb_spec 97 c); destruct (N.leb_spec c 122);
    destruct (N.leb_spec 97 p); destruct (N.leb_spec p 122);
    cbn [andb] in E; lia.
Qed.

Lemma nondigit_skip c t :
  isDigit c = false -> matchAllYears (c :: t) = matchAllYears t.
Proof.
  intros H. destruct t as [|c2 [|c3 [|c4 rest]]]; try reflexivity.
  cbn [matchAllYears]. now rewrite H.
Qed.

Lemma nondigits_skip nd s :
  Forall (fun c => isDigit c = false) nd ->
  matchAllYears (nd ++ s) = matchAllYears s.
Proof.
  induction 1 as [|c nd Hc _ IH]; [reflexivity|].
  cbn [app]. now rewrite nondigit_skip.
Qed.

Lemma year_found c1 c2 c3 c4 rest :
  fourDigits c1 c2 c3 c4 ->
  matchAllYears ([c1; c2; c3; c4] ++ rest) =
  [c1; c2; c3; c4] :: matchAllYears rest.
Proof.
  intros (D1 & D2 & D3 & D4). cbn [app matchAllYears].
  now rewrite D1, D2, D3, D4.
Qed.

Lemma startsWith_app w post : startsWith w (w ++ post) = true.
Proof.
  induction w as [|p w IH]; [now destruct post|].
  cbn [app startsWith]. now rewrite N.eqb_refl.
Qed.

Lemma includes_app w pre post : includes w (pre ++ w ++ post) = true.
Proof.
  induction pre as [|c pre IH]; cbn [app].
  - destruct (w ++ post) eqn:E; cbn [includes]; rewrite <- ?E;
      now rewrite startsWith_app.
  - cbn [includes]. rewrite IH. apply orb_true_r.
Qed.

Lemma includes_absent p w s :
  Forall (fun c => c <> p) s -> includes (p :: w) s = false.
Proof.
  induction 1 as [|c s Hc _ IH]; [reflexivity|].
  cbn [includes startsWith]. rewrite IH.
  destruct (N.eqb_spec p c); [congruence|reflexivity].
Qed.

Lemma allWhiteSpace_nondigit ws :
  allWhiteSpace ws -> Forall (fun c => isDigit c = false) ws.
Proof.
  intros H. eapply Forall_impl; [|exact H]. apply ws_not_digit.
Qed.

Lemma allWhiteSpace_no_p ws :
  allWhiteSpace ws -> Forall (fun c => c <> 112%N) ws.
Proof.
  intros H. eapply Forall_impl; [|exact H]. cbv beta. now intros c Hc ->.
Qed.

Lemma fourDigits_no_p c1 c2 c3 c4 :
  fourDigits c1 c2 c3 c4 -> Forall (fun c => c <> 112%N) [c1; c2; c3; c4].
Proof.
  intros (D1 & D2 & D3 & D4).
  repeat constructor; intros ->; discriminate.
Qed.

End LookupFacts.

Import LookupFacts RegexFacts ParserFacts.

Ltac lit t := let v := eval vm_compute in t in change t with v.

(** The lookup and the validator agree on bounded ranges written without
    upper-case letters: when the trimmed type text is [Y1 - Y2] or
    [Y1 - present], the lookup's test says a year is in range exactly when
    [parseType] accepts the text and the year lies in the range it
    returns. *)
Theorem lookup_agrees_with_validator :
  forall (cy : Z) (raw : jsstring) (Y1 Y2 y : Z),
    boundedForm cy (trim raw) Y1 Y2 ->
    noUpperCase raw ->
    graduationInRange cy raw (Some y) =
    match parseType cy raw with
    | Some r => (rstart r <=? y) && (y <=? rend r)
    | None => false
    end.
Proof.
  intros cy raw Y1 Y2 y F Hn.
  rewrite (parseType_bounded cy raw Y1 Y2 F).
  destruct (trim_split raw) as (a & b & Ha & Hb & Hraw).
  destruct F as (c1 & c2 & c3 & c4 & ws1 & ws2 & tail &
                 HD & -> & H1 & H2 & HE & Ht).
  rewrite Ht in Hraw. clear Ht. subst raw.
  assert (Hn' : noUpperCase tail).
  { unfold noUpperCase in *.
    apply Forall_app in Hn. destruct Hn as [_ Hn].
    apply Forall_app in Hn. destruct Hn as [Hn _].
    do 4 (apply Forall_app in Hn; destruct Hn as [_ Hn]). exact Hn. }
  assert (Hlead : forall rest,
             matchAllYears
               (a ++ ([c1; c2; c3; c4] ++ ws1 ++ js "-" ++ ws2 ++ tail) ++ rest)
             = [c1; c2; c3; c4] :: matchAllYears (tail ++ rest)).
  { intros rest. rewrite <- !app_assoc.
    rewrite nondigits_skip by now apply allWhiteSpace_nondigit.
    rewrite year_found by exact HD.
    rewrite nondigits_skip by now apply allWhiteSpace_nondigit.
    change (js "-" ++ ws2 ++ tail ++ rest)
      with (45%N :: ws2 ++ tail ++ rest).
    rewrite nondigit_skip by reflexivity.
    now rewrite nondigits_skip by now apply allWhiteSpace_nondigit. }
  assert (Hb0 : matchAllYears b = []).
  { rewrite <- (app_nil_r b).
    now rewrite nondigits_skip by now apply allWhiteSpace_nondigit. }
  unfold graduationInRange. rewrite Hlead.
  destruct HE as [d1 d2 d3 d4 HD'|w Hw].
  - rewrite year_found, Hb0 by exact HD'.
    change (js "present") with (112%N :: js "resent").
    rewrite includes_absent.
    + cbn [nth]. rewrite !parseInt10_year by assumption.
      rewrite Z.geb_leb.
      destruct (Z.gtb_spec (yearOf c1 c2 c3 c4) (yearOf d1 d2 d3 d4));
        destruct (Z.leb_spec (yearOf c1 c2 c3 c4) (yearOf d1 d2 d3 d4));
        try lia; reflexivity.
    + repeat (apply Forall_app; split);
        try (now apply allWhiteSpace_no_p);
        try (now apply fourDigits_no_p).
      repeat constructor. discriminate.
  - assert (w = js "present").
    { apply same_lower; try assumption. lit (js "present").
      repeat (apply Forall_cons; [lia|]). apply Forall_nil. }
    subst w.
    rewrite nondigits_skip, Hb0
      by (lit (js "present"); repeat (apply Forall_cons; [reflexivity|]);
          apply Forall_nil).
    replace (a ++ ([c1; c2; c3; c4] ++ ws1 ++ js "-" ++ ws2 ++ js "present")
               ++ b)
      with ((a ++ [c1; c2; c3; c4] ++ ws1 ++ js "-" ++ ws2)
              ++ js "present" ++ b)
      by (now rewrite <- !app_assoc).
    rewrite includes_app. cbn [nth].
    rewrite parseInt10_year by assumption. rewrite Z.geb_leb.
    destruct (Z.gtb_spec (yearOf c1 c2 c3 c4) cy);
      destruct (Z.leb_spec (yearOf c1 c2 c3 c4) cy);
      try lia; reflexivity.
Qed.

Lemma lookup_agrees_with_validator_witness :
  graduationInRange 2026 (js " 2020 -  present ") (Some 2023) =
  match parseType 2026 (js " 2020 -  present ") with
  | Some r => (rstart r <=? 2023) && (2023 <=? rend r)
  | None => false
  end.
Proof.
  refine (lookup_agrees_with_validator 2026 (js " 2020 -  present ")
            2020 2026 2023 _ _).
  - exists 50%N, 48%N, 50%N, 48%N, (js " "), (js "  "), (js "present").
    repeat split; try reflexivity.
    + repeat constructor.
    + repeat constructor.
    + apply EndPresent. reflexivity.
  - unfold noUpperCase. lit (js " 2020 -  present ").
    repeat (apply Forall_cons; [lia|]). apply Forall_nil.
Defined.

(** The lookup never returns a row of the "In School Before YYYY" form:
    for such a type text the test reads the year as the start and 0 as the
    end, so it is false for every year (YYYY other than 0000). *)
Theorem lookup_rejects_before_form :
  forall (cy : Z) (raw : jsstring) (Y : Z) (year : option Z),
    beforeForm (trim raw) Y -> 0 < Y ->
    graduationInRange cy raw year = false.
Proof.
  intros cy raw Y year F HY.
  destruct (trim_split raw) as (a & b & Ha & Hb & Hraw).
  destruct F as (w1 & w2 & w3 & s1 & s2 & s3 & c1 & c2 & c3 & c4 &
                 W1 & W2 & W3 & S1 & N1 & S2 & N2 & S3 & N3 & HD & -> & Ht).
  rewrite Ht in Hraw. clear Ht. subst raw.
  assert (L1 : Forall (fun c => isDigit c = false) w1 /\
               Forall (fun c => c <> 112%N) w1).
  { split; apply (same_chars _ _ _ W1);
      repeat constructor; try reflexivity;
      intros E; vm_compute in E; discriminate. }
  assert (L2 : Forall (fun c => isDigit c = false) w2 /\
               Forall (fun c => c <> 112%N) w2).
  { split; apply (same_chars _ _ _ W2);
      repeat constructor; try reflexivity;
      intros E; vm_compute in E; discriminate. }
  assert (L3 : Forall (fun c => isDigit c = false) w3 /\
               Forall (fun c => c <> 112%N) w3).
  { split; apply (same_chars _ _ _ W3);
      repeat constructor; try reflexivity;
      intros E; vm_compute in E; discriminate. }
  assert (HM : matchAllYears
                 (a ++ (w1 ++ s1 ++ w2 ++ s2 ++ w3 ++ s3 ++ [c1; c2; c3; c4])
                    ++ b) = [[c1; c2; c3; c4]]).
  { rewrite <- !app_assoc.
    repeat (rewrite nondigits_skip
              by (try (now apply allWhiteSpace_nondigit); tauto)).
    rewrite year_found by exact HD. f_equal.
    rewrite <- (app_nil_r b).
    now rewrite nondigits_skip by now apply allWhiteSpace_nondigit. }
  unfold graduationInRange.
  change (js "present") with (112%N :: js "resent").
  rewrite HM, includes_absent.
  - cbn [nth]. rewrite parseInt10_year by exact HD.
    change (parseInt10 (js "0")) with (Some 0). cbv beta iota.
    replace (yearOf c1 c2 c3 c4 >? 0) with true; [reflexivity|].
    symmetry. rewrite Z.gtb_ltb. now apply Z.ltb_lt.
  - repeat (apply Forall_app; split);
      try (now apply allWhiteSpace_no_p);
      try (now apply fourDigits_no_p); tauto.
Qed.

Lemma lookup_rejects_before_form_witness :
  graduationInRange 2026 (js "In School Before 1995") (Some 1990) = false.
Proof.
  refine (lookup_rejects_before_form 2026 (js "In School Before 1995")
            1995 (Some 1990) _ _).
  - exists (js "In"), (js "School"), (js "Before"),
           (js " "), (js " "), (js " "), 49%N, 57%N, 57%N, 53%N.
    repeat split; try reflexivity; try discriminate; repeat constructor.
  - lia.
Defined.

(** ** More on the parser *)

Module ParserMore.
Import RegexFacts ParserFacts.

Lemma yearOf_bounds c1 c2 c3 c4 :
  fourDigits c1 c2 c3 c4 -> 0 <= yearOf c1 c2 c3 c4 <= 9999.
Proof.
  unfold fourDigits, isDigit, yearOf, digitValue.
  rewrite !andb_true_iff, !N.leb_le. lia.
Qed.

End ParserMore.

(** White space around the type text does not matter to [parseType]; in
    particular it gives the same answer on the trimmed text. *)
Theorem parseType_ignores_padding :
  forall (cy : Z) (a s b : jsstring),
    allWhiteSpace a -> allWhiteSpace b ->
    parseType cy (a ++ s ++ b) = parseType cy s /\
    parseType cy (trim s) = parseType cy s.
Proof.
  intros cy a s b Ha Hb. unfold parseType. cbv zeta.
  now rewrite TrimFacts.trim_pad, TrimFacts.trim_idem.
Qed.

Lemma parseType_ignores_padding_witness :
  parseType 2026 (js "  " ++ js "2000-2005" ++ js " ") =
  parseType 2026 (js "2000-2005").
Proof.
  refine (proj1 (parseType_ignores_padding 2026 (js "  ") (js "2000-2005")
                   (js " ") _ _)); repeat constructor.
Defined.

(** The ranges [parseType] returns: the start is never after the end, the
    start is a four-digit number (1900 for the "In School Before" form), and
    the end is a four-digit number or the current year. *)
Theorem parseType_range_bounds :
  forall (cy : Z) (raw : jsstring) (r : YearRange),
    parseType cy raw = Some r ->
    rstart r <= rend r /\
    0 <= rstart r <= 9999 /\
    (0 <= rend r <= 9999 \/ rend r = cy).
Proof.
  intros cy raw r H.
  destruct (parseType_some_inv cy raw r H) as [(Y1 & Y2 & F)|(Y & F)].
  - rewrite (parseType_bounded cy raw Y1 Y2 F) in H.
    destruct (Z.leb_spec Y1 Y2) as [Hle|]; [|discriminate].
    inversion H; subst; cbn [rstart rend]. split; [exact Hle|].
    destruct F as (c1 & c2 & c3 & c4 & ws1 & ws2 & tail &
                   HD & -> & _ & _ & HE & _).
    split; [now apply ParserMore.yearOf_bounds|].
    destruct HE as [d1 d2 d3 d4 HD'|w Hw];
      [left; now apply ParserMore.yearOf_bounds|now right].
  - rewrite (parseType_before cy raw Y F) in H.
    destruct (Z.leb_spec 1900 Y) as [Hle|]; [|discriminate].
    inversion H; subst; cbn [rstart rend]. split; [exact Hle|].
    split; [lia|]. left.
    destruct F as (w1 & w2 & w3 & s1 & s2 & s3 & c1 & c2 & c3 & c4 & F).
    decompose [and] F. subst Y. now apply ParserMore.yearOf_bounds.
Qed.

Lemma parseType_range_bounds_witness :
  rstart (mkRange 2020 2026) <= rend (mkRange 2020 2026) /\
  0 <= rstart (mkRange 2020 2026) <= 9999 /\
  (0 <= rend (mkRange 2020 2026) <= 9999 \/ rend (mkRange 2020 2026) = 2026).
Proof.
  refine (parseType_range_bounds 2026 (js "2020-present") (mkRange 2020 2026)
            _).
  vm_compute. reflexivity.
Defined.

(** ** The whole script *)

Module ScriptFacts.

Lemma stderr_report_nil issues :
  stderr (reportAndExit issues) = [] <->
  exited (reportAndExit issues) = None.
Proof.
  unfold reportAndExit. rewrite !ReportFacts.reportCategory_eq.
  destruct issues as [a b c d e f]. cbn [fst snd missingSchoolName
    missingLink missingType invalidType gaps overlaps].
  destruct a, b, c, d, e, f; cbn [orb app stderr exited];
    split; intros H; try reflexivity; discriminate.
Qed.

Lemma exited_report issues :
  exited (reportAndExit issues) = None \/
  exited (reportAndExit issues) = Some 1.
Proof.
  rewrite RunMore.exited_reportAndExit. destruct issues as [a b c d e f].
  cbn [missingSchoolName missingLink missingType invalidType gaps overlaps].
  destruct a, b, c, d, e, f; auto.
Qed.

Lemma main_exit cy label errors rows :
  exitStatus (main cy label errors rows) = 0 \/
  exitStatus (main cy label errors rows) = 1.
Proof.
  unfold main, exitStatus.
  destruct (0 <? length errors)%nat; [now right|].
  destruct (length rows =? 0)%nat; [now right|]. cbn [exited].
  destruct (exited_report (collectIssues cy rows)) as [-> | ->]; auto.
Qed.

Lemma main_stderr_nil cy label errors rows :
  stderr (main cy label errors rows) = [] <->
  exitStatus (main cy label errors rows) = 0.
Proof.
  unfold main, exitStatus.
  destruct (0 <? length errors)%nat; [split; discriminate|].
  destruct (length rows =? 0)%nat; [split; discriminate|].
  cbn [stderr exited]. rewrite stderr_report_nil.
  destruct (exited_report (collectIssues cy rows)) as [-> | ->];
    split; intros; try reflexivity; discriminate.
Qed.

Lemma exitStatus_mk a b r :
  exitStatus (mkReport a b (exited r)) = exitStatus r.
Proof. reflexivity. Qed.

Lemma script_cases path cy papaParse fetched local :
  (exists t,
      fetched = Body t /\
      script path cy papaParse fetched local =
      let r := main cy GOOGLE_SHEET_CSV_URL (fst (papaParse (stripBom t)))
                 (snd (papaParse (stripBom t))) in
      mkReport (stderr r) (stdout r) (exited r)) \/
  (exists t w,
      (forall t0, fetched <> Body t0) /\ local = Contents t /\
      script path cy papaParse fetched local =
      let r := main cy path (fst (papaParse (stripBom t)))
                 (snd (papaParse (stripBom t))) in
      mkReport (w :: stderr r) (stdout r) (exited r)) \/
  (exists m w,
      (forall t0, fetched <> Body t0) /\ local = Unreadable m /\
      script path cy papaParse fetched local = mkReport [w] [] (Some 1)).
Proof.
  unfold script, loadCsvText, fallBack.
  destruct fetched as [m|st stt|m|t].
  4:{ left. exists t. split; [reflexivity|]. cbn [text sourceLabel].
      now destruct (papaParse (stripBom t)). }
  all: right; destruct local as [m'|t'];
    [ right; do 2 eexists; split; [discriminate|]; split; reflexivity
    | left; do 2 eexists; split; [discriminate|]; split; [reflexivity|];
      cbn [text sourceLabel]; now destruct (papaParse (stripBom t')) ].
Qed.

End ScriptFacts.

(** The verdict of the script in terms of what it reads.  It exits with
    status 0 or 1.  It exits with 0 exactly when a source could be read --
    the sheet, or else the local file -- and the table parsed from it,
    after one leading byte-order mark is dropped, passes.  Its standard
    error stream stays empty exactly when it exits with 0 and the source
    was the sheet. *)
Theorem script_verdict :
  forall (path : jsstring) (cy : Z)
         (papaParse : jsstring -> list ParseError * list Row)
         (fetched : Fetched) (local : LocalFile),
    let passes source label :=
      exitStatus (main cy label (fst (papaParse (stripBom source)))
                    (snd (papaParse (stripBom source)))) = 0 in
    (exitStatus (script path cy papaParse fetched local) = 0 \/
     exitStatus (script path cy papaParse fetched local) = 1) /\
    (exitStatus (script path cy papaParse fetched local) = 0 <->
     (exists source,
         fetched = Body source /\ passes source GOOGLE_SHEET_CSV_URL) \/
     (exists source,
         (forall t, fetched <> Body t) /\ local = Contents source /\
         passes source path)) /\
    (stderr (script path cy papaParse fetched local) = [] <->
     exists source,
       fetched = Body source /\ passes source GOOGLE_SHEET_CSV_URL).
Proof.
  intros path cy papaParse fetched local passes. subst passes. cbv beta.
  destruct (ScriptFacts.script_cases path cy papaParse fetched local)
    as [(t & Ef & E)|[(t & w & Hf & El & E)|(m & w & Hf & El & E)]];
    rewrite E; cbv zeta; rewrite ?ScriptFacts.exitStatus_mk; cbn [stderr].
  - split; [apply ScriptFacts.main_exit|]. split.
    + split.
      * intros H. left. exists t. auto.
      * intros [(s & Es & H)|(s & Hf & _)].
        -- rewrite Ef in Es. inversion Es; subst. exact H.
        -- exfalso. now apply (Hf t).
    + rewrite ScriptFacts.main_stderr_nil. split.
      * intros H. exists t. auto.
      * intros (s & Es & H). rewrite Ef in Es. inversion Es; subst. exact H.
  - split; [apply ScriptFacts.main_exit|]. split.
    + split.
      * intros H. right. exists t. auto.
      * intros [(s & Es & _)|(s & _ & Es & H)].
        -- exfalso. now apply (Hf s).
        -- rewrite El in Es. inversion Es; subst. exact H.
    + split; [discriminate|]. intros (s & Es & _). exfalso. now apply (Hf s).
  - change (exitStatus (mkReport [w] [] (Some 1))) with 1.
    split; [now right|]. split.
    + split; [discriminate|].
      intros [(s & Es & _)|(s & _ & Es & _)].
      * exfalso. now apply (Hf s).
      * rewrite El in Es. discriminate.
    + split; [discriminate|]. intros (s & Es & _). exfalso. now apply (Hf s).
Qed.

(** ** What a reported span means *)

Module SpanFacts.
Import SortFacts ReconcileFacts SweepMore.

Lemma adjacent_split {T : Type} (l : list T) p c :
  adjacent l p c -> exists l1 l2, l = l1 ++ p :: c :: l2.
Proof.
  intros (i & H1 & H2). apply nth_error_split in H1.
  destruct H1 as (l1 & l2 & -> & <-).
  rewrite nth_error_app2 in H2 by lia.
  replace (S (length l1) - length l1)%nat with 1%nat in H2 by lia.
  destruct l2 as [|c' l2]; simpl in H2; [discriminate|].
  inversion H2; subst. now exists l1, l2.
Qed.

Lemma adjacent_suffix {T : Type} (l1 l2 : list T) p c :
  adjacent l2 p c -> adjacent (l1 ++ l2) p c.
Proof.
  induction l1 as [|x l1 IH]; intros H; [exact H|].
  cbn [app]. now apply adjacent_tail, IH.
Qed.

(** In an array whose neighbours never overlap, a fact ends before every
    later fact starts. *)
Lemma apart_after h l :
  (forall p c, adjacent (h :: l) p c ->
               RangeEntry.end_ p < RangeEntry.start c) ->
  (forall e, In e (h :: l) -> RangeEntry.start e <= RangeEntry.end_ e) ->
  forall e, In e l -> RangeEntry.end_ h < RangeEntry.start e.
Proof.
  revert h. induction l as [|c l IH]; intros h Hch Hwf e He; [destruct He|].
  assert (Hc : RangeEntry.end_ h < RangeEntry.start c)
    by (apply Hch, (adjacent_app [])).
  destruct He as [->|He]; [exact Hc|].
  assert (RangeEntry.end_ c < RangeEntry.start e).
  { apply (IH c); auto.
    - intros p q Hadj. now apply Hch, adjacent_tail.
    - intros e' He'. apply Hwf. now right. }
  specialize (Hwf c (or_intror (or_introl eq_refl))). lia.
Qed.

End SpanFacts.

Import SpanFacts.

(** A reported overlap is the exact intersection of two neighbouring
    facts of the school it names: a year lies in the reported span if and
    only if it lies in the range of the fact behind [prevLine] and in the
    range of the fact behind [currLine]. *)
Theorem overlap_is_intersection :
  forall (m : SchoolMap) (issues0 : Issues),
    overlaps issues0 = [] ->
    forall o, In o (overlaps (fst (reconcile m issues0))) ->
      exists ranges prev curr,
        In (Overlap.schoolName o, ranges) m /\
        In prev ranges /\ In curr ranges /\
        Overlap.prevLine o = RangeEntry.line prev /\
        Overlap.currLine o = RangeEntry.line curr /\
        forall y,
          Overlap.overlapStart o <= y <= Overlap.overlapEnd o <->
          covers prev y /\ covers curr y.
Proof.
  intros m a O0 o Ho. apply ReconcileFacts.reconcile_overlaps_In in Ho.
  rewrite O0 in Ho.
  destruct Ho as [[]|(n & r & p & c & Hin & Hadj & Hle & ->)].
  pose proof (adjacent_leR _ _ _ (SortFacts.sortRanges_sorted r) Hadj) as Hpc.
  apply leR_start in Hpc.
  destruct (ReconcileFacts.adjacent_In _ _ _ Hadj) as [Hp Hc].
  apply -> SortFacts.sortRanges_In in Hp.
  apply -> SortFacts.sortRanges_In in Hc.
  exists r, p, c. simpl. repeat split; auto; unfold covers in *; lia.
Qed.

Lemma overlap_is_intersection_witness :
  Forall (fun o =>
            exists ranges prev curr,
              In (Overlap.schoolName o, ranges) lincolnOverlapMap /\
              In prev ranges /\ In curr ranges /\
              Overlap.prevLine o = RangeEntry.line prev /\
              Overlap.currLine o = RangeEntry.line curr /\
              forall y,
                Overlap.overlapStart o <= y <= Overlap.overlapEnd o <->
                covers prev y /\ covers curr y)
         (overlaps (fst (reconcile lincolnOverlapMap noIssues))).
Proof.
  apply Forall_forall.
  exact (overlap_is_intersection lincolnOverlapMap noIssues eq_refl).
Defined.

(** When no overlap is reported for a school, its reported gaps are real
    holes: no fact of the school covers a year strictly between the end of
    a fact and the start of its right neighbour in the sorted array. *)
Theorem gap_is_hole :
  forall (m : SchoolMap) (issues0 : Issues) (schoolName : jsstring)
         (ranges : list RangeEntry.t) (prev curr : RangeEntry.t),
    wellFormed m ->
    In (schoolName, ranges) m ->
    adjacent (sortRanges ranges) prev curr ->
    (forall o, In o (overlaps (fst (reconcile m issues0))) ->
               Overlap.schoolName o <> schoolName) ->
    forall y e,
      Gap.fromYear (gapOf schoolName prev curr) <= y <=
      Gap.toYear (gapOf schoolName prev curr) ->
      In e ranges -> ~ covers e y.
Proof.
  intros m a n ranges prev curr Hwf Hin Hadj Hno y e Hy He Hc.
  simpl in Hy. unfold covers in Hc.
  assert (Hap : forall p c, adjacent (sortRanges ranges) p c ->
                  RangeEntry.end_ p < RangeEntry.start c).
  { intros p c H.
    destruct (Z.lt_ge_cases (RangeEntry.end_ p) (RangeEntry.start c))
      as [Hlt|Hge]; [exact Hlt|]. exfalso.
    apply (Hno (overlapOf n p c)); [|reflexivity].
    apply ReconcileFacts.reconcile_overlaps_In. right.
    exists n, ranges, p, c. auto. }
  assert (Hw : forall e0, In e0 (sortRanges ranges) ->
                 RangeEntry.start e0 <= RangeEntry.end_ e0).
  { intros e0 H. apply -> SortFacts.sortRanges_In in H.
    exact (Hwf n ranges e0 Hin H). }
  pose proof (sortRanges_strongly ranges) as Hs.
  apply SortFacts.sortRanges_In in He.
  destruct (adjacent_split _ _ _ Hadj) as (l1 & l2 & E).
  rewrite E in *. apply in_app_iff in He. destruct He as [He|[<-|He]].
  - apply in_split in He. destruct He as (u1 & u2 & ->).
    rewrite <- app_assoc in Hap, Hw. cbn [app] in Hap, Hw.
    assert (RangeEntry.end_ e < RangeEntry.start prev).
    { apply (apart_after e (u2 ++ prev :: curr :: l2)).
      - intros p c H. now apply Hap, adjacent_suffix.
      - intros e0 H. apply Hw. apply in_app_iff. now right.
      - apply in_app_iff. right. now left. }
    assert (RangeEntry.start prev <= RangeEntry.end_ prev).
    { apply Hw. apply in_app_iff. right. right.
      apply in_app_iff. right. now left. }
    lia.
  - lia.
  - assert (leR curr e \/ curr = e).
    { destruct He as [->|He]; [now right|left].
      replace (l1 ++ prev :: curr :: l2)
        with ((l1 ++ [prev; curr]) ++ l2) in Hs
        by (rewrite <- app_assoc; reflexivity).
      apply (strongly_app leR (l1 ++ [prev; curr]) l2 curr e Hs);
        [|exact He].
      apply in_app_iff. right. simpl. auto. }
    destruct H as [H| ->]; [apply leR_start in H|]; lia.
Qed.

Lemma gap_is_hole_witness :
  Forall (fun e => ~ covers e 2006)
    [RangeEntry.mk 3 2007 2010 (js "2007-2010") (js "https://b");
     RangeEntry.mk 2 2000 2005 (js "2000-2005") (js "https://a")].
Proof.
  apply Forall_forall. intros e He.
  refine (gap_is_hole lincolnGapMap noIssues (js "Lincoln") _
            (RangeEntry.mk 2 2000 2005 (js "2000-2005") (js "https://a"))
            (RangeEntry.mk 3 2007 2010 (js "2007-2010") (js "https://b"))
            _ (or_introl eq_refl) _ _ 2006 e _ He).
  - intros n ranges e0 [H|[]] He0. inversion H; subst.
    destruct He0 as [<-|[<-|[]]]; simpl; lia.
  - exists 0%nat. split; reflexivity.
  - intros o [].
  - simpl. lia.
Defined.
